(** * A task list kept in React state and mirrored to localStorage

    Shallow embedding of [src/App.tsx]: the [Todo] record, the event
    handlers of the [App] component ([addTodo], [toggleTodo], [deleteTodo],
    [saveEdit], [clearCompleted]), the [filteredTodos] projection, the id
    generator and the two persistence hooks (the lazy [useState]
    initialiser and the [useEffect] that writes the list back).

    Conventions.
    - A JavaScript string is the list of its UTF-16 code units, each an [N].
    - A finite number is the rational it is equal to; reading a literal
      rounds it to binary64 and writing a number prints the shortest decimal
      that reads back as it. Zero has one sign.
    - [Date.now()] and [Math.random()] read the outside world; the world is
      threaded explicitly through a small state monad.
    - [localStorage] is a finite map from keys to strings. *)

From Stdlib Require Import ZArith NArith QArith Qround Qpower Lia List Ascii String Sorted.
From stdpp Require Import base option list gmap.

Local Open Scope Z_scope.

(** ** JavaScript strings *)

Abbreviation jsstring := (list N).

Module JS.

(** The number with the given binary digits, least significant first. *)
Fixpoint ofBits (l : list bool) : N :=
  match l with
  | [] => N0
  | b :: l' =>
      match ofBits l' with
      | N0 => if b then Npos xH else N0
      | Npos p => Npos (if b then xI p else xO p)
      end
  end.

Definition code (a : ascii) : N :=
  match a with
  | Ascii b0 b1 b2 b3 b4 b5 b6 b7 => ofBits [b0; b1; b2; b3; b4; b5; b6; b7]
  end.

(** Code units of an ASCII literal, to write the constants of the source. *)
Fixpoint lit (s : string) : jsstring :=
  match s with
  | EmptyString => []
  | String a s' => code a :: lit s'
  end.

(** ECMAScript [WhiteSpace]: TAB, VT, FF, ZWNBSP and the space separators. *)
Definition isWhiteSpace (c : N) : bool :=
  ((c =? 9) || (c =? 11) || (c =? 12) || (c =? 32) || (c =? 160)
   || (c =? 5760) || ((8192 <=? c) && (c <=? 8202))
   || (c =? 8239) || (c =? 8287) || (c =? 12288) || (c =? 65279))%N.

(** ECMAScript [LineTerminator]: LF, CR, LS, PS. *)
Definition isLineTerminator (c : N) : bool :=
  ((c =? 10) || (c =? 13) || (c =? 8232) || (c =? 8233))%N.

(** What [String.prototype.trim] strips from both ends. *)
Definition isTrimmed (c : N) : bool := isWhiteSpace c || isLineTerminator c.

Fixpoint trimStart (s : jsstring) : jsstring :=
  match s with
  | [] => []
  | c :: s' => if isTrimmed c then trimStart s' else s
  end.

Definition trimEnd (s : jsstring) : jsstring :=
  List.rev (trimStart (List.rev s)).

(** [String.prototype.trim]. *)
Definition trim (s : jsstring) : jsstring := trimEnd (trimStart s).

(** [ToBoolean] on a string: only the empty string is falsy. *)
Definition truthy (s : jsstring) : bool :=
  match s with [] => false | _ :: _ => true end.

(** [s.substr(n)] for a non-negative [n] and no length argument. *)
Definition substr (n : nat) (s : jsstring) : jsstring := drop n s.

(** Strict equality [===] on strings. *)
Definition streq (a b : jsstring) : bool := bool_decide (a = b).

(** The digit characters [0-9a-z] used by [Number.prototype.toString]. *)
Definition digitChar (d : Z) : N :=
  if d <? 10 then Z.to_N (48 + d) else Z.to_N (87 + d).

(** Digits of a non-negative integer, most significant first. The fuel
    bounds the number of digits; [digits] supplies enough of it. *)
Fixpoint digitsAux (radix : Z) (fuel : nat) (n : Z) (acc : jsstring) : jsstring :=
  match fuel with
  | O => acc
  | S f =>
      let acc' := digitChar (n mod radix) :: acc in
      if n / radix =? 0 then acc' else digitsAux radix f (n / radix) acc'
  end.

Definition digits (radix n : Z) : jsstring :=
  digitsAux radix (S (Z.to_nat (Z.log2 n))) n [].

(** [n.toString(radix)] for an integer [n]; 45 is the minus sign. *)
Definition Number_toString (radix n : Z) : jsstring :=
  if n <? 0 then 45%N :: digits radix (- n) else digits radix n.

(** [Number.MAX_SAFE_INTEGER]: up to it, in magnitude, every integer is a
    binary64 and is printed with all its digits. Clock readings are such
    integers. *)
Definition MAX_SAFE_INTEGER : Z := 2 ^ 53 - 1.

End JS.

(** ** Numbers *)

(** The numbers that are not finite. *)
Inductive nonfinite := NaN | PosInfinity | NegInfinity.

Module Binary64.

(** [(n/d) / 2^e] as a fraction. *)
Definition scaled (n d e : Z) : Z * Z :=
  if 0 <=? e then (n, d * 2 ^ e) else (n * 2 ^ (- e), d).

(** The exponent of the leading bit of [n/d], for positive [n] and [d]. *)
Definition exponent (n d : Z) : Z :=
  let e := Z.log2 n - Z.log2 d in
  let (a, b) := scaled n d e in
  if a <? b then e - 1 else e.

(** The integer nearest to [a/b], the even one when two are as near. *)
Definition nearestEven (a b : Z) : Z :=
  let q := a / b in
  let r := a mod b in
  if 2 * r <? b then q
  else if b <? 2 * r then q + 1
  else if Z.even q then q else q + 1.

(** The binary64 nearest to [n/d]: 53 significant bits, the last of them
    worth [2^p] with [p] no less than -1074; [None] when the rounded value
    reaches [2^1024], which is the overflow to infinity. *)
Definition roundPositive (n d : Z) : option Q :=
  let p := Z.max (exponent n d) (-1022) - 52 in
  let (a, b) := scaled n d p in
  let m := nearestEven a b in
  if 0 <=? p then
    if 2 ^ 1024 <=? m * 2 ^ p then None else Some (inject_Z (m * 2 ^ p))
  else Some (Qred (Qmake m (Z.to_pos (2 ^ (- p))))).

Definition round (q : Q) : option Q :=
  match Qnum q with
  | 0 => Some (inject_Z 0)
  | Zpos n => roundPositive (Zpos n) (Zpos (Qden q))
  | Zneg n => option_map Qopp (roundPositive (Zpos n) (Zpos (Qden q)))
  end.

Definition pow10 (e : Z) : Q := Qpower (inject_Z 10) e.

(** How many zeros follow the decimal point of [x], below 1, before its
    first digit that is not zero. *)
Fixpoint leadingZeros (fuel : nat) (x : Q) : Z :=
  match fuel with
  | O => 0
  | S f =>
      let y := Qmult (inject_Z 10) x in
      if Qle_bool (inject_Z 1) y then 0 else 1 + leadingZeros f y
  end.

(** The [n] with [10^(n-1) <= x < 10^n], for a positive binary64 [x]
    (the least has 323 zeros after the point). *)
Definition pointPosition (x : Q) : Z :=
  let i := Qfloor x in
  if 1 <=? i then Z.of_nat (length (JS.digits 10 i)) else - leadingZeros 400 x.

(** The value of the decimal with the digits of [s] and the exponent [e],
    in lowest terms. *)
Definition decimal (s e : Z) : Q := Qred (Qmult (inject_Z s) (pow10 e)).

(** Whether the decimal [s * 10^e], [s] positive, rounds to [x]. *)
Definition readsBack (x : Q) (s e : Z) : bool :=
  (0 <? s) &&
  match round (decimal s e) with
  | Some y => Qeq_bool y x
  | None => false
  end.

(** Among the decimals of [k] digits that round to [x], the one nearest to
    [x] (the even one of two), as its digits and its exponent; [n] is the
    point position of [x]. It is one of the two decimals that enclose [x]; the
    upper one may be a power of ten. *)
Definition shortestAt (x : Q) (n k : Z) : option (Z * Z) :=
  let e := n - k in
  let t := Qmult x (pow10 (- e)) in
  let lo := Qfloor t in
  let hi := if lo + 1 =? 10 ^ k then (10 ^ (k - 1), e + 1) else (lo + 1, e) in
  let below := Qminus t (inject_Z lo) in
  let above := Qminus (inject_Z (lo + 1)) t in
  match readsBack x lo e, readsBack x (fst hi) (snd hi) with
  | true, true =>
      if Qle_bool above below then
        if Qle_bool below above then (if Z.even lo then Some (lo, e) else Some hi)
        else Some hi
      else Some (lo, e)
  | true, false => Some (lo, e)
  | false, true => Some hi
  | false, false => None
  end.

(** All the digits of [x]: the denominator of a binary64 is a power of
    two, so [x] is a decimal itself. *)
Definition allDigits (x : Q) : Z * Z :=
  let j := Z.log2 (Zpos (Qden x)) in (Qnum x * 5 ^ j, - j).

(** The fewest digits that read back as [x], from [k] digits on. Seventeen
    digits always do, so the last resort, all the digits, is never taken. *)
Fixpoint shortest (fuel : nat) (x : Q) (n k : Z) : Z * Z :=
  match shortestAt x n k with
  | Some r => r
  | None =>
      match fuel with
      | O => allDigits x
      | S f => shortest f x n (k + 1)
      end
  end.

(** The four notations of [Number::toString] for the digits [ds] and the
    point position [n]: digits then zeros, digits around a point, [0.] zeros
    digits, and the exponent notation. *)
Definition format (ds : jsstring) (n : Z) : jsstring :=
  let k := Z.of_nat (length ds) in
  if (k <=? n) && (n <=? 21) then ds ++ List.repeat 48%N (Z.to_nat (n - k))
  else if (0 <? n) && (n <=? 21) then
    take (Z.to_nat n) ds ++ 46%N :: drop (Z.to_nat n) ds
  else if (-6 <? n) && (n <=? 0) then
    48%N :: 46%N :: List.repeat 48%N (Z.to_nat (- n)) ++ ds
  else
    let e := n - 1 in
    let expo := 101%N :: (if e <? 0 then 45%N else 43%N) :: JS.digits 10 (Z.abs e) in
    match ds with
    | [] => []
    | [d] => d :: expo
    | d :: more => d :: 46%N :: more ++ expo
    end.

Definition toStringPositive (x : Q) : jsstring :=
  let (s, e) := shortest 16 x (pointPosition x) 1 in
  let ds := JS.digits 10 s in
  format ds (e + Z.of_nat (length ds)).

(** [Number::toString] in radix 10 of a finite binary64. *)
Definition toString (x : Q) : jsstring :=
  match Qnum x with
  | 0 => [48%N]
  | Zpos _ => toStringPositive x
  | Zneg _ => 45%N :: toStringPositive (Qopp x)
  end.

End Binary64.

(** ** The world the component runs in *)

(** [clock] and [entropy] are the answers [Date.now()] and
    [Math.random().toString(36)] will give, indexed by how many times each
    has been asked; [localStorage] is the browser's key-value store. *)
Record World := mkWorld {
  clock : nat -> Z;
  ticks : nat;
  entropy : nat -> jsstring;
  draws : nat;
  localStorage : gmap (list N) (list N)
}.

Definition M (A : Type) : Type := World -> A * World.

#[export] Instance M_ret : MRet M := fun A (a : A) w => (a, w).

#[export] Instance M_bind : MBind M :=
  fun A B (k : A -> M B) (m : M A) w => let (a, w') := m w in k a w'.

Definition run {A} (m : M A) (w : World) : A := fst (m w).
Definition exec {A} (m : M A) (w : World) : World := snd (m w).

(** [Date.now()]: milliseconds since the epoch, an integer. *)
Definition Date_now : M Z :=
  fun w => (clock w (ticks w),
            mkWorld (clock w) (S (ticks w)) (entropy w) (draws w) (localStorage w)).

(** [Math.random().toString(36)]: the base-36 rendering of a draw from
    [0,1), which reads ["0"] or ["0."] followed by digits. The rendering of a
    binary fraction is left to the world. *)
Definition Math_random_toString36 : M jsstring :=
  fun w => (entropy w (draws w),
            mkWorld (clock w) (ticks w) (entropy w) (S (draws w)) (localStorage w)).

(** [localStorage.getItem(k)]: [None] stands for [null]. *)
Definition getItem (k : jsstring) : M (option jsstring) :=
  fun w => (localStorage w !! k, w).

(** [localStorage.setItem(k, v)]. *)
Definition setItem (k v : jsstring) : M unit :=
  fun w => (tt, mkWorld (clock w) (ticks w) (entropy w) (draws w)
                        (<[k := v]> (localStorage w))).

(** ** JSON values, [JSON.stringify] and [JSON.parse] *)

(** The values [JSON.stringify] is given and [JSON.parse] returns: null,
    booleans, numbers (finite or not), strings, arrays and plain objects. An
    object is its list of properties in the order [for-in] and
    [JSON.stringify] visit them. *)
#[warnings="-register-all"]
Inductive json :=
  | JNull
  | JBool (b : bool)
  | JNum (q : Q)
  | JNonFinite (x : nonfinite)
  | JStr (s : jsstring)
  | JArr (elems : list json)
  | JObj (props : list (jsstring * json)).

Module JSON.

Definition hexChar (d : N) : N := if (d <? 10)%N then (48 + d)%N else (87 + d)%N.

(** [UnicodeEscape]: a backslash, [u] and four lowercase hex digits. *)
Definition unicodeEscape (c : N) : jsstring :=
  [92; 117; hexChar (c / 4096); hexChar ((c / 256) mod 16);
   hexChar ((c / 16) mod 16); hexChar (c mod 16)]%N.

Definition isHighSurrogate (c : N) : bool := ((55296 <=? c) && (c <=? 56319))%N.
Definition isLowSurrogate (c : N) : bool := ((56320 <=? c) && (c <=? 57343))%N.

(** The characters between the quotes of [QuoteJSONString]: the short
    escapes, [\uXXXX] for other control characters and lone surrogates,
    everything else as it is (a surrogate pair stays a pair). *)
Fixpoint quoteBody (s : jsstring) : jsstring :=
  match s with
  | [] => []
  | c :: s' =>
      if (c =? 8)%N then 92%N :: 98%N :: quoteBody s'
      else if (c =? 9)%N then 92%N :: 116%N :: quoteBody s'
      else if (c =? 10)%N then 92%N :: 110%N :: quoteBody s'
      else if (c =? 12)%N then 92%N :: 102%N :: quoteBody s'
      else if (c =? 13)%N then 92%N :: 114%N :: quoteBody s'
      else if (c =? 34)%N then 92%N :: 34%N :: quoteBody s'
      else if (c =? 92)%N then 92%N :: 92%N :: quoteBody s'
      else if (c <? 32)%N then unicodeEscape c ++ quoteBody s'
      else if isHighSurrogate c then
        match s' with
        | d :: s'' =>
            if isLowSurrogate d then c :: d :: quoteBody s''
            else unicodeEscape c ++ quoteBody s'
        | [] => unicodeEscape c
        end
      else if isLowSurrogate c then unicodeEscape c ++ quoteBody s'
      else c :: quoteBody s'
  end.

Definition quote (s : jsstring) : jsstring := 34%N :: quoteBody s ++ [34%N].

(** [Number::toString] in radix 10. A safe integer is printed with all its
    digits, which are the fewest that read back as it; any other binary64 by
    the search for the fewest. [None] on a rational that is no binary64, and
    so no number a JavaScript value holds. *)
Definition numberToString (q : Q) : option jsstring :=
  if (Qden q =? 1)%positive && (Z.abs (Qnum q) <=? JS.MAX_SAFE_INTEGER)
  then Some (JS.Number_toString 10 (Qnum q))
  else
    match Binary64.round q with
    | Some x => if Qeq_bool x q then Some (Binary64.toString q) else None
    | None => None
    end.

Definition joinComma (parts : list jsstring) : jsstring :=
  match parts with
  | [] => []
  | p :: ps => p ++ List.concat (List.map (fun x => 44%N :: x) ps)
  end.

Definition sequenceOpt {A} (l : list (option A)) : option (list A) :=
  List.fold_right (fun o acc =>
    match o, acc with Some x, Some xs => Some (x :: xs) | _, _ => None end)
    (Some []) l.

(** [JSON.stringify(v)] with no replacer and no indentation. A number that
    is not finite is written [null]. [None] when [v] holds a rational that is
    no binary64. *)
Fixpoint stringify (v : json) : option jsstring :=
  match v with
  | JNull => Some (JS.lit "null")
  | JBool true => Some (JS.lit "true")
  | JBool false => Some (JS.lit "false")
  | JNum q => numberToString q
  | JNonFinite _ => Some (JS.lit "null")
  | JStr s => Some (quote s)
  | JArr elems =>
      match sequenceOpt (List.map stringify elems) with
      | Some parts => Some (91%N :: joinComma parts ++ [93%N])
      | None => None
      end
  | JObj props =>
      match sequenceOpt (List.map (fun kv =>
                match stringify (snd kv) with
                | Some sv => Some (quote (fst kv) ++ 58%N :: sv)
                | None => None
                end) props) with
      | Some parts => Some (123%N :: joinComma parts ++ [125%N])
      | None => None
      end
  end.

(** *** Parsing *)

Definition isJsonWs (c : N) : bool :=
  ((c =? 9) || (c =? 10) || (c =? 13) || (c =? 32))%N.

Fixpoint skipWs (s : jsstring) : jsstring :=
  match s with
  | [] => []
  | c :: s' => if isJsonWs c then skipWs s' else s
  end.

(** Strip the literal [p] from the front of [s]. *)
Fixpoint expect (p s : jsstring) : option jsstring :=
  match p, s with
  | [], _ => Some s
  | a :: p', b :: s' => if (a =? b)%N then expect p' s' else None
  | _ :: _, [] => None
  end.

Definition hexVal (c : N) : option N :=
  if ((48 <=? c) && (c <=? 57))%N then Some (c - 48)%N
  else if ((97 <=? c) && (c <=? 102))%N then Some (c - 87)%N
  else if ((65 <=? c) && (c <=? 70))%N then Some (c - 55)%N
  else None.

Definition hex4Val (a b c d : N) : option N :=
  match hexVal a, hexVal b, hexVal c, hexVal d with
  | Some x, Some y, Some z, Some w => Some (x * 4096 + y * 256 + z * 16 + w)%N
  | _, _, _, _ => None
  end.

(** The character a one-letter escape stands for. *)
Definition unescape (e : N) : option N :=
  if (e =? 34)%N then Some 34%N
  else if (e =? 92)%N then Some 92%N
  else if (e =? 47)%N then Some 47%N
  else if (e =? 98)%N then Some 8%N
  else if (e =? 102)%N then Some 12%N
  else if (e =? 110)%N then Some 10%N
  else if (e =? 114)%N then Some 13%N
  else if (e =? 116)%N then Some 9%N
  else None.

(** A string after its opening quote: the decoded characters and what
    follows the closing quote. *)
Fixpoint parseStringBody (s : jsstring) : option (jsstring * jsstring) :=
  match s with
  | [] => None
  | c :: s' =>
      if (c =? 34)%N then Some ([], s')
      else if (c =? 92)%N then
        match s' with
        | [] => None
        | e :: s'' =>
            if (e =? 117)%N then
              match s'' with
              | h1 :: h2 :: h3 :: h4 :: s3 =>
                  match hex4Val h1 h2 h3 h4 with
                  | Some u =>
                      match parseStringBody s3 with
                      | Some (r, rest) => Some (u :: r, rest)
                      | None => None
                      end
                  | None => None
                  end
              | _ => None
              end
            else
              match unescape e with
              | Some u =>
                  match parseStringBody s'' with
                  | Some (r, rest) => Some (u :: r, rest)
                  | None => None
                  end
              | None => None
              end
        end
      else if (c <? 32)%N then None
      else
        match parseStringBody s' with
        | Some (r, rest) => Some (c :: r, rest)
        | None => None
        end
  end.

Definition isDigit (c : N) : bool := ((48 <=? c) && (c <=? 57))%N.

(** The longest prefix of decimal digits, and the rest. *)
Fixpoint takeDigits (s : jsstring) : jsstring * jsstring :=
  match s with
  | [] => ([], [])
  | c :: s' =>
      if isDigit c then let (ds, rest) := takeDigits s' in (c :: ds, rest)
      else ([], s)
  end.

Definition digitsValue (ds : jsstring) : Z :=
  List.fold_left (fun a c => a * 10 + (Z.of_N c - 48)) ds 0.

(** The next character, when it is [c]. *)
Definition expectChar (c : N) (s : jsstring) : option jsstring :=
  match s with
  | d :: s' => if (d =? c)%N then Some s' else None
  | [] => None
  end.

(** The optional fraction: a dot and at least one digit. *)
Definition parseFraction (s : jsstring) : option (jsstring * jsstring) :=
  match expectChar 46 s with
  | Some s' =>
      match takeDigits s' with
      | ([], _) => None
      | (ds, rest) => Some (ds, rest)
      end
  | None => Some ([], s)
  end.

(** The optional exponent: [e] or [E], an optional sign, at least one digit. *)
Definition parseExponent (s : jsstring) : option (Z * jsstring) :=
  match s with
  | c :: s' =>
      if ((c =? 101) || (c =? 69))%N then
        let (neg, s1) :=
          match expectChar 45 s', expectChar 43 s' with
          | Some t, _ => (true, t)
          | None, Some t => (false, t)
          | None, None => (false, s')
          end in
        match takeDigits s1 with
        | ([], _) => None
        | (ds, rest) => Some (if neg then - digitsValue ds else digitsValue ds, rest)
        end
      else Some (0, s)
  | [] => Some (0, s)
  end.

(** A number literal after its optional minus: an integer part with no
    leading zero, an optional fraction, an optional exponent. *)
Definition parseUnsigned (neg : bool) (s1 : jsstring) : option (Q * jsstring) :=
  match takeDigits s1 with
  | ([], _) => None
  | (d :: ds, s2) =>
      if (d =? 48)%N && negb (bool_decide (ds = [])) then None
      else
        match parseFraction s2 with
        | None => None
        | Some (fs, s3) =>
            match parseExponent s3 with
            | None => None
            | Some (e, s4) =>
                let m := digitsValue ((d :: ds) ++ fs) in
                let m := if neg then - m else m in
                Some (Qred (Qmult (Qmake m 1)
                                  (Qpower (Qmake 10 1) (e - Z.of_nat (length fs)))),
                      s4)
            end
        end
  end.

Definition parseNumber (s : jsstring) : option (Q * jsstring) :=
  match expectChar 45 s with
  | Some t => parseUnsigned true t
  | None => parseUnsigned false s
  end.

(** The number a literal of value [q] is read as: the binary64 nearest to
    [q], an infinity when that is out of range. *)
Definition numberOf (q : Q) : json :=
  match Binary64.round q with
  | Some x => JNum x
  | None => JNonFinite (if Qnum q <? 0 then NegInfinity else PosInfinity)
  end.

(** An array index: the canonical decimal of an integer below [2^32 - 1]. *)
Definition arrayIndex (k : jsstring) : option Z :=
  match k with
  | [] => None
  | c :: r =>
      if List.forallb isDigit k && (negb (c =? 48)%N || bool_decide (r = [])) then
        if digitsValue k <? 2 ^ 32 - 1 then Some (digitsValue k) else None
      else None
  end.

Definition hasProp (k : jsstring) (o : list (jsstring * json)) : bool :=
  List.existsb (fun kv => JS.streq (fst kv) k) o.

Fixpoint replaceProp (k : jsstring) (v : json) (o : list (jsstring * json))
    : list (jsstring * json) :=
  match o with
  | [] => []
  | (k', v') :: o' =>
      if JS.streq k' k then (k, v) :: o' else (k', v') :: replaceProp k v o'
  end.

(** A new property whose key is the array index [n]: after the indices
    below [n], before everything else. *)
Fixpoint insertIndex (n : Z) (k : jsstring) (v : json) (o : list (jsstring * json))
    : list (jsstring * json) :=
  match o with
  | [] => [(k, v)]
  | (k', v') :: o' =>
      match arrayIndex k' with
      | Some n' => if n' <? n then (k', v') :: insertIndex n k v o' else (k, v) :: o
      | None => (k, v) :: o
      end
  end.

(** [CreateDataProperty] while an object literal is read. A repeated key
    keeps its place and takes the later value. A new key goes where the order
    of property keys puts it: the array indices first, in ascending order,
    then the other keys in the order they were created. *)
Definition setProp (k : jsstring) (v : json) (o : list (jsstring * json))
    : list (jsstring * json) :=
  if hasProp k o then replaceProp k v o
  else
    match arrayIndex k with
    | Some n => insertIndex n k v o
    | None => o ++ [(k, v)]
    end.

Definition objectOf (members : list (jsstring * json)) : list (jsstring * json) :=
  List.fold_left (fun o kv => setProp (fst kv) (snd kv) o) members [].

(** Recursive descent. The fuel bounds the nesting and the number of
    elements; [parse] supplies twice the length of the text, beyond which
    more fuel changes nothing. *)
Fixpoint parseValue (fuel : nat) (s : jsstring) : option (json * jsstring) :=
  match fuel with
  | O => None
  | S f =>
      match skipWs s with
      | [] => None
      | c :: r =>
          if (c =? 123)%N then
            match expectChar 125 (skipWs r) with
            | Some r' => Some (JObj [], r')
            | None =>
                match parseMembers f r with
                | Some (ms, r') => Some (JObj (objectOf ms), r')
                | None => None
                end
            end
          else if (c =? 91)%N then
            match expectChar 93 (skipWs r) with
            | Some r' => Some (JArr [], r')
            | None =>
                match parseElements f r with
                | Some (vs, r') => Some (JArr vs, r')
                | None => None
                end
            end
          else if (c =? 34)%N then
            match parseStringBody r with
            | Some (str, r') => Some (JStr str, r')
            | None => None
            end
          else if (c =? 116)%N then
            match expect (JS.lit "rue") r with
            | Some r' => Some (JBool true, r')
            | None => None
            end
          else if (c =? 102)%N then
            match expect (JS.lit "alse") r with
            | Some r' => Some (JBool false, r')
            | None => None
            end
          else if (c =? 110)%N then
            match expect (JS.lit "ull") r with
            | Some r' => Some (JNull, r')
            | None => None
            end
          else
            match parseNumber (c :: r) with
            | Some (q, r') => Some (numberOf q, r')
            | None => None
            end
      end
  end
with parseElements (fuel : nat) (s : jsstring) : option (list json * jsstring) :=
  match fuel with
  | O => None
  | S f =>
      match parseValue f s with
      | None => None
      | Some (v, r) =>
          match expectChar 44 (skipWs r) with
          | Some r' =>
              match parseElements f r' with
              | Some (vs, r'') => Some (v :: vs, r'')
              | None => None
              end
          | None =>
              match expectChar 93 (skipWs r) with
              | Some r' => Some ([v], r')
              | None => None
              end
          end
      end
  end
with parseMembers (fuel : nat) (s : jsstring)
    : option (list (jsstring * json) * jsstring) :=
  match fuel with
  | O => None
  | S f =>
      match expectChar 34 (skipWs s) with
      | None => None
      | Some r =>
          match parseStringBody r with
          | None => None
          | Some (k, r1) =>
              match expectChar 58 (skipWs r1) with
              | None => None
              | Some r2 =>
                  match parseValue f r2 with
                  | None => None
                  | Some (v, r3) =>
                      match expectChar 44 (skipWs r3) with
                      | Some r4 =>
                          match parseMembers f r4 with
                          | Some (ms, r5) => Some ((k, v) :: ms, r5)
                          | None => None
                          end
                      | None =>
                          match expectChar 125 (skipWs r3) with
                          | Some r4 => Some ([(k, v)], r4)
                          | None => None
                          end
                      end
                  end
              end
          end
      end
  end.

(** [JSON.parse(s)] with no reviver; [None] is the [SyntaxError]. *)
Definition parse (s : jsstring) : option json :=
  match parseValue (S (2 * length s)) s with
  | Some (v, rest) =>
      match skipWs rest with
      | [] => Some v
      | _ :: _ => None
      end
  | None => None
  end.

End JSON.

(** ** The component *)

Record Todo := mkTodo {
  id : jsstring;
  text : jsstring;
  completed : bool;
  createdAt : Z
}.

(** The three values of the [filter] state. *)
Inductive Filter := FAll | FActive | FCompleted.

(** [generateId]: the clock in base 36 followed by what comes after
    ["0."] in the base-36 rendering of a random draw. *)
Definition generateId : M jsstring :=
  t ← Date_now;
  r ← Math_random_toString36;
  mret (JS.Number_toString 36 t ++ JS.substr 2 r).

Definition STORAGE_KEY : jsstring := JS.lit "notion-todo-items".

(** The [useState] cells of [App]. [editingId] is [None] for [null]. *)
Record AppState := mkApp {
  todos : list Todo;
  newTodo : jsstring;
  editingId : option jsstring;
  editText : jsstring;
  filter : Filter
}.

Definition setTodos (f : list Todo -> list Todo) (st : AppState) : AppState :=
  mkApp (f (todos st)) (newTodo st) (editingId st) (editText st) (filter st).

Definition setNewTodo (s : jsstring) (st : AppState) : AppState :=
  mkApp (todos st) s (editingId st) (editText st) (filter st).

Definition setEditingId (i : option jsstring) (st : AppState) : AppState :=
  mkApp (todos st) (newTodo st) i (editText st) (filter st).

Definition setEditText (s : jsstring) (st : AppState) : AppState :=
  mkApp (todos st) (newTodo st) (editingId st) s (filter st).

Definition setFilter (f : Filter) (st : AppState) : AppState :=
  mkApp (todos st) (newTodo st) (editingId st) (editText st) f.

(** [addTodo]: the submit handler of the add form. What it does to the
    page ([preventDefault], the focus) is not part of the state. *)
Definition addTodo (st : AppState) : M AppState :=
  let trimmed := JS.trim (newTodo st) in
  if negb (JS.truthy trimmed) then mret st
  else
    i ← generateId;
    now ← Date_now;
    let todo := mkTodo i trimmed false now in
    mret (setNewTodo [] (setTodos (fun prev => todo :: prev) st)).

Definition toggleTodo (i : jsstring) (st : AppState) : AppState :=
  setTodos (fun prev =>
    List.map (fun todo =>
      if JS.streq (id todo) i
      then mkTodo (id todo) (text todo) (negb (completed todo)) (createdAt todo)
      else todo) prev) st.

Definition deleteTodo (i : jsstring) (st : AppState) : AppState :=
  setTodos (fun prev => List.filter (fun todo => negb (JS.streq (id todo) i)) prev) st.

Definition startEditing (todo : Todo) (st : AppState) : AppState :=
  setEditText (text todo) (setEditingId (Some (id todo)) st).

(** [saveEdit]: the guard [!editingId] holds for [null] and for the empty
    string. *)
Definition saveEdit (st : AppState) : AppState :=
  match editingId st with
  | None => st
  | Some eid =>
      if negb (JS.truthy eid) then st
      else
        let trimmed := JS.trim (editText st) in
        let st1 :=
          if JS.truthy trimmed then
            setTodos (fun prev =>
              List.map (fun todo =>
                if JS.streq (id todo) eid
                then mkTodo (id todo) trimmed (completed todo) (createdAt todo)
                else todo) prev) st
          else st in
        setEditText [] (setEditingId None st1)
  end.

Definition cancelEdit (st : AppState) : AppState :=
  setEditText [] (setEditingId None st).

(** The keys [handleEditKeyDown] tells apart. *)
Inductive Key := Enter | Escape | OtherKey.

Definition handleEditKeyDown (k : Key) (st : AppState) : AppState :=
  match k with
  | Enter => saveEdit st
  | Escape => cancelEdit st
  | OtherKey => st
  end.

Definition clearCompleted (st : AppState) : AppState :=
  setTodos (fun prev => List.filter (fun todo => negb (completed todo)) prev) st.

(** [filteredTodos], computed at every render from the state. *)
Definition filteredTodos (st : AppState) : list Todo :=
  List.filter (fun todo =>
    match filter st with
    | FActive => negb (completed todo)
    | FCompleted => completed todo
    | FAll => true
    end) (todos st).

Definition activeCount (st : AppState) : nat :=
  length (List.filter (fun t => negb (completed t)) (todos st)).

Definition completedCount (st : AppState) : nat :=
  length (List.filter (fun t => completed t) (todos st)).

(** *** Persistence *)

(** A [Todo] as the JavaScript object it is, properties in the order the
    object literal of [addTodo] creates them (the spreads keep that order). *)
Definition jsTodo (t : Todo) : json :=
  JObj [ (JS.lit "id", JStr (id t));
         (JS.lit "text", JStr (text t));
         (JS.lit "completed", JBool (completed t));
         (JS.lit "createdAt", JNum (inject_Z (createdAt t))) ].

Definition jsTodos (ts : list Todo) : json := JArr (List.map jsTodo ts).

(** The same object with any value as its [createdAt]: the type [number]
    of the interface also holds [NaN] and the infinities. *)
Definition jsTask (i t : jsstring) (c : bool) (n : json) : json :=
  JObj [ (JS.lit "id", JStr i);
         (JS.lit "text", JStr t);
         (JS.lit "completed", JBool c);
         (JS.lit "createdAt", n) ].

(** The initialiser of the [todos] state: what is under [STORAGE_KEY],
    parsed, or the empty array when nothing truthy is stored or the parse
    throws. The value is used as it comes; nothing checks its shape. *)
Definition initialTodos : M json :=
  saved ← getItem STORAGE_KEY;
  match saved with
  | Some s =>
      if JS.truthy s then
        match JSON.parse s with
        | Some v => mret v
        | None => mret (JArr [])
        end
      else mret (JArr [])
  | None => mret (JArr [])
  end.

(** A task whose timestamp is a safe integer, as every clock reading is. *)
Definition validTodo (t : Todo) : Prop :=
  - JS.MAX_SAFE_INTEGER <= createdAt t <= JS.MAX_SAFE_INTEGER.

(** The effect that runs after every change of [todos], on the value the
    cell holds. [JSON.stringify] gives a text for every value made of
    JavaScript numbers; the [None] branch is only there for a rational that is
    no binary64. *)
Definition persistValue (v : json) : M unit :=
  match JSON.stringify v with
  | Some s => setItem STORAGE_KEY s
  | None => mret tt
  end.

Definition persist (ts : list Todo) : M unit := persistValue (jsTodos ts).

(** *** Events of the page *)

(** What the user can do, one constructor per handler bound in the JSX: the
    add input and its form, the filter tabs, and for a rendered task its
    checkbox, its text, its edit button, its edit input (change, blur, key)
    and its delete buttons; last the clear-completed button. *)
Inductive Event :=
  | ChangeNewTodo (value : jsstring)
  | SubmitForm
  | ClickFilter (f : Filter)
  | ClickCheckbox (todo : Todo)
  | ClickText (todo : Todo)
  | ClickEdit (todo : Todo)
  | ChangeEditText (value : jsstring)
  | BlurEdit
  | KeyDownEdit (k : Key)
  | ClickDelete (todo : Todo)
  | ClickClearCompleted.

(** The handler each event runs. The text of a task starts an edit only
    when the task is not completed ([!todo.completed && startEditing(todo)]). *)
Definition handle (ev : Event) (st : AppState) : M AppState :=
  match ev with
  | ChangeNewTodo value => mret (setNewTodo value st)
  | SubmitForm => addTodo st
  | ClickFilter f => mret (setFilter f st)
  | ClickCheckbox todo => mret (toggleTodo (id todo) st)
  | ClickText todo => mret (if negb (completed todo) then startEditing todo st else st)
  | ClickEdit todo => mret (startEditing todo st)
  | ChangeEditText value => mret (setEditText value st)
  | BlurEdit => mret (saveEdit st)
  | KeyDownEdit k => mret (handleEditKeyDown k st)
  | ClickDelete todo => mret (deleteTodo (id todo) st)
  | ClickClearCompleted => mret (clearCompleted st)
  end.

(** Whether [saveEdit] reaches its [setTodos]. *)
Definition saveEditSetsTodos (st : AppState) : bool :=
  match editingId st with
  | None => false
  | Some eid => JS.truthy eid && JS.truthy (JS.trim (editText st))
  end.

(** Whether the handler of the event calls [setTodos]. Each call passes an
    updater that builds a new array, so the [todos] cell changes and the
    persistence effect, whose dependency it is, runs after the render. *)
Definition callsSetTodos (ev : Event) (st : AppState) : bool :=
  match ev with
  | SubmitForm => JS.truthy (JS.trim (newTodo st))
  | ClickCheckbox _ | ClickDelete _ | ClickClearCompleted => true
  | BlurEdit | KeyDownEdit Enter => saveEditSetsTodos st
  | _ => false
  end.

(** An event, then the effects of the render it causes. *)
Definition dispatch (ev : Event) (st : AppState) : M AppState :=
  st' ← handle ev st;
  if callsSetTodos ev st then _ ← persist (todos st'); mret st' else mret st'.

Fixpoint session (evs : list Event) (st : AppState) : M AppState :=
  match evs with
  | [] => mret st
  | ev :: evs' => st' ← dispatch ev st; session evs' st'
  end.

(** The state of the first render, [ts] being the list the initialiser of
    [todos] gave, and the first render with its effect. *)
Definition initialState (ts : list Todo) : AppState := mkApp ts [] None [] FAll.

Definition firstRender (ts : list Todo) : M AppState :=
  _ ← persist ts; mret (initialState ts).

(** *** The view *)

(** Every render starts with [todos.filter(...)] (lines 110, 116 and 117).
    Of the values [JSON.parse] returns only an array has a [filter] method: on
    [null] reading the property raises a TypeError, on any other value the call
    does, and the page is not rendered. *)
Definition hasFilterMethod (v : json) : bool :=
  match v with
  | JArr _ => true
  | _ => false
  end.

(** The conditions under which the parts of the page are rendered. *)
Definition showFilterTabs (st : AppState) : bool := Nat.ltb 0 (length (todos st)).

Definition showNoMatches (st : AppState) : bool :=
  Nat.eqb (length (filteredTodos st)) 0 && Nat.ltb 0 (length (todos st)).

Definition showEmptyState (st : AppState) : bool := Nat.eqb (length (todos st)) 0.

Definition showFooter (st : AppState) : bool := Nat.ltb 0 (completedCount st).

(** [editingId === todo.id]: the task is shown as an input. *)
Definition showEditInput (st : AppState) (todo : Todo) : bool :=
  match editingId st with
  | Some eid => JS.streq eid (id todo)
  | None => false
  end.

Definition showEditButton (st : AppState) (todo : Todo) : bool :=
  negb (completed todo) && negb (showEditInput st todo).

(** The line under the title; the two code units after the text are the
    party popper. A count is printed in decimal. *)
Definition headerText (st : AppState) : jsstring :=
  if Nat.eqb (activeCount st) 0
  then JS.lit "All tasks completed! " ++ [55356%N; 57225%N]
  else JS.Number_toString 10 (Z.of_nat (activeCount st)) ++ JS.lit " task"
       ++ (if Nat.eqb (activeCount st) 1 then [] else JS.lit "s")
       ++ JS.lit " remaining".

(** ** Relations used in the statements *)

(** [m] is an interleaving of [l] and [r]: both keep their order in [m] and
    every position of [m] comes from exactly one of them. *)
Inductive interleave {A : Type} : list A -> list A -> list A -> Prop :=
  | interleave_nil : interleave [] [] []
  | interleave_left x l r m : interleave l r m -> interleave (x :: l) r (x :: m)
  | interleave_right x l r m : interleave l r m -> interleave l (x :: r) (x :: m).

(** ** Vocabulary of the statements *)

(** A string [trim] empties: nothing but white space and line terminators. *)
Definition blank (s : jsstring) : Prop := Forall (fun c => JS.isTrimmed c = true) s.

(** A task with its [completed] flag negated, and a task with a new text. *)
Definition flipped (t : Todo) : Todo :=
  mkTodo (id t) (text t) (negb (completed t)) (createdAt t).

Definition retexted (s : jsstring) (t : Todo) : Todo :=
  mkTodo (id t) s (completed t) (createdAt t).

(** The edit of the spec, as the claim reads it on every state: whenever a
    task of the list is the one being edited and the edited text does not trim
    to nothing, saving leaves a task with that id and the trimmed text. *)
Definition edit_replaces_in_every_state : Prop :=
  forall (st : AppState) (t : Todo),
    In t (todos st) ->
    editingId st = Some (id t) ->
    JS.trim (editText st) <> [] ->
    In (retexted (JS.trim (editText st)) t) (todos (saveEdit st)).

(** The value of a digit character, and of a digit string. *)
Definition digitVal (c : N) : Z :=
  if (c <=? 57)%N then Z.of_N c - 48 else Z.of_N c - 87.

Definition valueOf (radix : Z) (ds : jsstring) : Z :=
  List.fold_left (fun a c => a * radix + digitVal c) ds 0.

Definition isDigitOf (radix : Z) (c : N) : Prop :=
  exists d, 0 <= d < radix /\ c = JS.digitChar d.

(** What a run of [digitsAux] with enough fuel prepends to its accumulator:
    the digits of [n] in radix [r], with no leading zero. *)
Record rendering (r n : Z) (D : jsstring) : Prop := {
  rendering_digits : Forall (isDigitOf r) D;
  rendering_value : valueOf r D = n;
  rendering_nonempty : D <> [];
  rendering_leading : n <> 0 -> forall c D', D = c :: D' -> c <> 48%N;
  rendering_lower : n <> 0 -> r ^ (Z.of_nat (length D) - 1) <= n;
  rendering_upper : n < r ^ Z.of_nat (length D)
}.

(** The clock reading and the fraction digits a call of [generateId] in
    world [w] is made of. *)
Definition stamp (w : World) : Z := clock w (ticks w).
Definition fraction (w : World) : jsstring := JS.substr 2 (entropy w (draws w)).

(** Uniqueness as the claim reads it: a call and the next one never return
    the same string, whatever the clock and the draws. *)
Definition generateId_never_repeats : Prop :=
  forall w : World, run generateId w <> run generateId (exec generateId w).

(** What may follow a number for the number to end there: nothing, or a
    character that is no digit, no dot and no exponent mark. *)
Definition endsNumber (rest : jsstring) : Prop :=
  match rest with
  | [] => True
  | c :: _ =>
      JSON.isDigit c = false /\ (c =? 46)%N = false /\ ((c =? 101) || (c =? 69))%N = false
  end.

(** The text of one task followed by [rest]: the four properties in order,
    no white space. 58 is the colon, 44 the comma, 123 and 125 the braces. *)
Definition todoText (t : Todo) (rest : jsstring) : jsstring :=
  123%N :: JSON.quote (JS.lit "id") ++ 58%N :: JSON.quote (id t) ++ 44%N ::
  JSON.quote (JS.lit "text") ++ 58%N :: JSON.quote (text t) ++ 44%N ::
  JSON.quote (JS.lit "completed") ++ 58%N ::
  JS.lit (if completed t then "true" else "false") ++ 44%N ::
  JSON.quote (JS.lit "createdAt") ++ 58%N ::
  JS.Number_toString 10 (createdAt t) ++ 125%N :: rest.

(** The texts of the tasks, separated by commas, followed by [rest]. *)
Fixpoint todosText (ts : list Todo) (rest : jsstring) : jsstring :=
  match ts with
  | [] => rest
  | t :: ts' =>
      match ts' with
      | [] => todoText t rest
      | _ :: _ => todoText t (44%N :: todosText ts' rest)
      end
  end.

(** The id of the new task as the claim reads it, freshly generated: none
    of the ids of the list the task is added to. *)
Definition addTodo_id_is_fresh : Prop :=
  forall (st : AppState) (w : World),
    JS.trim (newTodo st) <> [] ->
    ~ In (run generateId w) (List.map id (todos st)).

(** A number, finite or not; a finite one is a binary64. *)
Definition isNumber (n : json) : Prop :=
  match n with
  | JNum q => Binary64.round q = Some q
  | JNonFinite _ => True
  | _ => False
  end.

(** A valid collection as the claim reads it: an array of tasks, each with
    a string id, a string text, a boolean flag and a number as timestamp. *)
Definition isTaskList (v : json) : Prop :=
  exists tasks : list json,
    v = JArr tasks /\
    Forall (fun task => exists i t c n, isNumber n /\ task = jsTask i t c n) tasks.

(** A valid collection whose timestamps are all finite. *)
Definition isFiniteTaskList (v : json) : Prop :=
  exists tasks : list json,
    v = JArr tasks /\
    Forall (fun task => exists i t c q,
              Binary64.round q = Some q /\ task = jsTask i t c (JNum q)) tasks.


(** The text of a task whose timestamp is written [n], followed by [rest]. *)
Definition taskText (i t : jsstring) (c : bool) (n rest : jsstring) : jsstring :=
  123%N :: JSON.quote (JS.lit "id") ++ 58%N :: JSON.quote i ++ 44%N ::
  JSON.quote (JS.lit "text") ++ 58%N :: JSON.quote t ++ 44%N ::
  JSON.quote (JS.lit "completed") ++ 58%N ::
  JS.lit (if c then "true" else "false") ++ 44%N ::
  JSON.quote (JS.lit "createdAt") ++ 58%N :: n ++ 125%N :: rest.

(** The claim on every stored text: when the text under [STORAGE_KEY] is not
    the text of a list of tasks, the initial list is empty. *)
Definition load_rejects_what_is_no_task_list : Prop :=
  forall (w : World) (blob : jsstring),
    localStorage w !! STORAGE_KEY = Some blob ->
    (forall ts, JSON.parse blob <> Some (jsTodos ts)) ->
    run initialTodos w = JArr [].

(** Two tasks that share the id [a], and a stored text that holds both. *)
Definition twin1 : Todo := mkTodo (JS.lit "a") (JS.lit "x") false 1.
Definition twin2 : Todo := mkTodo (JS.lit "a") (JS.lit "y") true 2.
Definition other : Todo := mkTodo (JS.lit "b") (JS.lit "z") false 3.

Definition twinsBlob : jsstring :=
  Eval vm_compute in (91%N :: todosText [twin1; other; twin2] [93%N]).

Definition twinsWorld : World :=
  mkWorld (fun _ => 0) 0 (fun _ => []) 0 {[ STORAGE_KEY := twinsBlob ]}.

(** How a handler can change the list and the world: not at all, by a
    filter, by negating the flag of the tasks with an id, by putting a trimmed
    non-empty text in the tasks with an id (the world staying as it is in these
    four), or by a new task in front, made of an id and of the clock reading
    that follows, the world having given two clock readings and one draw. *)
Inductive change (w : World) (ts : list Todo) : World -> list Todo -> Prop :=
  | change_none : change w ts w ts
  | change_filter (p : Todo -> bool) : change w ts w (List.filter p ts)
  | change_flip (i : jsstring) :
      change w ts w (List.map (fun t => if JS.streq (id t) i then flipped t else t) ts)
  | change_text (i s : jsstring) :
      s <> [] -> JS.trim s = s ->
      change w ts w (List.map (fun t => if JS.streq (id t) i then retexted s t else t) ts)
  | change_add (s : jsstring) :
      s <> [] -> JS.trim s = s ->
      change w ts
        (mkWorld (clock w) (S (S (ticks w))) (entropy w) (S (draws w)) (localStorage w))
        (mkTodo (run generateId w) s false (clock w (S (ticks w))) :: ts).

(** A stored text that is not empty and has no blank at either end. *)
Definition textOk (t : Todo) : Prop := text t <> [] /\ JS.trim (text t) = text t.

(** Newest first: no task is older than one that follows it. *)
Definition newestFirst (ts : list Todo) : Prop :=
  StronglySorted (fun a b => createdAt b <= createdAt a) ts.

(** A clock that never goes back, and one that only shows safe integers. *)
Definition monotoneClock (w : World) : Prop :=
  forall n m, (n <= m)%nat -> clock w n <= clock w m.

Definition safeClock (w : World) : Prop :=
  forall n, - JS.MAX_SAFE_INTEGER <= clock w n <= JS.MAX_SAFE_INTEGER.

(** The storage holds the current list: what a session keeps at every step. *)
Definition synced (st : AppState) (w : World) : Prop :=
  Forall validTodo (todos st) /\ safeClock w /\
  localStorage w !! STORAGE_KEY = JSON.stringify (jsTodos (todos st)).

(** Sorted newest first, with no task dated after the next clock reading. *)
Definition dated (st : AppState) (w : World) : Prop :=
  monotoneClock w /\ newestFirst (todos st) /\
  Forall (fun t => createdAt t <= clock w (ticks w)) (todos st).

(** The test [filteredTodos] applies under a filter. *)
Definition passes (f : Filter) (todo : Todo) : bool :=
  match f with
  | FActive => negb (completed todo)
  | FCompleted => completed todo
  | FAll => true
  end.

(** The header for a count of active tasks. *)
Definition headerFor (n : nat) : jsstring :=
  if Nat.eqb n 0
  then JS.lit "All tasks completed! " ++ [55356%N; 57225%N]
  else JS.Number_toString 10 (Z.of_nat n) ++ JS.lit " task"
       ++ (if Nat.eqb n 1 then [] else JS.lit "s") ++ JS.lit " remaining".

(** * Properties *)

(** ** [trim] *)

Lemma trimStart_split (s : jsstring) :
  exists pre, s = pre ++ JS.trimStart s /\ blank pre.
Proof.
  induction s as [|c s IH]; simpl.
  - exists []. split; [reflexivity | constructor].
  - destruct (JS.isTrimmed c) eqn:Hc.
    + destruct IH as (pre & Hs & Hpre). exists (c :: pre). split.
      * simpl. congruence.
      * constructor; assumption.
    + exists []. split; [reflexivity | constructor].
Qed.

Lemma trimStart_head (s : jsstring) (c : N) (r : jsstring) :
  JS.trimStart s = c :: r -> JS.isTrimmed c = false.
Proof.
  induction s as [|d s IH]; simpl; [discriminate|].
  destruct (JS.isTrimmed d) eqn:Hd; [assumption|].
  intros [= <- <-]. assumption.
Qed.

Lemma trimStart_nil_iff (s : jsstring) : JS.trimStart s = [] <-> blank s.
Proof.
  split.
  - intros H. destruct (trimStart_split s) as (pre & Hs & Hpre).
    rewrite H, app_nil_r in Hs. subst. assumption.
  - induction 1 as [|c s Hc _ IH]; simpl; [reflexivity|].
    rewrite Hc. assumption.
Qed.

Lemma trimStart_fixed (s : jsstring) (c : N) (r : jsstring) :
  s = c :: r -> JS.isTrimmed c = false -> JS.trimStart s = s.
Proof. intros -> Hc. simpl. rewrite Hc. reflexivity. Qed.

Lemma trimEnd_split (s : jsstring) :
  exists post, s = JS.trimEnd s ++ post /\ blank post.
Proof.
  unfold JS.trimEnd.
  destruct (trimStart_split (List.rev s)) as (pre & Hs & Hpre).
  exists (List.rev pre). split.
  - rewrite <- List.rev_app_distr, <- Hs, List.rev_involutive. reflexivity.
  - apply List.Forall_rev. assumption.
Qed.

Lemma trimEnd_nil_iff (s : jsstring) : JS.trimEnd s = [] <-> blank s.
Proof.
  unfold JS.trimEnd. split.
  - intros H. apply (f_equal (@List.rev N)) in H.
    rewrite List.rev_involutive in H. simpl in H.
    apply trimStart_nil_iff in H. apply List.Forall_rev in H.
    rewrite List.rev_involutive in H. assumption.
  - intros H. apply List.Forall_rev in H. apply trimStart_nil_iff in H.
    rewrite H. reflexivity.
Qed.

Lemma trim_split (s : jsstring) :
  exists pre post, s = pre ++ JS.trim s ++ post /\ blank pre /\ blank post.
Proof.
  unfold JS.trim.
  destruct (trimStart_split s) as (pre & Hs & Hpre).
  destruct (trimEnd_split (JS.trimStart s)) as (post & Ht & Hpost).
  exists pre, post. split; [|split; assumption].
  rewrite <- Ht. assumption.
Qed.

Lemma trim_nil_iff (s : jsstring) : JS.trim s = [] <-> blank s.
Proof.
  split.
  - intros H. destruct (trim_split s) as (pre & post & Hs & Hpre & Hpost).
    rewrite H in Hs. simpl in Hs. subst s. apply Forall_app. split; assumption.
  - intros H. unfold JS.trim. apply trimStart_nil_iff in H. rewrite H. reflexivity.
Qed.

(** The first character of a trimmed string is not blank. *)
Lemma trim_head (s : jsstring) (c : N) (r : jsstring) :
  JS.trim s = c :: r -> JS.isTrimmed c = false.
Proof.
  unfold JS.trim. intros H.
  destruct (JS.trimStart s) as [|d t] eqn:Hst.
  - discriminate H.
  - pose proof (trimStart_head _ _ _ Hst) as Hd.
    destruct (trimEnd_split (d :: t)) as (post & Hsplit & _).
    rewrite H in Hsplit. simpl in Hsplit. injection Hsplit as -> _. assumption.
Qed.

(** The last character of a trimmed string is not blank. *)
Lemma trim_last (s : jsstring) (r : jsstring) (c : N) :
  JS.trim s = r ++ [c] -> JS.isTrimmed c = false.
Proof.
  unfold JS.trim, JS.trimEnd. intros H.
  apply (f_equal (@List.rev N)) in H.
  rewrite List.rev_involutive, List.rev_app_distr in H. simpl in H.
  eapply trimStart_head. exact H.
Qed.

Lemma truthy_false_iff (s : jsstring) : JS.truthy s = false <-> s = [].
Proof. destruct s; simpl; split; congruence. Qed.

Lemma truthy_true_iff (s : jsstring) : JS.truthy s = true <-> s <> [].
Proof. destruct s; simpl; split; congruence. Qed.

(** ** Digits of an integer *)

Lemma digitVal_digitChar (d : Z) : 0 <= d < 36 -> digitVal (JS.digitChar d) = d.
Proof.
  intros Hd. unfold digitVal, JS.digitChar.
  destruct (d <? 10) eqn:E.
  - apply Z.ltb_lt in E.
    assert ((Z.to_N (48 + d) <=? 57)%N = true) as -> by (apply N.leb_le; lia).
    lia.
  - apply Z.ltb_ge in E.
    assert ((Z.to_N (87 + d) <=? 57)%N = false) as -> by (apply N.leb_gt; lia).
    lia.
Qed.

Lemma digitChar_zero (d : Z) : 0 <= d < 36 -> JS.digitChar d = 48%N -> d = 0.
Proof.
  intros Hd. unfold JS.digitChar. destruct (d <? 10) eqn:E; intros H.
  - apply Z.ltb_lt in E. lia.
  - apply Z.ltb_ge in E. lia.
Qed.

Lemma digitChar_not_minus (d : Z) : 0 <= d -> JS.digitChar d <> 45%N.
Proof.
  intros Hd. unfold JS.digitChar. destruct (d <? 10); lia.
Qed.

Lemma valueOf_snoc (r : Z) (ds : jsstring) (c : N) :
  valueOf r (ds ++ [c]) = valueOf r ds * r + digitVal c.
Proof. unfold valueOf. rewrite List.fold_left_app. reflexivity. Qed.

Section Digits.
Variable r : Z.
Hypothesis Hr : 2 <= r <= 36.

Lemma rendering_one (n : Z) : 0 <= n < r -> rendering r n [JS.digitChar n].
Proof.
  intros Hn. split.
  - constructor; [|constructor]. exists n. split; [lia | reflexivity].
  - unfold valueOf. simpl. rewrite digitVal_digitChar; lia.
  - discriminate.
  - intros Hn0 c D' [= <- <-] Hc. apply digitChar_zero in Hc; lia.
  - intros Hn0. change (Z.of_nat (length [JS.digitChar n]) - 1) with 0.
    rewrite Z.pow_0_r. lia.
  - change (Z.of_nat (length [JS.digitChar n])) with 1. rewrite Z.pow_1_r. lia.
Qed.

Lemma rendering_snoc (n : Z) (D : jsstring) :
  0 <= n -> n / r <> 0 -> rendering r (n / r) D ->
  rendering r n (D ++ [JS.digitChar (n mod r)]).
Proof.
  intros Hn Hq [Hd Hv Hne Hlead Hlo Hup].
  assert (0 <= n mod r < r) as Hm by (apply Z.mod_pos_bound; lia).
  assert (n = r * (n / r) + n mod r) as Hdiv by (apply Z.div_mod; lia).
  assert (0 < n / r) as Hq'.
  { assert (0 <= n / r) by (apply Z.div_pos; lia). lia. }
  split.
  - apply Forall_app. split; [exact Hd|].
    constructor; [|constructor]. exists (n mod r). split; [lia | reflexivity].
  - rewrite valueOf_snoc, Hv, digitVal_digitChar; lia.
  - destruct D; discriminate.
  - intros _ c D' HD. destruct D as [|c0 D0]; [congruence|].
    simpl in HD. injection HD as <- _. apply (Hlead Hq c0 D0 eq_refl).
  - intros _. rewrite length_app. simpl.
    replace (Z.of_nat (length D + 1) - 1) with (Z.succ (Z.of_nat (length D) - 1)) by lia.
    assert (0 <= Z.of_nat (length D) - 1).
    { destruct D; [congruence | simpl; lia]. }
    rewrite Z.pow_succ_r by assumption.
    specialize (Hlo Hq). nia.
  - rewrite length_app. simpl.
    replace (Z.of_nat (length D + 1)) with (Z.succ (Z.of_nat (length D))) by lia.
    rewrite Z.pow_succ_r by lia. nia.
Qed.

Lemma digitsAux_rendering (f : nat) :
  forall n acc, 0 <= n < r ^ Z.of_nat (S f) ->
  exists D, JS.digitsAux r (S f) n acc = D ++ acc /\ rendering r n D.
Proof.
  induction f as [|f IH]; intros n acc Hn.
  - assert (n < r) as Hlt by (change (Z.of_nat 1) with 1 in Hn; lia).
    exists [JS.digitChar n]. split.
    + simpl. rewrite Z.mod_small by lia. destruct (n / r =? 0); reflexivity.
    + apply rendering_one. lia.
  - change (JS.digitsAux r (S (S f)) n acc) with
      (if n / r =? 0 then JS.digitChar (n mod r) :: acc
       else JS.digitsAux r (S f) (n / r) (JS.digitChar (n mod r) :: acc)).
    destruct (n / r =? 0) eqn:E.
    + apply Z.eqb_eq in E.
      assert (n < r) as Hlt.
      { apply Z.div_small_iff in E; lia. }
      exists [JS.digitChar n]. split.
      * rewrite Z.mod_small by lia. reflexivity.
      * apply rendering_one. lia.
    + apply Z.eqb_neq in E.
      destruct (IH (n / r) (JS.digitChar (n mod r) :: acc)) as (D & HD & Hren).
      { split; [apply Z.div_pos; lia|].
        apply Z.div_lt_upper_bound; [lia|].
        rewrite <- Z.pow_succ_r by lia.
        replace (Z.succ (Z.of_nat (S f))) with (Z.of_nat (S (S f))) by lia. lia. }
      exists (D ++ [JS.digitChar (n mod r)]). split.
      * rewrite HD, <- List.app_assoc. reflexivity.
      * apply rendering_snoc; [lia | exact E | exact Hren].
Qed.

Lemma digits_rendering (n : Z) : 0 <= n -> rendering r n (JS.digits r n).
Proof.
  intros Hn. unfold JS.digits.
  destruct (digitsAux_rendering (Z.to_nat (Z.log2 n)) n []) as (D & HD & Hren).
  - split; [exact Hn|].
    destruct (Z.eq_dec n 0) as [->|Hn0].
    + simpl. lia.
    + assert (n < 2 ^ Z.succ (Z.log2 n)) by (apply Z.log2_spec; lia).
      assert (0 <= Z.log2 n) by apply Z.log2_nonneg.
      replace (Z.of_nat (S (Z.to_nat (Z.log2 n)))) with (Z.succ (Z.log2 n)) by lia.
      assert (2 ^ Z.succ (Z.log2 n) <= r ^ Z.succ (Z.log2 n)).
      { apply Z.pow_le_mono_l. lia. }
      lia.
  - rewrite HD, List.app_nil_r. exact Hren.
Qed.

Lemma digits_inj (a b : Z) : 0 <= a -> 0 <= b -> JS.digits r a = JS.digits r b -> a = b.
Proof.
  intros Ha Hb E.
  rewrite <- (rendering_value _ _ _ (digits_rendering a Ha)).
  rewrite <- (rendering_value _ _ _ (digits_rendering b Hb)).
  rewrite E. reflexivity.
Qed.

Lemma digits_head (n : Z) :
  0 <= n -> exists c D, JS.digits r n = c :: D /\ c <> 45%N.
Proof.
  intros Hn. destruct (digits_rendering n Hn) as [Hd _ Hne _ _ _].
  destruct (JS.digits r n) as [|c D]; [congruence|].
  exists c, D. split; [reflexivity|].
  apply Forall_cons in Hd. destruct Hd as [(d & Hdr & ->) _].
  apply digitChar_not_minus. lia.
Qed.

(** [n.toString(radix)] determines the integer [n]. *)
Lemma Number_toString_inj (a b : Z) :
  JS.Number_toString r a = JS.Number_toString r b -> a = b.
Proof.
  unfold JS.Number_toString.
  destruct (a <? 0) eqn:Ea, (b <? 0) eqn:Eb; intros E.
  - apply Z.ltb_lt in Ea, Eb. injection E as E.
    apply digits_inj in E; lia.
  - apply Z.ltb_lt in Ea. apply Z.ltb_ge in Eb.
    destruct (digits_head b Eb) as (c & D & HD & Hc).
    rewrite HD in E. congruence.
  - apply Z.ltb_ge in Ea. apply Z.ltb_lt in Eb.
    destruct (digits_head a Ea) as (c & D & HD & Hc).
    rewrite HD in E. congruence.
  - apply Z.ltb_ge in Ea, Eb. apply digits_inj; assumption.
Qed.

(** The number of digits of a positive integer is fixed by the powers of
    the radix it lies between. *)
Lemma digits_length (n : Z) (k : nat) :
  r ^ Z.of_nat k <= n < r ^ Z.of_nat (S k) -> length (JS.digits r n) = S k.
Proof.
  intros [Hlo Hhi].
  assert (0 < r ^ Z.of_nat k) as Hpos by (apply Z.pow_pos_nonneg; lia).
  assert (0 <= n) as Hn by lia.
  destruct (digits_rendering n Hn) as [_ _ Hne _ Hlow Hup].
  assert (n <> 0) as Hn0 by lia. specialize (Hlow Hn0).
  set (len := length (JS.digits r n)) in *.
  assert (len <> 0%nat) by (unfold len; destruct (JS.digits r n); simpl; congruence).
  assert (Z.of_nat len - 1 < Z.of_nat (S k)).
  { apply (Z.pow_lt_mono_r_iff r); lia. }
  assert (Z.of_nat k < Z.of_nat len).
  { apply (Z.pow_lt_mono_r_iff r); lia. }
  lia.
Qed.
End Digits.

Lemma Number_toString_nonempty (r z : Z) : 2 <= r <= 36 -> JS.Number_toString r z <> [].
Proof.
  intros Hr. unfold JS.Number_toString. destruct (z <? 0) eqn:E; [discriminate|].
  apply Z.ltb_ge in E. destruct (digits_head r Hr z E) as (c & D & -> & _). discriminate.
Qed.

(** ** Toggling, deleting and editing by id *)

Lemma streq_true_iff (a b : jsstring) : JS.streq a b = true <-> a = b.
Proof. unfold JS.streq. apply bool_decide_eq_true. Qed.

Lemma streq_false_iff (a b : jsstring) : JS.streq a b = false <-> a <> b.
Proof. unfold JS.streq. apply bool_decide_eq_false. Qed.

Lemma app_eta (st : AppState) :
  mkApp (todos st) (newTodo st) (editingId st) (editText st) (filter st) = st.
Proof. destruct st; reflexivity. Qed.

Lemma todo_eta (t : Todo) :
  mkTodo (id t) (text t) (completed t) (createdAt t) = t.
Proof. destruct t; reflexivity. Qed.

Lemma flipped_involutive (t : Todo) : flipped (flipped t) = t.
Proof. destruct t; unfold flipped; simpl. rewrite negb_involutive. reflexivity. Qed.

(** A map that only touches the tasks whose id is [i] is the identity on a
    list where no task has that id. *)
Lemma map_on_id_absent (f : Todo -> Todo) (i : jsstring) (l : list Todo) :
  Forall (fun t => id t <> i) l ->
  List.map (fun t => if JS.streq (id t) i then f t else t) l = l.
Proof.
  induction 1 as [|t l Ht _ IH]; simpl; [reflexivity|].
  apply streq_false_iff in Ht. rewrite Ht, IH. reflexivity.
Qed.

Lemma filter_id_absent (i : jsstring) (l : list Todo) :
  Forall (fun t => id t <> i) l ->
  List.filter (fun t => negb (JS.streq (id t) i)) l = l.
Proof.
  induction 1 as [|t l Ht _ IH]; simpl; [reflexivity|].
  apply streq_false_iff in Ht. rewrite Ht, IH. reflexivity.
Qed.

Lemma filter_id_gone (i : jsstring) (l : list Todo) :
  Forall (fun t => id t <> i) (List.filter (fun t => negb (JS.streq (id t) i)) l).
Proof.
  induction l as [|t l IH]; simpl; [constructor|].
  destruct (JS.streq (id t) i) eqn:E; simpl; [assumption|].
  constructor; [apply streq_false_iff; assumption | assumption].
Qed.

(** With unique ids, a map that only touches the tasks whose id is that of
    [t] changes the one position where [t] is. *)
Lemma map_on_id_unique (f : Todo -> Todo) (l1 l2 : list Todo) (t : Todo) :
  NoDup (List.map id (l1 ++ t :: l2)) ->
  List.map (fun u => if JS.streq (id u) (id t) then f u else u) (l1 ++ t :: l2)
  = l1 ++ f t :: l2.
Proof.
  rewrite List.map_app. simpl. intros Hnd.
  apply NoDup_app in Hnd. destruct Hnd as (_ & Hdisj & Hnd2).
  apply NoDup_cons in Hnd2. destruct Hnd2 as (Hnot & _).
  rewrite List.map_app. simpl.
  assert (JS.streq (id t) (id t) = true) as -> by (apply streq_true_iff; reflexivity).
  f_equal; [|f_equal]; apply map_on_id_absent; apply Forall_forall; intros u Hu Heq.
  - apply (Hdisj (id u)).
    + apply list_elem_of_In, List.in_map, list_elem_of_In. exact Hu.
    + rewrite Heq. left.
  - apply Hnot. rewrite <- Heq.
    apply list_elem_of_In, List.in_map, list_elem_of_In. exact Hu.
Qed.

(** C7. Toggling the same id twice gives back the state one started from,
    whatever the list holds; one toggle keeps the length and the order, leaves
    every task with another id as it is, and changes nothing but the
    [completed] flag, which it negates, in a task with that id. The other
    cells of the state are not touched. *)
Theorem toggleTodo_twice (st : AppState) (i : jsstring) :
  toggleTodo i (toggleTodo i st) = st /\
  Forall2 (fun t t' =>
             id t' = id t /\ text t' = text t /\ createdAt t' = createdAt t /\
             completed t' = (if JS.streq (id t) i then negb (completed t)
                             else completed t))
          (todos st) (todos (toggleTodo i st)) /\
  newTodo (toggleTodo i st) = newTodo st /\
  editingId (toggleTodo i st) = editingId st /\
  editText (toggleTodo i st) = editText st /\
  filter (toggleTodo i st) = filter st.
Proof.
  split; [|split; [|repeat split]].
  - destruct st as [ts n e x f]. unfold toggleTodo, setTodos. simpl. f_equal.
    rewrite List.map_map.
    induction ts as [|t ts IH]; simpl; [reflexivity|]. rewrite IH. f_equal.
    destruct (JS.streq (id t) i) eqn:E; simpl; rewrite E; [|reflexivity].
    rewrite negb_involutive. apply todo_eta.
  - unfold toggleTodo, setTodos. simpl.
    induction (todos st) as [|t ts IH]; simpl; constructor; [|exact IH].
    destruct (JS.streq (id t) i); simpl; repeat split; reflexivity.
Qed.

Lemma toggleTodo_twice_witness :
  let a := mkTodo (JS.lit "a") (JS.lit "one") false 1 in
  let b := mkTodo (JS.lit "b") (JS.lit "two") true 2 in
  let st := mkApp [a; b] (JS.lit "draft") None [] FActive in
  todos (toggleTodo (JS.lit "b") st) = [a; mkTodo (JS.lit "b") (JS.lit "two") false 2] /\
  toggleTodo (JS.lit "b") (toggleTodo (JS.lit "b") st) = st.
Proof.
  intros a b st. split; [reflexivity|].
  destruct (toggleTodo_twice st (JS.lit "b")) as [H _]. exact H.
Defined.

(** C8. The handlers are functions of the state, defined on every input.
    When no task has the id, [toggleTodo] and [deleteTodo] give back the state
    they got, and [saveEdit] with that id as [editingId] leaves the list as it
    is, whatever the edited text. Deleting an id a second time changes nothing
    more. *)
Theorem absent_id_noop (st : AppState) (i : jsstring) :
  (Forall (fun t => id t <> i) (todos st) ->
     toggleTodo i st = st /\
     deleteTodo i st = st /\
     forall txt, todos (saveEdit (setEditText txt (setEditingId (Some i) st)))
                 = todos st) /\
  deleteTodo i (deleteTodo i st) = deleteTodo i st.
Proof.
  split.
  - intros Habs. split; [|split].
    + unfold toggleTodo, setTodos. rewrite (map_on_id_absent _ i _ Habs). apply app_eta.
    + unfold deleteTodo, setTodos. rewrite (filter_id_absent i _ Habs). apply app_eta.
    + intros txt. unfold saveEdit. simpl.
      destruct (JS.truthy i); simpl; [|reflexivity].
      destruct (JS.truthy (JS.trim txt)); simpl; [|reflexivity].
      apply (map_on_id_absent _ i _ Habs).
  - unfold deleteTodo, setTodos. simpl. f_equal.
    apply filter_id_absent, filter_id_gone.
Qed.

Lemma absent_id_noop_witness :
  let st := mkApp [mkTodo (JS.lit "a") (JS.lit "one") false 1;
                   mkTodo (JS.lit "b") (JS.lit "two") true 2] [] None [] FAll in
  toggleTodo (JS.lit "zz") st = st /\
  deleteTodo (JS.lit "zz") st = st /\
  todos (saveEdit (setEditText (JS.lit "new") (setEditingId (Some (JS.lit "zz")) st)))
  = todos st.
Proof.
  intros st.
  destruct (absent_id_noop st (JS.lit "zz")) as [H _].
  destruct H as (H1 & H2 & H3).
  - repeat constructor; simpl; discriminate.
  - split; [exact H1 | split; [exact H2 | apply H3]].
Defined.

(** ** Filtering *)

Section Filtering.
Context {A : Type}.
Implicit Types (p : A -> bool) (l : list A).

Lemma filter_is_sublist p l : sublist (List.filter p l) l.
Proof.
  induction l as [|x l IH]; simpl; [constructor|].
  destruct (p x); [apply sublist_skip | apply sublist_cons]; exact IH.
Qed.

(** The filtered list is the largest sublist that satisfies the test. *)
Lemma filter_sublist_greatest p l l' :
  sublist l' l -> Forall (fun x => p x = true) l' -> sublist l' (List.filter p l).
Proof.
  induction 1 as [|x l1 l2 Hsub IH|x l1 l2 Hsub IH]; intros Hall; simpl.
  - constructor.
  - apply Forall_cons in Hall. destruct Hall as [Hx Hall]. rewrite Hx.
    apply sublist_skip, IH, Hall.
  - destruct (p x); [apply sublist_cons|]; apply IH, Hall.
Qed.

Lemma filter_interleave p l :
  interleave (List.filter p l) (List.filter (fun x => negb (p x)) l) l.
Proof.
  induction l as [|x l IH]; simpl; [constructor|].
  destruct (p x); simpl; constructor; exact IH.
Qed.

Lemma interleave_Permutation l r m : interleave l r m -> l ++ r ≡ₚ m.
Proof.
  induction 1 as [|x l r m _ IH|x l r m _ IH]; simpl.
  - reflexivity.
  - constructor. exact IH.
  - rewrite <- Permutation_middle. constructor. exact IH.
Qed.

Lemma interleave_length l r m :
  interleave l r m -> length m = (length l + length r)%nat.
Proof. induction 1; simpl; lia. Qed.

Lemma filter_true l : List.filter (fun _ => true) l = l.
Proof. induction l as [|x l IH]; simpl; congruence. Qed.
End Filtering.

(** C3. [clearCompleted] keeps exactly the tasks that are not completed: no
    task of the result is completed, a task is in the result if and only if it
    was in the list and not completed, the result is the list with the
    completed tasks taken out of an interleaving (so the kept tasks are the
    same records at the same relative positions), and it is the largest
    sublist without a completed task. The other cells of the state stay. *)
Theorem clearCompleted_spec (st : AppState) :
  let kept := todos (clearCompleted st) in
  Forall (fun t => completed t = false) kept /\
  (forall t, In t kept <-> In t (todos st) /\ completed t = false) /\
  sublist kept (todos st) /\
  interleave kept (List.filter (fun t => completed t) (todos st)) (todos st) /\
  (forall l, sublist l (todos st) -> Forall (fun t => completed t = false) l ->
             sublist l kept) /\
  clearCompleted st = setTodos (fun _ => kept) st.
Proof.
  unfold clearCompleted, setTodos; simpl.
  split; [|split; [|split; [|split; [|split]]]].
  - apply Forall_forall. intros t Ht. apply list_elem_of_In, List.filter_In in Ht.
    destruct Ht as [_ Ht]. apply negb_true_iff in Ht. exact Ht.
  - intros t. rewrite List.filter_In, negb_true_iff. reflexivity.
  - apply filter_is_sublist.
  - pose proof (filter_interleave (fun t => negb (completed t)) (todos st)) as H.
    erewrite (List.filter_ext (fun x => negb (negb (completed x)))) in H; [exact H|].
    intros t. apply negb_involutive.
  - intros l Hsub Hall. apply filter_sublist_greatest; [exact Hsub|].
    eapply Forall_impl; [exact Hall|]. intros t Ht. simpl. rewrite Ht. reflexivity.
  - reflexivity.
Qed.

Lemma clearCompleted_spec_witness :
  let a := mkTodo (JS.lit "a") (JS.lit "one") false 1 in
  let b := mkTodo (JS.lit "b") (JS.lit "two") true 2 in
  let c := mkTodo (JS.lit "c") (JS.lit "three") false 3 in
  let st := mkApp [a; b; c] [] None [] FAll in
  todos (clearCompleted st) = [a; c] /\ sublist [a; c] (todos (clearCompleted st)).
Proof.
  intros a b c st. split; [reflexivity|].
  destruct (clearCompleted_spec st) as (_ & _ & _ & _ & Hmax & _).
  apply Hmax.
  - simpl. apply sublist_skip, sublist_cons, sublist_skip, sublist_nil.
  - repeat constructor.
Defined.

(** C4. [filteredTodos] is computed from the state and returns a list: the
    state it reads is the state that remains, and choosing a filter changes
    only the [filter] cell. Under ['all'] it is the whole list. The
    ['active'] and ['completed'] views are sublists of the list with no task
    in common, the list is an interleaving of the two (each position belongs
    to exactly one of them, order kept), and so the two views together are
    the list up to a permutation. *)
Theorem filteredTodos_partition (st : AppState) :
  let act := filteredTodos (setFilter FActive st) in
  let com := filteredTodos (setFilter FCompleted st) in
  (forall f, todos (setFilter f st) = todos st) /\
  filteredTodos (setFilter FAll st) = todos st /\
  sublist act (todos st) /\ sublist com (todos st) /\
  (forall t, In t act -> ~ In t com) /\
  interleave act com (todos st) /\
  act ++ com ≡ₚ todos st /\
  length (todos st) = (activeCount st + completedCount st)%nat.
Proof.
  unfold filteredTodos, activeCount, completedCount; simpl.
  assert (interleave (List.filter (fun t => negb (completed t)) (todos st))
                     (List.filter (fun t => completed t) (todos st)) (todos st)) as Hil.
  { pose proof (filter_interleave (fun t => negb (completed t)) (todos st)) as H.
    erewrite (List.filter_ext (fun x => negb (negb (completed x)))) in H; [exact H|].
    intros t. apply negb_involutive. }
  split; [reflexivity|]. split; [apply filter_true|].
  split; [apply filter_is_sublist|]. split; [apply filter_is_sublist|].
  split; [|split; [exact Hil|split]].
  - intros t Ha Hc. apply List.filter_In in Ha, Hc.
    destruct Ha as [_ Ha], Hc as [_ Hc]. rewrite Hc in Ha. discriminate.
  - apply interleave_Permutation, Hil.
  - apply interleave_length, Hil.
Qed.

Lemma filteredTodos_partition_witness :
  let a := mkTodo (JS.lit "a") (JS.lit "one") false 1 in
  let b := mkTodo (JS.lit "b") (JS.lit "two") true 2 in
  let c := mkTodo (JS.lit "c") (JS.lit "three") false 3 in
  let st := mkApp [a; b; c] [] None [] FAll in
  filteredTodos (setFilter FActive st) = [a; c] /\
  filteredTodos (setFilter FCompleted st) = [b] /\
  interleave [a; c] [b] [a; b; c].
Proof.
  intros a b c st. split; [reflexivity|]. split; [reflexivity|].
  destruct (filteredTodos_partition st) as (_ & _ & _ & _ & _ & H & _). exact H.
Defined.

(** ** Saving an edit *)

(** C2, as stated, fails on a task whose id is the empty string: the guard
    [!editingId] of [saveEdit] takes the empty id for no edit in progress and
    returns before anything is saved. *)
Lemma saveEdit_empty_id_counterexample : ~ edit_replaces_in_every_state.
Proof.
  intros H.
  specialize (H (mkApp [mkTodo [] (JS.lit "a") false 0] [] (Some []) (JS.lit " y ") FAll)
                (mkTodo [] (JS.lit "a") false 0)).
  simpl in H.
  destruct H as [H|[]]; [left; reflexivity | reflexivity | discriminate | discriminate H].
Qed.

(** C2, amended. When the id being edited is not the empty string:
    an edited text that trims to nothing leaves the list (and so every text)
    as it was; any other text is trimmed and put in every task with that id,
    all other fields and all other tasks staying as they are; when the ids of
    the list are unique that is the one task edited, in its place. Either way
    the edit is closed. *)
Theorem saveEdit_spec (st : AppState) (eid : jsstring) :
  editingId st = Some eid ->
  eid <> [] ->
  let trimmed := JS.trim (editText st) in
  (trimmed = [] <-> blank (editText st)) /\
  (trimmed = [] -> todos (saveEdit st) = todos st) /\
  (trimmed <> [] ->
     Forall2 (fun t t' => t' = if JS.streq (id t) eid then retexted trimmed t else t)
             (todos st) (todos (saveEdit st)) /\
     forall l1 t l2,
       todos st = l1 ++ t :: l2 -> id t = eid -> NoDup (List.map id (todos st)) ->
       todos (saveEdit st) = l1 ++ retexted trimmed t :: l2) /\
  editingId (saveEdit st) = None /\ editText (saveEdit st) = [].
Proof.
  intros Hid Hne trimmed.
  apply truthy_true_iff in Hne.
  split; [apply trim_nil_iff|].
  unfold saveEdit. rewrite Hid, Hne. simpl. fold trimmed.
  split; [|split].
  - intros E. rewrite E. reflexivity.
  - intros E. apply truthy_true_iff in E. rewrite E. simpl. split.
    + induction (todos st) as [|t ts IH]; simpl; constructor; [reflexivity | exact IH].
    + intros l1 t l2 Hts <- Hnd. rewrite Hts in Hnd |- *.
      apply (map_on_id_unique (retexted trimmed)), Hnd.
  - destruct (JS.truthy trimmed); split; reflexivity.
Qed.

Lemma saveEdit_spec_witness :
  let a := mkTodo (JS.lit "a") (JS.lit "one") false 1 in
  let b := mkTodo (JS.lit "b") (JS.lit "two") false 2 in
  todos (saveEdit (mkApp [a; b] [] (Some (JS.lit "b")) (JS.lit " y ") FAll))
    = [a; mkTodo (JS.lit "b") (JS.lit "y") false 2] /\
  todos (saveEdit (mkApp [a; b] [] (Some (JS.lit "b")) (JS.lit "  ") FAll)) = [a; b].
Proof.
  intros a b. split.
  - destruct (saveEdit_spec (mkApp [a; b] [] (Some (JS.lit "b")) (JS.lit " y ") FAll)
                            (JS.lit "b") eq_refl) as (_ & _ & H & _); [discriminate|].
    destruct H as [_ H]; [discriminate|].
    apply (H [a] b []); [reflexivity | reflexivity |].
    simpl. repeat constructor; simpl.
    + intros Hin. apply list_elem_of_In in Hin. simpl in Hin.
      destruct Hin as [Hin|[]]. discriminate Hin.
    + intros Hin. apply list_elem_of_In in Hin. destruct Hin.
  - destruct (saveEdit_spec (mkApp [a; b] [] (Some (JS.lit "b")) (JS.lit "  ") FAll)
                            (JS.lit "b") eq_refl) as (_ & H & _); [discriminate|].
    apply H. reflexivity.
Defined.

(** ** Generated ids *)

(** C9, as stated, fails: nothing in [generateId] remembers earlier ids, so
    two calls in the same millisecond that draw the same number return the same
    string. *)
Lemma generateId_repeat_counterexample : ~ generateId_never_repeats.
Proof.
  intros H.
  apply (H (mkWorld (fun _ => 1700000000000) 0 (fun _ => JS.lit "0.4fzyo82mvyr") 0 ∅)).
  reflexivity.
Qed.

Lemma stamp_length (t : Z) :
  36 ^ 7 <= t < 36 ^ 8 -> length (JS.Number_toString 36 t) = 8%nat.
Proof.
  intros Ht. unfold JS.Number_toString.
  assert ((t <? 0) = false) as -> by (apply Z.ltb_ge; lia).
  apply (digits_length 36) with (k := 7%nat); [lia | exact Ht].
Qed.

(** C9, amended. An id is the clock reading in base 36 followed by the
    fraction digits of the draw, and a call uses up one clock reading and one
    draw. Two calls that read the same clock value and draw the same digits
    return the same id. Two calls that read the same clock value return
    different ids exactly when their fraction digits differ, and two calls
    whose clock readings lie between [36^7] and [36^8 - 1] milliseconds (June
    1972 to May 2059, where the base-36 reading has eight digits) return
    different ids exactly when the readings or the fraction digits differ. *)
Theorem generateId_spec (w1 w2 : World) :
  run generateId w1 = JS.Number_toString 36 (stamp w1) ++ fraction w1 /\
  exec generateId w1 =
    mkWorld (clock w1) (S (ticks w1)) (entropy w1) (S (draws w1)) (localStorage w1) /\
  (stamp w1 = stamp w2 -> fraction w1 = fraction w2 ->
     run generateId w1 = run generateId w2) /\
  (stamp w1 = stamp w2 ->
     (run generateId w1 = run generateId w2 <-> fraction w1 = fraction w2)) /\
  (36 ^ 7 <= stamp w1 < 36 ^ 8 -> 36 ^ 7 <= stamp w2 < 36 ^ 8 ->
     (run generateId w1 = run generateId w2 <->
      stamp w1 = stamp w2 /\ fraction w1 = fraction w2)).
Proof.
  assert (forall w, run generateId w = JS.Number_toString 36 (stamp w) ++ fraction w)
    as Hrun by reflexivity.
  split; [apply Hrun|]. split; [reflexivity|]. rewrite !Hrun.
  split; [|split].
  - intros -> ->. reflexivity.
  - intros ->. split.
    + apply app_inv_head.
    + intros ->. reflexivity.
  - intros H1 H2. split.
    + intros E. apply app_inj_1 in E.
      * destruct E as [E1 E2]. split; [|exact E2].
        apply (Number_toString_inj 36); [lia | exact E1].
      * rewrite !stamp_length; [reflexivity | exact H2 | exact H1].
    + intros [-> ->]. reflexivity.
Qed.

Lemma generateId_spec_witness :
  let w1 := mkWorld (fun _ => 1700000000000) 0 (fun _ => JS.lit "0.4fzyo82mvyr") 0 ∅ in
  let w2 := mkWorld (fun _ => 1700000000001) 0 (fun _ => JS.lit "0.4fzyo82mvyr") 0 ∅ in
  run generateId w1 <> run generateId w2.
Proof.
  intros w1 w2 E.
  destruct (generateId_spec w1 w2) as (_ & _ & _ & _ & H).
  apply H in E.
  - destruct E as [E _]. discriminate E.
  - unfold stamp, w1. simpl. lia.
  - unfold stamp, w2. simpl. lia.
Defined.

(** ** Adding a task *)

(** C1, as stated, fails where it calls the id of the new task freshly
    generated: [generateId] reads the clock and a random draw and never looks
    at the list, so an add in the same millisecond as the one before, with the
    same draw, gives the new task the id of the task that is already there. *)
Lemma addTodo_repeated_id_counterexample : ~ addTodo_id_is_fresh.
Proof.
  intros H.
  pose (w0 := mkWorld (fun _ => 1700000000000) 0 (fun _ => JS.lit "0.4fzyo82mvyr") 0 ∅).
  pose (st0 := mkApp [] (JS.lit "a") None [] FAll).
  apply (H (setNewTodo (JS.lit "b") (run (addTodo st0) w0)) (exec (addTodo st0) w0)).
  - vm_compute. discriminate.
  - vm_compute. left. reflexivity.
Qed.

(** C1, amended. [addTodo] on an input that is blank (empty, or only white
    space and line terminators, which is when its trim is empty) changes
    neither the state nor the world. On any other input it puts exactly one
    task in front of the list and empties the input, the rest of the state
    unchanged: the text of the task is the trimmed input, it is not completed,
    its id is the string [generateId] returns, which is the clock reading in
    base 36 followed by the fraction digits of a draw, and its timestamp is the
    next clock reading; two clock readings and one draw are used up. The
    trimmed text is the input without a blank prefix and a blank suffix, and
    neither starts nor ends with a blank character. The id is never the empty
    string. It is not checked against the list: added to a list without
    repeated ids, the task leaves the list without repeated ids exactly when
    its id is not in the list already. It differs from every id made of another
    clock reading (both readings with eight base-36 digits) or of other
    fraction digits. *)
Theorem addTodo_spec (st : AppState) (w : World) :
  let trimmed := JS.trim (newTodo st) in
  let newId := JS.Number_toString 36 (stamp w) ++ fraction w in
  (trimmed = [] <-> blank (newTodo st)) /\
  (exists pre post, newTodo st = pre ++ trimmed ++ post /\ blank pre /\ blank post) /\
  (forall c r, trimmed = c :: r -> JS.isTrimmed c = false) /\
  (forall r c, trimmed = r ++ [c] -> JS.isTrimmed c = false) /\
  (trimmed = [] -> run (addTodo st) w = st /\ exec (addTodo st) w = w) /\
  (trimmed <> [] ->
     run (addTodo st) w =
       mkApp (mkTodo newId trimmed false (clock w (S (ticks w))) :: todos st)
             [] (editingId st) (editText st) (filter st) /\
     exec (addTodo st) w =
       mkWorld (clock w) (S (S (ticks w))) (entropy w) (S (draws w)) (localStorage w)) /\
  run generateId w = newId /\
  newId <> [] /\
  (trimmed <> [] -> NoDup (List.map id (todos st)) ->
     (NoDup (List.map id (todos (run (addTodo st) w))) <->
      ~ In newId (List.map id (todos st)))) /\
  (forall (t : Z) (f : jsstring),
     36 ^ 7 <= t < 36 ^ 8 -> 36 ^ 7 <= stamp w < 36 ^ 8 ->
     t <> stamp w \/ f <> fraction w ->
     JS.Number_toString 36 t ++ f <> newId).
Proof.
  intros trimmed newId.
  assert (trimmed <> [] ->
          run (addTodo st) w =
            mkApp (mkTodo newId trimmed false (clock w (S (ticks w))) :: todos st)
                  [] (editingId st) (editText st) (filter st) /\
          exec (addTodo st) w =
            mkWorld (clock w) (S (S (ticks w))) (entropy w) (S (draws w)) (localStorage w))
    as Hadd.
  { intros Hne. unfold addTodo, run, exec. fold trimmed.
    apply truthy_true_iff in Hne. rewrite Hne. split; reflexivity. }
  split; [apply trim_nil_iff|]. split; [apply trim_split|].
  split; [apply trim_head|]. split; [apply trim_last|].
  split; [|split; [exact Hadd|split; [reflexivity|split; [|split]]]].
  - intros H. unfold addTodo, run, exec. fold trimmed. rewrite H. split; reflexivity.
  - intros H. apply app_eq_nil in H. destruct H as [H _].
    apply (Number_toString_nonempty 36) in H; [exact H | lia].
  - intros Hne Hnd. destruct (Hadd Hne) as [-> _]. cbn [todos List.map id].
    rewrite NoDup_cons, list_elem_of_In. tauto.
  - intros t f Ht Hs Hd E. unfold newId in E.
    apply app_inj_1 in E; [|rewrite !stamp_length; [reflexivity | exact Hs | exact Ht]].
    destruct E as [E1 E2].
    apply (Number_toString_inj 36) in E1; [|lia].
    destruct Hd as [Hd|Hd]; [exact (Hd E1) | exact (Hd E2)].
Qed.

Lemma addTodo_spec_witness :
  let st := mkApp [mkTodo (JS.lit "a") (JS.lit "old") true 5] (JS.lit " x ") None [] FAll in
  let w := mkWorld (fun n => 1700000000000 + Z.of_nat n) 0
                   (fun _ => JS.lit "0.4fzyo82mvyr") 0 ∅ in
  todos (run (addTodo st) w) =
    [ mkTodo (JS.lit "loyw3v284fzyo82mvyr") (JS.lit "x") false 1700000000001;
      mkTodo (JS.lit "a") (JS.lit "old") true 5 ] /\
  ticks (exec (addTodo st) w) = 2%nat /\
  NoDup (List.map id (todos (run (addTodo st) w))).
Proof.
  intros st w.
  destruct (addTodo_spec st w) as (_ & _ & _ & _ & _ & Hadd & _ & _ & Hnd & _).
  assert (JS.trim (newTodo st) <> []) as Hne by discriminate.
  destruct (Hadd Hne) as [Hrun Hexec].
  split; [rewrite Hrun; reflexivity|]. split; [rewrite Hexec; reflexivity|].
  apply Hnd; [exact Hne | |].
  - apply NoDup_singleton.
  - intros [Hin|[]]. discriminate Hin.
Defined.

(** Adding the empty string, or two spaces, changes nothing. *)
Example addTodo_blank (ts : list Todo) (w : World) :
  run (addTodo (mkApp ts [] None [] FAll)) w = mkApp ts [] None [] FAll /\
  todos (run (addTodo (mkApp ts (JS.lit "  ") None [] FAll)) w) = ts.
Proof. split; reflexivity. Qed.

(** ** The fuel of the parser *)

Lemma skipWs_length (s : jsstring) : (length (JSON.skipWs s) <= length s)%nat.
Proof.
  induction s as [|c s IH]; simpl; [lia|].
  destruct (JSON.isJsonWs c); simpl; lia.
Qed.

Lemma expectChar_length (c : N) (s r : jsstring) :
  JSON.expectChar c s = Some r -> length s = S (length r).
Proof.
  destruct s as [|d s]; simpl; [discriminate|].
  destruct (d =? c)%N; [|discriminate]. intros [= ->]. reflexivity.
Qed.

Lemma expect_length (p : jsstring) :
  forall s r, JSON.expect p s = Some r -> (length r <= length s)%nat.
Proof.
  induction p as [|a p IH]; intros s r; simpl.
  - intros [= ->]. lia.
  - destruct s as [|b s]; [discriminate|].
    destruct (a =? b)%N; [|discriminate].
    intros H. apply IH in H. simpl. lia.
Qed.

Lemma parseStringBody_length (n : nat) :
  forall s v r, (length s <= n)%nat ->
  JSON.parseStringBody s = Some (v, r) -> (length r < length s)%nat.
Proof.
  induction n as [|n IH]; intros s v r Hn.
  - destruct s; [discriminate | simpl in Hn; lia].
  - destruct s as [|c s]; [discriminate|]. simpl in Hn.
    cbn [JSON.parseStringBody].
    destruct (c =? 34)%N.
    { intros [= _ ->]. simpl. lia. }
    destruct (c =? 92)%N.
    { destruct s as [|e s]; [discriminate|].
      destruct (e =? 117)%N.
      - destruct s as [|h1 [|h2 [|h3 [|h4 s]]]]; try discriminate.
        destruct (JSON.hex4Val h1 h2 h3 h4); [|discriminate].
        destruct (JSON.parseStringBody s) as [[v' r']|] eqn:E; [|discriminate].
        intros [= _ ->]. apply IH in E; simpl in *; lia.
      - destruct (JSON.unescape e); [|discriminate].
        destruct (JSON.parseStringBody s) as [[v' r']|] eqn:E; [|discriminate].
        intros [= _ ->]. apply IH in E; simpl in *; lia. }
    destruct (c <? 32)%N; [discriminate|].
    destruct (JSON.parseStringBody s) as [[v' r']|] eqn:E; [|discriminate].
    intros [= _ ->]. apply IH in E; simpl in *; lia.
Qed.

Lemma takeDigits_length (s : jsstring) :
  forall ds r, JSON.takeDigits s = (ds, r) -> length s = (length ds + length r)%nat.
Proof.
  induction s as [|c s IH]; intros ds r; simpl.
  - intros [= <- <-]. reflexivity.
  - destruct (JSON.isDigit c).
    + destruct (JSON.takeDigits s) as [ds' r'] eqn:E. intros [= <- <-].
      simpl. rewrite (IH ds' r' eq_refl). reflexivity.
    + intros [= <- <-]. reflexivity.
Qed.

Lemma parseFraction_length (s fs r : jsstring) :
  JSON.parseFraction s = Some (fs, r) -> (length r <= length s)%nat.
Proof.
  unfold JSON.parseFraction.
  destruct (JSON.expectChar 46 s) as [s'|] eqn:E.
  - apply expectChar_length in E.
    destruct (JSON.takeDigits s') as [ds r'] eqn:Et.
    apply takeDigits_length in Et.
    destruct ds; [discriminate|]. intros [= _ <-]. lia.
  - intros [= _ <-]. lia.
Qed.

Lemma parseExponent_length (s r : jsstring) (e : Z) :
  JSON.parseExponent s = Some (e, r) -> (length r <= length s)%nat.
Proof.
  unfold JSON.parseExponent.
  destruct s as [|c s]; [intros [= _ <-]; lia|].
  destruct ((c =? 101) || (c =? 69))%N; [|intros [= _ <-]; lia].
  destruct (JSON.expectChar 45 s) as [t|] eqn:E1;
    [apply expectChar_length in E1
    |destruct (JSON.expectChar 43 s) as [t|] eqn:E2;
       [apply expectChar_length in E2|]];
    match goal with
    | |- context [JSON.takeDigits ?x] =>
        destruct (JSON.takeDigits x) as [ds rest] eqn:Et;
        apply takeDigits_length in Et;
        destruct ds; [discriminate|]; intros [= _ <-]; simpl; lia
    end.
Qed.

Lemma parseUnsigned_length (neg : bool) (s r : jsstring) (q : Q) :
  JSON.parseUnsigned neg s = Some (q, r) -> (length r < length s)%nat.
Proof.
  unfold JSON.parseUnsigned.
  destruct (JSON.takeDigits s) as [ds s2] eqn:Et. apply takeDigits_length in Et.
  destruct ds as [|d ds]; [discriminate|].
  destruct ((d =? 48)%N && negb (bool_decide (ds = []))); [discriminate|].
  destruct (JSON.parseFraction s2) as [[fs s3]|] eqn:Ef; [|discriminate].
  destruct (JSON.parseExponent s3) as [[e s4]|] eqn:Ee; [|discriminate].
  apply parseFraction_length in Ef. apply parseExponent_length in Ee.
  intros [= _ <-]. simpl in Et. lia.
Qed.

Lemma parseNumber_length (s r : jsstring) (q : Q) :
  JSON.parseNumber s = Some (q, r) -> (length r < length s)%nat.
Proof.
  unfold JSON.parseNumber.
  destruct (JSON.expectChar 45 s) as [t|] eqn:E.
  - apply expectChar_length in E. intros H. apply parseUnsigned_length in H. lia.
  - apply parseUnsigned_length.
Qed.

(** Every parser that succeeds consumes input. *)
Lemma parse_length (f : nat) :
  (forall s v r, JSON.parseValue f s = Some (v, r) -> (length r < length s)%nat) /\
  (forall s vs r, JSON.parseElements f s = Some (vs, r) -> (length r < length s)%nat) /\
  (forall s ms r, JSON.parseMembers f s = Some (ms, r) -> (length r < length s)%nat).
Proof.
  induction f as [|f (IHv & IHe & IHm)]; [repeat split; discriminate|].
  split; [|split].
  - intros s v r. cbn [JSON.parseValue].
    pose proof (skipWs_length s) as Hs.
    destruct (JSON.skipWs s) as [|c r0]; [discriminate|]. simpl in Hs.
    pose proof (skipWs_length r0) as Hr0.
    destruct (c =? 123)%N.
    { destruct (JSON.expectChar 125 (JSON.skipWs r0)) as [r'|] eqn:E.
      - apply expectChar_length in E. intros [= _ <-]. lia.
      - destruct (JSON.parseMembers f r0) as [[ms r']|] eqn:Em; [|discriminate].
        apply IHm in Em. intros [= _ <-]. lia. }
    destruct (c =? 91)%N.
    { destruct (JSON.expectChar 93 (JSON.skipWs r0)) as [r'|] eqn:E.
      - apply expectChar_length in E. intros [= _ <-]. lia.
      - destruct (JSON.parseElements f r0) as [[vs r']|] eqn:Ee; [|discriminate].
        apply IHe in Ee. intros [= _ <-]. lia. }
    destruct (c =? 34)%N.
    { destruct (JSON.parseStringBody r0) as [[str r']|] eqn:E; [|discriminate].
      apply (parseStringBody_length (length r0)) in E; [|lia]. intros [= _ <-]. lia. }
    destruct (c =? 116)%N.
    { destruct (JSON.expect (JS.lit "rue") r0) as [r'|] eqn:E; [|discriminate].
      apply expect_length in E. intros [= _ <-]. lia. }
    destruct (c =? 102)%N.
    { destruct (JSON.expect (JS.lit "alse") r0) as [r'|] eqn:E; [|discriminate].
      apply expect_length in E. intros [= _ <-]. lia. }
    destruct (c =? 110)%N.
    { destruct (JSON.expect (JS.lit "ull") r0) as [r'|] eqn:E; [|discriminate].
      apply expect_length in E. intros [= _ <-]. lia. }
    destruct (JSON.parseNumber (c :: r0)) as [[q r']|] eqn:E; [|discriminate].
    apply parseNumber_length in E. simpl in E. intros [= _ <-]. lia.
  - intros s vs r. cbn [JSON.parseElements].
    destruct (JSON.parseValue f s) as [[v r1]|] eqn:Ev; [|discriminate].
    apply IHv in Ev. pose proof (skipWs_length r1) as Hr1.
    destruct (JSON.expectChar 44 (JSON.skipWs r1)) as [r2|] eqn:E.
    + apply expectChar_length in E.
      destruct (JSON.parseElements f r2) as [[vs' r3]|] eqn:Ee; [|discriminate].
      apply IHe in Ee. intros [= _ <-]. lia.
    + destruct (JSON.expectChar 93 (JSON.skipWs r1)) as [r2|] eqn:E2; [|discriminate].
      apply expectChar_length in E2. intros [= _ <-]. lia.
  - intros s ms r. cbn [JSON.parseMembers].
    pose proof (skipWs_length s) as Hs.
    destruct (JSON.expectChar 34 (JSON.skipWs s)) as [r0|] eqn:E0; [|discriminate].
    apply expectChar_length in E0.
    destruct (JSON.parseStringBody r0) as [[k r1]|] eqn:Ek; [|discriminate].
    apply (parseStringBody_length (length r0)) in Ek; [|lia].
    pose proof (skipWs_length r1) as Hr1.
    destruct (JSON.expectChar 58 (JSON.skipWs r1)) as [r2|] eqn:E1; [|discriminate].
    apply expectChar_length in E1.
    destruct (JSON.parseValue f r2) as [[v r3]|] eqn:Ev; [|discriminate].
    apply IHv in Ev. pose proof (skipWs_length r3) as Hr3.
    destruct (JSON.expectChar 44 (JSON.skipWs r3)) as [r4|] eqn:E.
    + apply expectChar_length in E.
      destruct (JSON.parseMembers f r4) as [[ms' r5]|] eqn:Em; [|discriminate].
      apply IHm in Em. intros [= _ <-]. lia.
    + destruct (JSON.expectChar 125 (JSON.skipWs r3)) as [r4|] eqn:E2; [|discriminate].
      apply expectChar_length in E2. intros [= _ <-]. lia.
Qed.

(** Beyond twice the length of the text, the fuel does not matter. *)
Lemma parse_fuel (f1 : nat) : forall f2 : nat,
  (forall s, (2 * length s <= f1)%nat -> (2 * length s <= f2)%nat ->
             JSON.parseValue f1 s = JSON.parseValue f2 s) /\
  (forall s, (2 * length s + 1 <= f1)%nat -> (2 * length s + 1 <= f2)%nat ->
             JSON.parseElements f1 s = JSON.parseElements f2 s) /\
  (forall s, (2 * length s + 1 <= f1)%nat -> (2 * length s + 1 <= f2)%nat ->
             JSON.parseMembers f1 s = JSON.parseMembers f2 s).
Proof.
  induction f1 as [|f1 IH]; intros f2.
  - split; [|split; intros; lia].
    intros s H1 _. destruct s; [|simpl in H1; lia]. destruct f2; reflexivity.
  - destruct f2 as [|f2].
    { split; [|split; intros; lia].
      intros s _ H2. destruct s; [|simpl in H2; lia]. reflexivity. }
    destruct (IH f2) as (IHv & IHe & IHm). clear IH.
    split; [|split].
    + intros s H1 H2. cbn [JSON.parseValue].
      pose proof (skipWs_length s) as Hs.
      destruct (JSON.skipWs s) as [|c r0]; [reflexivity|]. simpl in Hs.
      rewrite (IHm r0), (IHe r0) by lia. reflexivity.
    + intros s H1 H2. cbn [JSON.parseElements].
      rewrite (IHv s) by lia.
      destruct (JSON.parseValue f2 s) as [[v r1]|] eqn:Ev; [|reflexivity].
      apply parse_length in Ev. pose proof (skipWs_length r1) as Hr1.
      destruct (JSON.expectChar 44 (JSON.skipWs r1)) as [r2|] eqn:E; [|reflexivity].
      apply expectChar_length in E. rewrite (IHe r2) by lia. reflexivity.
    + intros s H1 H2. cbn [JSON.parseMembers].
      pose proof (skipWs_length s) as Hs.
      destruct (JSON.expectChar 34 (JSON.skipWs s)) as [r0|] eqn:E0; [|reflexivity].
      apply expectChar_length in E0.
      destruct (JSON.parseStringBody r0) as [[k r1]|] eqn:Ek; [|reflexivity].
      apply (parseStringBody_length (length r0)) in Ek; [|lia].
      pose proof (skipWs_length r1) as Hr1.
      destruct (JSON.expectChar 58 (JSON.skipWs r1)) as [r2|] eqn:E1; [|reflexivity].
      apply expectChar_length in E1. rewrite (IHv r2) by lia.
      destruct (JSON.parseValue f2 r2) as [[v r3]|] eqn:Ev; [|reflexivity].
      apply parse_length in Ev. pose proof (skipWs_length r3) as Hr3.
      destruct (JSON.expectChar 44 (JSON.skipWs r3)) as [r4|] eqn:E; [|reflexivity].
      apply expectChar_length in E. rewrite (IHm r4) by lia. reflexivity.
Qed.

(** The fuel [JSON.parse] supplies is as good as any larger one: a text it
    rejects is rejected whatever the fuel. *)
Lemma parse_fuel_enough (s : jsstring) (f : nat) :
  (2 * length s <= f)%nat ->
  JSON.parseValue f s = JSON.parseValue (S (2 * length s)) s.
Proof. intros H. apply parse_fuel; lia. Qed.

Lemma parseElements_S (f : nat) (s : jsstring) :
  JSON.parseElements (S f) s =
    match JSON.parseValue f s with
    | None => None
    | Some (v, r) =>
        match JSON.expectChar 44 (JSON.skipWs r) with
        | Some r' =>
            match JSON.parseElements f r' with
            | Some (vs, r'') => Some (v :: vs, r'')
            | None => None
            end
        | None =>
            match JSON.expectChar 93 (JSON.skipWs r) with
            | Some r' => Some ([v], r')
            | None => None
            end
        end
    end.
Proof. reflexivity. Qed.

Lemma parseMembers_S (f : nat) (s : jsstring) :
  JSON.parseMembers (S f) s =
    match JSON.expectChar 34 (JSON.skipWs s) with
    | None => None
    | Some r =>
        match JSON.parseStringBody r with
        | None => None
        | Some (k, r1) =>
            match JSON.expectChar 58 (JSON.skipWs r1) with
            | None => None
            | Some r2 =>
                match JSON.parseValue f r2 with
                | None => None
                | Some (v, r3) =>
                    match JSON.expectChar 44 (JSON.skipWs r3) with
                    | Some r4 =>
                        match JSON.parseMembers f r4 with
                        | Some (ms, r5) => Some ((k, v) :: ms, r5)
                        | None => None
                        end
                    | None =>
                        match JSON.expectChar 125 (JSON.skipWs r3) with
                        | Some r4 => Some ([(k, v)], r4)
                        | None => None
                        end
                    end
                end
            end
        end
    end.
Proof. reflexivity. Qed.

(** More fuel keeps every success. *)
Lemma parse_mono (f : nat) :
  (forall s x, JSON.parseValue f s = Some x -> JSON.parseValue (S f) s = Some x) /\
  (forall s x, JSON.parseElements f s = Some x -> JSON.parseElements (S f) s = Some x) /\
  (forall s x, JSON.parseMembers f s = Some x -> JSON.parseMembers (S f) s = Some x).
Proof.
  induction f as [|f (IHv & IHe & IHm)]; [repeat split; discriminate|].
  split; [|split].
  - intros s x. cbn [JSON.parseValue].
    destruct (JSON.skipWs s) as [|c r0]; [discriminate|].
    destruct (c =? 123)%N.
    { destruct (JSON.expectChar 125 (JSON.skipWs r0)); [trivial|].
      destruct (JSON.parseMembers f r0) as [[ms r']|] eqn:Em; [|discriminate].
      rewrite (IHm _ _ Em). trivial. }
    destruct (c =? 91)%N; [|trivial].
    destruct (JSON.expectChar 93 (JSON.skipWs r0)); [trivial|].
    destruct (JSON.parseElements f r0) as [[vs r']|] eqn:Ee; [|discriminate].
    rewrite (IHe _ _ Ee). trivial.
  - intros s x. rewrite (parseElements_S f s), (parseElements_S (S f) s).
    destruct (JSON.parseValue f s) as [[v r1]|] eqn:Ev; [|discriminate].
    rewrite (IHv _ _ Ev).
    destruct (JSON.expectChar 44 (JSON.skipWs r1)) as [r2|]; [|trivial].
    destruct (JSON.parseElements f r2) as [[vs r3]|] eqn:Ee; [|discriminate].
    rewrite (IHe _ _ Ee). trivial.
  - intros s x. rewrite (parseMembers_S f s), (parseMembers_S (S f) s).
    destruct (JSON.expectChar 34 (JSON.skipWs s)) as [r0|]; [|discriminate].
    destruct (JSON.parseStringBody r0) as [[k r1]|]; [|discriminate].
    destruct (JSON.expectChar 58 (JSON.skipWs r1)) as [r2|]; [|discriminate].
    destruct (JSON.parseValue f r2) as [[v r3]|] eqn:Ev; [|discriminate].
    rewrite (IHv _ _ Ev).
    destruct (JSON.expectChar 44 (JSON.skipWs r3)) as [r4|]; [|trivial].
    destruct (JSON.parseMembers f r4) as [[ms r5]|] eqn:Em; [|discriminate].
    rewrite (IHm _ _ Em). trivial.
Qed.

(** A text the parser accepts with some fuel is accepted, with the same
    result, with the fuel [JSON.parse] supplies. *)
Lemma parse_fuel_complete (s : jsstring) (x : json * jsstring) :
  forall f, JSON.parseValue f s = Some x ->
            JSON.parseValue (S (2 * length s)) s = Some x.
Proof.
  intros f H.
  destruct (Nat.le_gt_cases (2 * length s) f) as [Hle|Hgt].
  - rewrite <- (parse_fuel_enough s f Hle). exact H.
  - assert (forall k, JSON.parseValue (k + f) s = Some x) as Hup.
    { induction k as [|k IHk]; [exact H|]. apply (parse_mono (k + f)), IHk. }
    specialize (Hup (S (2 * length s) - f)%nat).
    replace (S (2 * length s) - f + f)%nat with (S (2 * length s)) in Hup by lia.
    exact Hup.
Qed.

(** ** Strings through [JSON.stringify] and [JSON.parse] *)

Lemma parseStringBody_raw (c : N) (s : jsstring) :
  (c =? 34)%N = false -> (c =? 92)%N = false -> (c <? 32)%N = false ->
  JSON.parseStringBody (c :: s) =
    match JSON.parseStringBody s with
    | Some (r, rest) => Some (c :: r, rest)
    | None => None
    end.
Proof. intros H1 H2 H3. simpl. rewrite H1, H2, H3. reflexivity. Qed.

Lemma parseStringBody_short (e u : N) (s : jsstring) :
  (e =? 117)%N = false -> JSON.unescape e = Some u ->
  JSON.parseStringBody (92%N :: e :: s) =
    match JSON.parseStringBody s with
    | Some (r, rest) => Some (u :: r, rest)
    | None => None
    end.
Proof. intros H1 H2. simpl. rewrite H1, H2. reflexivity. Qed.

Lemma hexVal_hexChar (d : N) : (d < 16)%N -> JSON.hexVal (JSON.hexChar d) = Some d.
Proof.
  intros Hd. unfold JSON.hexVal, JSON.hexChar.
  destruct (d <? 10)%N eqn:E.
  - apply N.ltb_lt in E.
    assert (((48 <=? 48 + d) && (48 + d <=? 57))%N = true) as ->.
    { apply andb_true_intro. split; apply N.leb_le; lia. }
    f_equal. lia.
  - apply N.ltb_ge in E.
    assert (((48 <=? 87 + d) && (87 + d <=? 57))%N = false) as ->.
    { apply andb_false_intro2. apply N.leb_gt. lia. }
    assert (((97 <=? 87 + d) && (87 + d <=? 102))%N = true) as ->.
    { apply andb_true_intro. split; apply N.leb_le; lia. }
    f_equal. lia.
Qed.

Lemma hex4_digits (c : N) :
  (c < 65536)%N ->
  (c / 4096 < 16 /\ (c / 256) mod 16 < 16 /\ (c / 16) mod 16 < 16 /\ c mod 16 < 16 /\
   c / 4096 * 4096 + (c / 256) mod 16 * 256 + (c / 16) mod 16 * 16 + c mod 16 = c)%N.
Proof.
  intros Hc.
  assert (c / 4096 < 16)%N by (apply N.Div0.div_lt_upper_bound; lia).
  assert ((c / 256) mod 16 < 16)%N by (apply N.mod_upper_bound; lia).
  assert ((c / 16) mod 16 < 16)%N by (apply N.mod_upper_bound; lia).
  assert (c mod 16 < 16)%N by (apply N.mod_upper_bound; lia).
  repeat split; try assumption.
  pose proof (N.div_mod c 16 ltac:(lia)) as E1.
  pose proof (N.div_mod (c / 16) 16 ltac:(lia)) as E2.
  pose proof (N.div_mod (c / 256) 16 ltac:(lia)) as E3.
  rewrite N.Div0.div_div in E2. change (16 * 16)%N with 256%N in E2.
  rewrite N.Div0.div_div in E3. change (256 * 16)%N with 4096%N in E3.
  lia.
Qed.

Lemma parseStringBody_unicode (c : N) (s : jsstring) :
  (c < 65536)%N ->
  JSON.parseStringBody (JSON.unicodeEscape c ++ s) =
    match JSON.parseStringBody s with
    | Some (r, rest) => Some (c :: r, rest)
    | None => None
    end.
Proof.
  intros Hc. destruct (hex4_digits c Hc) as (H1 & H2 & H3 & H4 & Hsum).
  unfold JSON.unicodeEscape.
  change (JSON.parseStringBody
            ([92; 117; JSON.hexChar (c / 4096); JSON.hexChar ((c / 256) mod 16);
              JSON.hexChar ((c / 16) mod 16); JSON.hexChar (c mod 16)]%N ++ s))
    with (match JSON.hex4Val (JSON.hexChar (c / 4096)) (JSON.hexChar ((c / 256) mod 16))
                             (JSON.hexChar ((c / 16) mod 16)) (JSON.hexChar (c mod 16)) with
          | Some u =>
              match JSON.parseStringBody s with
              | Some (r, rest) => Some (u :: r, rest)
              | None => None
              end
          | None => None
          end).
  unfold JSON.hex4Val. rewrite !hexVal_hexChar by assumption. rewrite Hsum. reflexivity.
Qed.

Lemma surrogate_bound (c : N) :
  JSON.isHighSurrogate c = true \/ JSON.isLowSurrogate c = true -> (c < 65536)%N.
Proof.
  unfold JSON.isHighSurrogate, JSON.isLowSurrogate.
  intros [H|H]; apply andb_true_iff in H; destruct H as [_ H]; apply N.leb_le in H; lia.
Qed.

Lemma surrogate_raw (c : N) :
  JSON.isHighSurrogate c = true \/ JSON.isLowSurrogate c = true ->
  (c =? 34)%N = false /\ (c =? 92)%N = false /\ (c <? 32)%N = false.
Proof.
  unfold JSON.isHighSurrogate, JSON.isLowSurrogate.
  intros [H|H]; apply andb_true_iff in H; destruct H as [H _]; apply N.leb_le in H;
    (split; [apply N.eqb_neq; lia | split; [apply N.eqb_neq; lia | apply N.ltb_ge; lia]]).
Qed.

(** What [quoteBody] writes reads back as the string, up to the closing
    quote. *)
Lemma parseStringBody_quoteBody (n : nat) :
  forall s rest, (length s <= n)%nat ->
  JSON.parseStringBody (JSON.quoteBody s ++ 34%N :: rest) = Some (s, rest).
Proof.
  induction n as [|n IH]; intros s rest Hlen.
  - destruct s; [reflexivity | simpl in Hlen; lia].
  - destruct s as [|c s]; [reflexivity|].
    simpl in Hlen. assert (length s <= n)%nat as Hs by lia.
    cbn [JSON.quoteBody].
    destruct (c =? 8)%N eqn:E8.
    { apply N.eqb_eq in E8. subst c. cbn [app].
      rewrite (parseStringBody_short 98 8) by reflexivity. rewrite IH by exact Hs. reflexivity. }
    destruct (c =? 9)%N eqn:E9.
    { apply N.eqb_eq in E9. subst c. cbn [app].
      rewrite (parseStringBody_short 116 9) by reflexivity. rewrite IH by exact Hs. reflexivity. }
    destruct (c =? 10)%N eqn:E10.
    { apply N.eqb_eq in E10. subst c. cbn [app].
      rewrite (parseStringBody_short 110 10) by reflexivity. rewrite IH by exact Hs. reflexivity. }
    destruct (c =? 12)%N eqn:E12.
    { apply N.eqb_eq in E12. subst c. cbn [app].
      rewrite (parseStringBody_short 102 12) by reflexivity. rewrite IH by exact Hs. reflexivity. }
    destruct (c =? 13)%N eqn:E13.
    { apply N.eqb_eq in E13. subst c. cbn [app].
      rewrite (parseStringBody_short 114 13) by reflexivity. rewrite IH by exact Hs. reflexivity. }
    destruct (c =? 34)%N eqn:E34.
    { apply N.eqb_eq in E34. subst c. cbn [app].
      rewrite (parseStringBody_short 34 34) by reflexivity. rewrite IH by exact Hs. reflexivity. }
    destruct (c =? 92)%N eqn:E92.
    { apply N.eqb_eq in E92. subst c. cbn [app].
      rewrite (parseStringBody_short 92 92) by reflexivity. rewrite IH by exact Hs. reflexivity. }
    destruct (c <? 32)%N eqn:E32.
    { apply N.ltb_lt in E32. rewrite <- List.app_assoc.
      rewrite parseStringBody_unicode by lia. rewrite IH by exact Hs. reflexivity. }
    destruct (JSON.isHighSurrogate c) eqn:Ehi.
    { destruct (surrogate_raw c (or_introl Ehi)) as (R1 & R2 & R3).
      pose proof (surrogate_bound c (or_introl Ehi)) as Hb.
      destruct s as [|d s'].
      - rewrite parseStringBody_unicode by exact Hb. reflexivity.
      - destruct (JSON.isLowSurrogate d) eqn:Elo.
        + destruct (surrogate_raw d (or_intror Elo)) as (S1 & S2 & S3).
          cbn [app]. rewrite (parseStringBody_raw c) by assumption.
          rewrite (parseStringBody_raw d) by assumption.
          simpl in Hs. rewrite IH by lia. reflexivity.
        + rewrite <- List.app_assoc. rewrite parseStringBody_unicode by exact Hb.
          rewrite IH by exact Hs. reflexivity. }
    destruct (JSON.isLowSurrogate c) eqn:Elo.
    { pose proof (surrogate_bound c (or_intror Elo)) as Hb.
      rewrite <- List.app_assoc. rewrite parseStringBody_unicode by exact Hb.
      rewrite IH by exact Hs. reflexivity. }
    cbn [app]. rewrite (parseStringBody_raw c) by assumption.
    rewrite IH by exact Hs. reflexivity.
Qed.

Lemma parseStringBody_quote (s rest : jsstring) :
  JSON.parseStringBody (JSON.quoteBody s ++ 34%N :: rest) = Some (s, rest).
Proof. apply (parseStringBody_quoteBody (length s)). lia. Qed.

(** ** Integers through [JSON.stringify] and [JSON.parse] *)

Lemma isDigitOf_10 (c : N) :
  isDigitOf 10 c ->
  JSON.isDigit c = true /\ digitVal c = Z.of_N c - 48 /\ (c =? 45)%N = false.
Proof.
  intros (d & Hd & ->). unfold JS.digitChar.
  assert ((d <? 10) = true) as -> by (apply Z.ltb_lt; lia).
  unfold JSON.isDigit, digitVal.
  assert ((Z.to_N (48 + d) <=? 57)%N = true) as -> by (apply N.leb_le; lia).
  assert ((48 <=? Z.to_N (48 + d))%N = true) as -> by (apply N.leb_le; lia).
  repeat split. apply N.eqb_neq. lia.
Qed.

Lemma takeDigits_app (D rest : jsstring) :
  Forall (isDigitOf 10) D -> endsNumber rest ->
  JSON.takeDigits (D ++ rest) = (D, rest).
Proof.
  intros HD Hrest. induction HD as [|c D Hc _ IH]; simpl.
  - destruct rest as [|c rest]; [reflexivity|].
    simpl. destruct Hrest as [-> _]. reflexivity.
  - apply isDigitOf_10 in Hc. destruct Hc as [-> _]. rewrite IH. reflexivity.
Qed.

Lemma digitsValue_valueOf (D : jsstring) :
  Forall (isDigitOf 10) D -> JSON.digitsValue D = valueOf 10 D.
Proof.
  unfold JSON.digitsValue, valueOf. generalize 0.
  intros a HD. revert a. induction HD as [|c D Hc _ IH]; intros a; simpl.
  - reflexivity.
  - apply isDigitOf_10 in Hc. destruct Hc as (_ & -> & _). apply IH.
Qed.

Lemma Qred_integer (z : Z) : Qred (Qmake z 1) = Qmake z 1.
Proof.
  unfold Qred.
  pose proof (Z.ggcd_gcd z 1) as Hg.
  pose proof (Z.ggcd_correct_divisors z 1) as Hd.
  destruct (Z.ggcd z 1) as [g [a b]]. simpl in Hg, Hd.
  rewrite Z.gcd_1_r in Hg. subst g. destruct Hd as [Ha Hb].
  f_equal; [lia|]. assert (b = 1) as -> by lia. reflexivity.
Qed.

Lemma parseFraction_none (rest : jsstring) :
  endsNumber rest -> JSON.parseFraction rest = Some ([], rest).
Proof.
  destruct rest as [|c rest]; [reflexivity|].
  intros (_ & H & _). unfold JSON.parseFraction. simpl. rewrite H. reflexivity.
Qed.

Lemma parseExponent_none (rest : jsstring) :
  endsNumber rest -> JSON.parseExponent rest = Some (0, rest).
Proof.
  destruct rest as [|c rest]; [reflexivity|].
  intros (_ & _ & H). unfold JSON.parseExponent. rewrite H. reflexivity.
Qed.

(** The decimal digits of a non-negative integer read back as a number. *)
Lemma parseUnsigned_digits (neg : bool) (n : Z) (rest : jsstring) :
  0 <= n -> endsNumber rest ->
  JSON.parseUnsigned neg (JS.digits 10 n ++ rest)
  = Some (Qmake (if neg then - n else n) 1, rest).
Proof.
  intros Hn Hrest. unfold JSON.parseUnsigned.
  assert (2 <= 10 <= 36) as H10 by lia.
  pose proof (digits_rendering 10 H10 n Hn) as [Hd Hv Hne Hlead _ _].
  rewrite takeDigits_app by assumption.
  destruct (JS.digits 10 n) as [|d ds] eqn:HD; [congruence|].
  assert ((d =? 48)%N && negb (bool_decide (ds = [])) = false) as ->.
  { destruct (d =? 48)%N eqn:E; [|reflexivity]. apply N.eqb_eq in E. subst d.
    destruct (Z.eq_dec n 0) as [->|Hn0].
    - vm_compute in HD. injection HD as <-. reflexivity.
    - exfalso. apply (Hlead Hn0 48%N ds eq_refl). reflexivity. }
  rewrite parseFraction_none, parseExponent_none by assumption.
  cbv zeta. rewrite List.app_nil_r, digitsValue_valueOf, Hv by assumption.
  change (0 - Z.of_nat (length (@nil N))) with 0.
  change (Qpower (Qmake 10 1) 0) with (Qmake 1 1).
  unfold Qmult. simpl Qnum. simpl Qden.
  rewrite Z.mul_1_r. change (1 * 1)%positive with 1%positive.
  rewrite Qred_integer. reflexivity.
Qed.

Lemma expectChar_minus_digits (n : Z) (rest : jsstring) :
  0 <= n -> JSON.expectChar 45 (JS.digits 10 n ++ rest) = None.
Proof.
  intros Hn. assert (2 <= 10 <= 36) as H10 by lia.
  pose proof (digits_rendering 10 H10 n Hn) as [Hd _ Hne _ _ _].
  destruct (JS.digits 10 n) as [|d ds]; [congruence|].
  apply Forall_cons in Hd. destruct Hd as [Hd _].
  apply isDigitOf_10 in Hd. destruct Hd as (_ & _ & Hd).
  simpl. rewrite Hd. reflexivity.
Qed.

(** The decimal rendering of an integer reads back as that integer. *)
Lemma parseNumber_toString (z : Z) (rest : jsstring) :
  endsNumber rest ->
  JSON.parseNumber (JS.Number_toString 10 z ++ rest) = Some (inject_Z z, rest).
Proof.
  intros Hrest. unfold JSON.parseNumber, JS.Number_toString, inject_Z.
  destruct (z <? 0) eqn:E.
  - apply Z.ltb_lt in E.
    change (JSON.expectChar 45 ((45%N :: JS.digits 10 (- z)) ++ rest))
      with (Some (JS.digits 10 (- z) ++ rest)).
    cbv beta iota.
    rewrite (parseUnsigned_digits true (- z) rest) by (assumption || lia).
    rewrite Z.opp_involutive. reflexivity.
  - apply Z.ltb_ge in E. rewrite expectChar_minus_digits by exact E.
    apply (parseUnsigned_digits false z rest); assumption.
Qed.

(** No rendering of an integer starts with a character that opens another
    kind of value, or with white space. *)
Lemma Number_toString_head (z : Z) :
  exists c s, JS.Number_toString 10 z = c :: s /\
              (c = 45%N \/ JSON.isDigit c = true).
Proof.
  assert (2 <= 10 <= 36) as H10 by lia.
  unfold JS.Number_toString. destruct (z <? 0) eqn:E.
  - exists 45%N, (JS.digits 10 (- z)). split; [reflexivity | left; reflexivity].
  - apply Z.ltb_ge in E.
    pose proof (digits_rendering 10 H10 z E) as [Hd _ Hne _ _ _].
    destruct (JS.digits 10 z) as [|d ds]; [congruence|].
    exists d, ds. split; [reflexivity|]. right.
    apply Forall_cons in Hd. destruct Hd as [Hd _].
    apply isDigitOf_10 in Hd. apply Hd.
Qed.

(** ** The task list through [JSON.stringify] and [JSON.parse] *)

Lemma todoText_app (t : Todo) (a b : jsstring) : todoText t a ++ b = todoText t (a ++ b).
Proof.
  unfold todoText. destruct (completed t); simpl;
    repeat (rewrite <- List.app_assoc; simpl); reflexivity.
Qed.

Lemma stringify_jsTodo (t : Todo) :
  validTodo t -> JSON.stringify (jsTodo t) = Some (todoText t []).
Proof.
  intros Hv.
  unfold jsTodo, todoText. cbn [JSON.stringify List.map JSON.sequenceOpt List.fold_right fst snd].
  unfold JSON.numberToString, inject_Z. cbn [Qden Qnum Pos.eqb andb].
  assert ((Z.abs (createdAt t) <=? JS.MAX_SAFE_INTEGER) = true) as ->.
  { apply Z.leb_le. unfold validTodo in Hv. lia. }
  destruct (completed t); cbn [JSON.joinComma List.map List.concat];
    unfold JSON.quote; simpl;
    repeat (rewrite <- List.app_assoc; simpl); reflexivity.
Qed.

Lemma sequenceOpt_todos (ts : list Todo) :
  Forall validTodo ts ->
  JSON.sequenceOpt (List.map JSON.stringify (List.map jsTodo ts))
  = Some (List.map (fun t => todoText t []) ts).
Proof.
  induction 1 as [|t ts Ht _ IH]; [reflexivity|].
  cbn [List.map JSON.sequenceOpt List.fold_right].
  unfold JSON.sequenceOpt in IH. rewrite IH, stringify_jsTodo by exact Ht. reflexivity.
Qed.

Lemma joinComma_todos (ts : list Todo) (rest : jsstring) :
  JSON.joinComma (List.map (fun t => todoText t []) ts) ++ rest = todosText ts rest.
Proof.
  destruct ts as [|t ts]; [reflexivity|].
  revert t. induction ts as [|u ts IH]; intros t.
  - simpl. rewrite List.app_nil_r. apply todoText_app.
  - specialize (IH u). cbn [List.map JSON.joinComma List.concat] in IH |- *.
    change (todosText (t :: u :: ts) rest)
      with (todoText t (44%N :: todosText (u :: ts) rest)).
    rewrite <- IH.
    rewrite <- List.app_assoc, todoText_app. simpl. rewrite <- List.app_assoc. reflexivity.
Qed.

(** What [JSON.stringify] writes for a list of tasks. 91 and 93 are the
    brackets. *)
Lemma stringify_jsTodos (ts : list Todo) :
  Forall validTodo ts ->
  JSON.stringify (jsTodos ts) = Some (91%N :: todosText ts [93%N]).
Proof.
  intros Hv. unfold jsTodos. cbn [JSON.stringify].
  rewrite sequenceOpt_todos by exact Hv. rewrite joinComma_todos. reflexivity.
Qed.

(** *** Reading the text back *)

Lemma parseValue_string (f : nat) (s rest : jsstring) :
  JSON.parseValue (S f) (JSON.quote s ++ rest) = Some (JStr s, rest).
Proof.
  unfold JSON.quote. cbn [app]. rewrite <- List.app_assoc. cbn [app].
  cbn [JSON.parseValue JSON.skipWs].
  change (JSON.isJsonWs 34) with false. cbv beta iota.
  change (34 =? 123)%N with false. change (34 =? 91)%N with false.
  change (34 =? 34)%N with true. cbv beta iota.
  rewrite parseStringBody_quote. reflexivity.
Qed.

Lemma parseValue_bool (f : nat) (b : bool) (rest : jsstring) :
  JSON.parseValue (S f) (JS.lit (if b then "true" else "false") ++ rest)
  = Some (JBool b, rest).
Proof. destruct b; reflexivity. Qed.

(** *** Safe integers are binary64 *)

Lemma nearestEven_whole (a : Z) : Binary64.nearestEven a 1 = a.
Proof.
  unfold Binary64.nearestEven. rewrite Z.div_1_r, Z.mod_1_r. reflexivity.
Qed.

Lemma exponent_whole (n : Z) : 0 < n -> Binary64.exponent n 1 = Z.log2 n.
Proof.
  intros Hpos. pose proof (Z.log2_spec n Hpos) as [Hlow _].
  pose proof (Z.log2_nonneg n) as Hnn.
  unfold Binary64.exponent, Binary64.scaled.
  change (Z.log2 1) with 0. rewrite Z.sub_0_r.
  destruct (Z.leb_spec 0 (Z.log2 n)) as [_|]; [|lia].
  rewrite Z.mul_1_l.
  destruct (Z.ltb_spec n (2 ^ Z.log2 n)) as [|_]; [lia|reflexivity].
Qed.

(** A positive integer below [2^53] is a binary64. *)
Lemma roundPositive_safe (n : Z) :
  0 < n <= JS.MAX_SAFE_INTEGER ->
  Binary64.roundPositive n 1 = Some (inject_Z n).
Proof.
  intros [Hpos Hmax].
  assert (0 <= Z.log2 n < 53) as He.
  { split; [apply Z.log2_nonneg|]. apply Z.log2_lt_pow2; [exact Hpos|].
    apply Z.le_lt_trans with (m := JS.MAX_SAFE_INTEGER); [exact Hmax | reflexivity]. }
  unfold Binary64.roundPositive. rewrite exponent_whole by exact Hpos.
  rewrite Z.max_l by lia.
  unfold Binary64.scaled.
  destruct (Z.leb_spec 0 (Z.log2 n - 52)) as [Hp|Hp].
  - assert (Z.log2 n - 52 = 0) as -> by lia.
    change (1 * 2 ^ 0) with 1. rewrite nearestEven_whole.
    change (2 ^ 0) with 1. rewrite Z.mul_1_r.
    destruct (Z.leb_spec (2 ^ 1024) n) as [Hbig|_]; [|reflexivity].
    assert (JS.MAX_SAFE_INTEGER < 2 ^ 1024) by reflexivity. lia.
  - rewrite nearestEven_whole. f_equal.
    rewrite <- (inject_Z_Qred n). apply Qred_complete.
    unfold Qeq, inject_Z. cbn [Qnum Qden].
    rewrite Z2Pos.id by (apply Z.pow_pos_nonneg; lia). lia.
Qed.

Lemma round_safe (z : Z) :
  - JS.MAX_SAFE_INTEGER <= z <= JS.MAX_SAFE_INTEGER ->
  Binary64.round (inject_Z z) = Some (inject_Z z).
Proof.
  intros Hz. unfold Binary64.round, inject_Z. cbn [Qnum Qden].
  destruct z as [|n|n]; [reflexivity| |].
  - apply roundPositive_safe. lia.
  - rewrite roundPositive_safe by lia. reflexivity.
Qed.

Lemma numberOf_safe (z : Z) :
  - JS.MAX_SAFE_INTEGER <= z <= JS.MAX_SAFE_INTEGER ->
  JSON.numberOf (inject_Z z) = JNum (inject_Z z).
Proof. intros Hz. unfold JSON.numberOf. rewrite round_safe by exact Hz. reflexivity. Qed.

Lemma parseValue_number (f : nat) (z : Z) (rest : jsstring) :
  - JS.MAX_SAFE_INTEGER <= z <= JS.MAX_SAFE_INTEGER ->
  endsNumber rest ->
  JSON.parseValue (S f) (JS.Number_toString 10 z ++ rest) = Some (JNum (inject_Z z), rest).
Proof.
  intros Hz Hrest. rewrite <- (numberOf_safe z Hz).
  pose proof (parseNumber_toString z rest Hrest) as Hnum.
  destruct (Number_toString_head z) as (c & s & E & Hc).
  rewrite E in Hnum |- *. cbn [app] in Hnum |- *.
  assert (JSON.isJsonWs c = false /\ (c =? 123)%N = false /\ (c =? 91)%N = false /\
          (c =? 34)%N = false /\ (c =? 116)%N = false /\ (c =? 102)%N = false /\
          (c =? 110)%N = false) as (W & E1 & E2 & E3 & E4 & E5 & E6).
  { destruct Hc as [->|Hc]; [repeat split; reflexivity|].
    unfold JSON.isDigit in Hc. apply andb_true_iff in Hc. destruct Hc as [Hlo Hhi].
    apply N.leb_le in Hlo, Hhi. unfold JSON.isJsonWs.
    repeat split; try (apply N.eqb_neq; lia).
    repeat (apply orb_false_intro); apply N.eqb_neq; lia. }
  cbn [JSON.parseValue JSON.skipWs]. rewrite W, E1, E2, E3, E4, E5, E6, Hnum. reflexivity.
Qed.

Lemma parseMembers_key (f : nat) (k r2 : jsstring) :
  JSON.parseMembers (S f) (JSON.quote k ++ 58%N :: r2) =
    match JSON.parseValue f r2 with
    | None => None
    | Some (v, r3) =>
        match JSON.expectChar 44 (JSON.skipWs r3) with
        | Some r4 =>
            match JSON.parseMembers f r4 with
            | Some (ms, r5) => Some ((k, v) :: ms, r5)
            | None => None
            end
        | None =>
            match JSON.expectChar 125 (JSON.skipWs r3) with
            | Some r4 => Some ([(k, v)], r4)
            | None => None
            end
        end
    end.
Proof.
  unfold JSON.quote. cbn [app]. rewrite <- List.app_assoc. cbn [app].
  cbn [JSON.parseMembers JSON.skipWs].
  change (JSON.isJsonWs 34) with false. cbv beta iota.
  change (JSON.expectChar 34 (34%N :: JSON.quoteBody k ++ 34%N :: 58%N :: r2))
    with (Some (JSON.quoteBody k ++ 34%N :: 58%N :: r2)).
  cbv beta iota. rewrite parseStringBody_quote. reflexivity.
Qed.

Lemma parseMembers_more (f : nat) (k r2 r4 : jsstring) (v : json) :
  JSON.parseValue f r2 = Some (v, 44%N :: r4) ->
  JSON.parseMembers (S f) (JSON.quote k ++ 58%N :: r2) =
    match JSON.parseMembers f r4 with
    | Some (ms, r5) => Some ((k, v) :: ms, r5)
    | None => None
    end.
Proof. intros H. rewrite parseMembers_key, H. reflexivity. Qed.

Lemma parseMembers_last (f : nat) (k r2 r4 : jsstring) (v : json) :
  JSON.parseValue f r2 = Some (v, 125%N :: r4) ->
  JSON.parseMembers (S f) (JSON.quote k ++ 58%N :: r2) = Some ([(k, v)], r4).
Proof. intros H. rewrite parseMembers_key, H. reflexivity. Qed.

Lemma parseValue_object (f : nat) (k s : jsstring) :
  JSON.parseValue (S f) (123%N :: JSON.quote k ++ s) =
    match JSON.parseMembers f (JSON.quote k ++ s) with
    | Some (ms, r') => Some (JObj (JSON.objectOf ms), r')
    | None => None
    end.
Proof. reflexivity. Qed.

(** The text of a task reads back as the task, whatever follows. *)
Lemma parseValue_todo (f : nat) (t : Todo) (rest : jsstring) :
  validTodo t ->
  JSON.parseValue (6 + f) (todoText t rest) = Some (jsTodo t, rest).
Proof.
  intros Hv.
  unfold todoText. change (6 + f)%nat with (S (S (S (S (S (S f)))))).
  rewrite parseValue_object.
  erewrite parseMembers_more by apply parseValue_string.
  erewrite parseMembers_more by apply parseValue_string.
  erewrite parseMembers_more by apply parseValue_bool.
  erewrite parseMembers_last by (apply parseValue_number; [exact Hv | repeat split]).
  reflexivity.
Qed.

Lemma todosText_cons (t : Todo) (ts : list Todo) (rest : jsstring) :
  todosText (t :: ts) rest =
    todoText t (match ts with [] => rest | _ :: _ => 44%N :: todosText ts rest end).
Proof. destruct ts; reflexivity. Qed.

Lemma parseElements_todos (ts : list Todo) :
  forall (t : Todo) (f : nat) (rest : jsstring),
  Forall validTodo (t :: ts) ->
  JSON.parseElements (7 + length ts + f) (todosText (t :: ts) (93%N :: rest))
  = Some (List.map jsTodo (t :: ts), rest).
Proof.
  induction ts as [|u ts IH]; intros t f rest Hv; rewrite todosText_cons;
    apply Forall_cons_1 in Hv as [Ht Hv].
  - change (7 + length (@nil Todo) + f)%nat with (S (6 + f)).
    cbn [JSON.parseElements]. rewrite parseValue_todo by exact Ht. reflexivity.
  - change (7 + length (u :: ts) + f)%nat with (S (6 + (S (length ts + f)))).
    cbn [JSON.parseElements]. rewrite parseValue_todo by exact Ht.
    change (JSON.expectChar 44 (JSON.skipWs (44%N :: todosText (u :: ts) (93%N :: rest))))
      with (Some (todosText (u :: ts) (93%N :: rest))).
    cbv beta iota.
    change (6 + S (length ts + f))%nat with (7 + length ts + f)%nat.
    rewrite IH by exact Hv. reflexivity.
Qed.

Lemma todoText_length (t : Todo) (rest : jsstring) :
  (7 + length rest <= length (todoText t rest))%nat.
Proof.
  unfold todoText, JSON.quote.
  repeat first [rewrite length_app | rewrite length_cons]. lia.
Qed.

Lemma todosText_length (ts : list Todo) :
  forall (t : Todo) (rest : jsstring),
  (7 + length ts <= length (todosText (t :: ts) rest))%nat.
Proof.
  induction ts as [|u ts IH]; intros t rest; rewrite todosText_cons.
  - pose proof (todoText_length t rest). cbn [length]. lia.
  - pose proof (todoText_length t (44%N :: todosText (u :: ts) rest)) as H.
    specialize (IH u rest). cbn [length] in H |- *. lia.
Qed.

(** [JSON.parse] undoes [JSON.stringify] on a list of tasks. *)
Lemma parse_stringify_todos (ts : list Todo) :
  Forall validTodo ts ->
  exists s, JSON.stringify (jsTodos ts) = Some s /\
            JS.truthy s = true /\
            JSON.parse s = Some (jsTodos ts).
Proof.
  intros Hv. exists (91%N :: todosText ts [93%N]).
  split; [apply stringify_jsTodos, Hv|]. split; [reflexivity|].
  destruct ts as [|t ts]; [reflexivity|].
  unfold JSON.parse, jsTodos.
  pose proof (todosText_length ts t [93%N]) as Hlen.
  assert (exists extra, (2 * length (91%N :: todosText (t :: ts) [93%N])
                         = 7 + length ts + extra)%nat) as [extra ->].
  { exists (2 * length (91%N :: todosText (t :: ts) [93%N]) - 7 - length ts)%nat.
    cbn [length]. lia. }
  cbn [JSON.parseValue JSON.skipWs].
  change (JSON.isJsonWs 91) with false. cbv beta iota.
  change (91 =? 123)%N with false. change (91 =? 91)%N with true. cbv beta iota.
  rewrite todosText_cons. unfold todoText at 1.
  cbn [JSON.skipWs]. change (JSON.isJsonWs 123) with false. cbv beta iota.
  cbn [JSON.expectChar]. change (123 =? 93)%N with false. cbv beta iota.
  fold (todoText t (match ts with [] => [93%N] | _ :: _ => 44%N :: todosText ts [93%N] end)).
  rewrite <- todosText_cons.
  rewrite parseElements_todos by exact Hv. reflexivity.
Qed.

(** ** Saving and loading *)


Lemma getItem_setItem (k v : jsstring) (w : World) :
  run (getItem k) (exec (setItem k v) w) = Some v.
Proof. unfold run, exec, getItem, setItem. simpl. apply lookup_insert_eq. Qed.

(** ** Finite numbers through [JSON.stringify] and [JSON.parse] *)

Lemma takeDigits_stop (D rest : jsstring) :
  Forall (isDigitOf 10) D ->
  match rest with [] => True | c :: _ => JSON.isDigit c = false end ->
  JSON.takeDigits (D ++ rest) = (D, rest).
Proof.
  intros HD Hrest. induction HD as [|c D Hc _ IH]; simpl.
  - destruct rest as [|c rest]; [reflexivity|]. simpl. rewrite Hrest. reflexivity.
  - apply isDigitOf_10 in Hc. destruct Hc as [-> _]. rewrite IH. reflexivity.
Qed.

Lemma isDigitOf_zero : isDigitOf 10 48%N.
Proof. exists 0. split; [lia | reflexivity]. Qed.

Lemma zeros_digits (z : nat) : Forall (isDigitOf 10) (List.repeat 48%N z).
Proof. induction z; simpl; constructor; [apply isDigitOf_zero | assumption]. Qed.

Lemma digitsValue_acc (D : jsstring) (a : Z) :
  List.fold_left (fun a c => a * 10 + (Z.of_N c - 48)) D a
  = a * 10 ^ Z.of_nat (length D) + JSON.digitsValue D.
Proof.
  unfold JSON.digitsValue. revert a. induction D as [|c D IH]; intros a.
  - simpl. lia.
  - cbn [List.fold_left length]. rewrite IH, (IH (0 * 10 + (Z.of_N c - 48))).
    rewrite Nat2Z.inj_succ, Z.pow_succ_r by lia. lia.
Qed.

Lemma digitsValue_app (D D' : jsstring) :
  JSON.digitsValue (D ++ D')
  = JSON.digitsValue D * 10 ^ Z.of_nat (length D') + JSON.digitsValue D'.
Proof.
  unfold JSON.digitsValue at 1. rewrite List.fold_left_app.
  fold (JSON.digitsValue D). apply digitsValue_acc.
Qed.

Lemma digitsValue_zeros (z : nat) : JSON.digitsValue (List.repeat 48%N z) = 0.
Proof.
  induction z as [|z IH]; [reflexivity|].
  change (List.repeat 48%N (S z)) with ([48%N] ++ List.repeat 48%N z).
  rewrite digitsValue_app, IH. reflexivity.
Qed.

(** What is known of the decimal digits of a positive integer. *)
Lemma digits10_facts (s : Z) :
  0 < s ->
  Forall (isDigitOf 10) (JS.digits 10 s) /\
  JSON.digitsValue (JS.digits 10 s) = s /\
  exists d more, JS.digits 10 s = d :: more /\ d <> 48%N /\ JSON.isDigit d = true.
Proof.
  intros Hs. assert (2 <= 10 <= 36) as H10 by lia.
  pose proof (digits_rendering 10 H10 s (Z.lt_le_incl _ _ Hs)) as [Hd Hv Hne Hlead _ _].
  split; [exact Hd|]. split; [rewrite digitsValue_valueOf by exact Hd; exact Hv|].
  destruct (JS.digits 10 s) as [|d more]; [congruence|].
  exists d, more. split; [reflexivity|]. split.
  - apply (Hlead ltac:(lia) d more eq_refl).
  - apply Forall_cons in Hd. destruct Hd as [Hd _]. apply isDigitOf_10 in Hd. apply Hd.
Qed.

Lemma endsNumber_stop (rest : jsstring) :
  endsNumber rest -> match rest with [] => True | c :: _ => JSON.isDigit c = false end.
Proof. destruct rest; [trivial|]. intros [H _]. exact H. Qed.

(** What [parseUnsigned] returns, from what its parts find. *)
Lemma parseUnsigned_parts (neg : bool) (s1 : jsstring) (d : N)
    (ds s2 fs s3 s4 : jsstring) (ex : Z) :
  JSON.takeDigits s1 = (d :: ds, s2) ->
  (d =? 48)%N && negb (bool_decide (ds = [])) = false ->
  JSON.parseFraction s2 = Some (fs, s3) ->
  JSON.parseExponent s3 = Some (ex, s4) ->
  JSON.parseUnsigned neg s1
  = Some (Qred (Qmult (Qmake (if neg then - JSON.digitsValue ((d :: ds) ++ fs)
                              else JSON.digitsValue ((d :: ds) ++ fs)) 1)
                      (Qpower (Qmake 10 1) (ex - Z.of_nat (length fs)))),
          s4).
Proof.
  intros H1 H2 H3 H4. unfold JSON.parseUnsigned. rewrite H1, H2, H3, H4. reflexivity.
Qed.

Lemma parseFraction_digits (D rest : jsstring) :
  D <> [] -> Forall (isDigitOf 10) D ->
  match rest with [] => True | c :: _ => JSON.isDigit c = false end ->
  JSON.parseFraction (46%N :: D ++ rest) = Some (D, rest).
Proof.
  intros Hne HD Hrest. unfold JSON.parseFraction.
  change (JSON.expectChar 46 (46%N :: D ++ rest)) with (Some (D ++ rest)).
  cbv beta iota. rewrite takeDigits_stop by assumption.
  destruct D; [congruence | reflexivity].
Qed.

Lemma parseExponent_digits (a : Z) (minus : bool) (rest : jsstring) :
  0 <= a -> endsNumber rest ->
  JSON.parseExponent (101%N :: (if minus then 45%N else 43%N) :: JS.digits 10 a ++ rest)
  = Some (if minus then - a else a, rest).
Proof.
  intros Ha Hrest. assert (2 <= 10 <= 36) as H10 by lia.
  pose proof (digits_rendering 10 H10 a Ha) as [Hd Hv Hne _ _ _].
  unfold JSON.parseExponent.
  change ((101 =? 101)%N || (101 =? 69)%N) with true. cbv beta iota.
  assert (JSON.takeDigits (JS.digits 10 a ++ rest) = (JS.digits 10 a, rest)) as Htake
    by (apply takeDigits_app; assumption).
  assert (JSON.digitsValue (JS.digits 10 a) = a) as Hval
    by (rewrite digitsValue_valueOf by exact Hd; exact Hv).
  destruct minus.
  - change (JSON.expectChar 45 (45%N :: JS.digits 10 a ++ rest))
      with (Some (JS.digits 10 a ++ rest)).
    cbv beta iota. rewrite Htake.
    destruct (JS.digits 10 a) as [|c D] eqn:E; [congruence|]. rewrite Hval. reflexivity.
  - change (JSON.expectChar 45 (43%N :: JS.digits 10 a ++ rest)) with (@None jsstring).
    change (JSON.expectChar 43 (43%N :: JS.digits 10 a ++ rest))
      with (Some (JS.digits 10 a ++ rest)).
    cbv beta iota. rewrite Htake.
    destruct (JS.digits 10 a) as [|c D] eqn:E; [congruence|]. rewrite Hval. reflexivity.
Qed.

(** The value a literal stands for does not depend on where its point is. *)
Lemma literal_shift (m z : Z) :
  0 <= z ->
  Qred (Qmult (Qmake (m * 10 ^ z) 1) (Qpower (Qmake 10 1) 0))
  = Qred (Qmult (Qmake m 1) (Qpower (Qmake 10 1) z)).
Proof.
  intros Hz. apply Qred_complete.
  change (Qmake (m * 10 ^ z) 1) with (inject_Z (m * 10 ^ z)).
  change (Qmake m 1) with (inject_Z m). change (Qmake 10 1) with (inject_Z 10).
  rewrite inject_Z_mult, (Zpower_Qpower 10 z Hz).
  change (Qpower (inject_Z 10) 0) with (inject_Z 1). ring.
Qed.

(** The text [format] writes for the digits of [s] and the exponent [e]
    reads back as the decimal [s * 10^e], in each of the four notations. *)
Lemma parseUnsigned_format (neg : bool) (s e : Z) (rest : jsstring) :
  0 < s -> endsNumber rest ->
  JSON.parseUnsigned neg
    (Binary64.format (JS.digits 10 s) (e + Z.of_nat (length (JS.digits 10 s))) ++ rest)
  = Some (Qred (Qmult (Qmake (if neg then - s else s) 1) (Qpower (Qmake 10 1) e)), rest).
Proof.
  intros Hs Hrest.
  destruct (digits10_facts s Hs) as (Hd & Hv & d & more & HD & Hd0 & Hdig).
  pose proof (endsNumber_stop rest Hrest) as Hstop.
  assert ((d =? 48)%N = false) as Hd48 by (apply N.eqb_neq; exact Hd0).
  rewrite HD in *. clear HD.
  apply Forall_cons in Hd. destruct Hd as [Hd1 Hmore].
  unfold Binary64.format. cbn [length]. rewrite Nat2Z.inj_succ.
  set (k := Z.succ (Z.of_nat (length more))).
  assert (k = Z.of_nat (length more) + 1) as Hk by (unfold k; lia).
  destruct ((k <=? e + k) && (e + k <=? 21)) eqn:C1.
  - (* digits, then zeros *)
    apply andb_true_iff in C1. destruct C1 as [C1 _]. apply Z.leb_le in C1.
    replace (e + k - k) with e by lia.
    rewrite <- List.app_assoc.
    rewrite (parseUnsigned_parts neg _ d (more ++ List.repeat 48%N (Z.to_nat e))
               rest [] rest rest 0).
    + rewrite List.app_nil_r.
      change (d :: more ++ List.repeat 48%N (Z.to_nat e))
        with ((d :: more) ++ List.repeat 48%N (Z.to_nat e)).
      rewrite digitsValue_app, Hv, digitsValue_zeros, List.repeat_length, Z2Nat.id by lia.
      replace (if neg then - (s * 10 ^ e + 0) else s * 10 ^ e + 0)
        with ((if neg then - s else s) * 10 ^ e) by (destruct neg; lia).
      change (0 - Z.of_nat (length (@nil N))) with 0.
      rewrite literal_shift by lia. reflexivity.
    + change (d :: more ++ List.repeat 48%N (Z.to_nat e))
        with ((d :: more) ++ List.repeat 48%N (Z.to_nat e)).
      rewrite List.app_assoc. apply takeDigits_app; [|exact Hrest].
      apply Forall_app. split; [constructor; assumption | apply zeros_digits].
    + rewrite Hd48. reflexivity.
    + apply parseFraction_none, Hrest.
    + apply parseExponent_none, Hrest.
  - destruct ((0 <? e + k) && (e + k <=? 21)) eqn:C2.
    + (* digits around a point *)
      apply andb_true_iff in C2. destruct C2 as [C2 C2']. apply Z.ltb_lt in C2.
      apply Z.leb_le in C2'.
      assert (e + k < k) as Hlt.
      { apply andb_false_iff in C1. destruct C1 as [C1|C1];
          [apply Z.leb_gt in C1; lia | apply Z.leb_gt in C1; lia]. }
      assert (exists j, Z.to_nat (e + k) = S j /\ (j < length more)%nat) as (j & Hj & Hjlt).
      { exists (Z.to_nat (e + k - 1)). split; lia. }
      rewrite Hj. cbn [take drop]. rewrite <- List.app_assoc. cbn [app].
      rewrite (parseUnsigned_parts neg _ d (take j more)
                 (46%N :: drop j more ++ rest) (drop j more) rest rest 0).
      * change ((d :: take j more) ++ drop j more) with (d :: take j more ++ drop j more).
        rewrite take_drop, Hv.
        replace (0 - Z.of_nat (length (drop j more))) with e
          by (rewrite length_drop; lia).
        reflexivity.
      * apply (takeDigits_stop (d :: take j more) (46%N :: drop j more ++ rest)).
        -- constructor; [exact Hd1 | apply Forall_take, Hmore].
        -- reflexivity.
      * rewrite Hd48. reflexivity.
      * apply parseFraction_digits; [|apply Forall_drop, Hmore | exact Hstop].
        intros E. apply (f_equal length) in E. rewrite length_drop in E. simpl in E. lia.
      * apply parseExponent_none, Hrest.
    + destruct ((-6 <? e + k) && (e + k <=? 0)) eqn:C3.
      * (* a zero, the point, zeros, digits *)
        apply andb_true_iff in C3. destruct C3 as [C3 C3']. apply Z.ltb_lt in C3.
        apply Z.leb_le in C3'.
        cbn [app]. rewrite <- List.app_assoc.
        rewrite (parseUnsigned_parts neg _ 48%N []
                   (46%N :: List.repeat 48%N (Z.to_nat (- (e + k))) ++ (d :: more) ++ rest)
                   (List.repeat 48%N (Z.to_nat (- (e + k))) ++ d :: more) rest rest 0).
        -- change ([48%N] ++ List.repeat 48%N (Z.to_nat (- (e + k))) ++ d :: more)
             with ([48%N] ++ (List.repeat 48%N (Z.to_nat (- (e + k))) ++ d :: more)).
           rewrite digitsValue_app, (digitsValue_app (List.repeat _ _)), Hv, digitsValue_zeros.
           change (JSON.digitsValue [48%N]) with 0.
           replace (0 * 10 ^ Z.of_nat (length (List.repeat 48%N (Z.to_nat (- (e + k))) ++ d :: more))
                    + (0 * 10 ^ Z.of_nat (length (d :: more)) + s)) with s by lia.
           replace (0 - Z.of_nat (length (List.repeat 48%N (Z.to_nat (- (e + k))) ++ d :: more)))
             with e
             by (rewrite length_app, List.repeat_length; cbn [length]; lia).
           reflexivity.
        -- reflexivity.
        -- reflexivity.
        -- rewrite List.app_assoc.
           apply parseFraction_digits; [| |exact Hstop].
           ++ intros E. apply (f_equal length) in E. rewrite length_app in E.
              cbn [length] in E. lia.
           ++ apply Forall_app. split; [apply zeros_digits | constructor; assumption].
        -- apply parseExponent_none, Hrest.
      * (* the exponent notation *)
        assert (0 <= Z.abs (e + k - 1)) as Habs by lia.
        assert ((if e + k - 1 <? 0 then - Z.abs (e + k - 1) else Z.abs (e + k - 1))
                = e + k - 1) as Hexp.
        { destruct (Z.ltb_spec (e + k - 1) 0); lia. }
        destruct more as [|m0 more'].
        -- cbn [app].
           rewrite (parseUnsigned_parts neg _ d []
                      (101%N :: (if e + k - 1 <? 0 then 45%N else 43%N)
                         :: JS.digits 10 (Z.abs (e + k - 1)) ++ rest)
                      []
                      (101%N :: (if e + k - 1 <? 0 then 45%N else 43%N)
                         :: JS.digits 10 (Z.abs (e + k - 1)) ++ rest)
                      rest (e + k - 1)).
           ++ cbn [app]. rewrite Hv.
              replace (e + k - 1 - Z.of_nat (length (@nil N))) with e
                by (cbn [length] in *; lia).
              reflexivity.
           ++ apply (takeDigits_stop [d]); [constructor; [exact Hd1 | constructor] | reflexivity].
           ++ rewrite Hd48. reflexivity.
           ++ reflexivity.
           ++ rewrite parseExponent_digits by assumption. rewrite Hexp. reflexivity.
        -- cbn [app]. rewrite <- List.app_assoc. cbn [app].
           rewrite (parseUnsigned_parts neg _ d []
                      (46%N :: (m0 :: more') ++
                         101%N :: (if e + k - 1 <? 0 then 45%N else 43%N)
                         :: JS.digits 10 (Z.abs (e + k - 1)) ++ rest)
                      (m0 :: more')
                      (101%N :: (if e + k - 1 <? 0 then 45%N else 43%N)
                         :: JS.digits 10 (Z.abs (e + k - 1)) ++ rest)
                      rest (e + k - 1)).
           ++ change ([d] ++ m0 :: more') with (d :: m0 :: more'). rewrite Hv.
              replace (e + k - 1 - Z.of_nat (length (m0 :: more'))) with e by lia.
              reflexivity.
           ++ apply (takeDigits_stop [d]); [constructor; [exact Hd1 | constructor] | reflexivity].
           ++ rewrite Hd48. reflexivity.
           ++ apply parseFraction_digits; [discriminate | exact Hmore | reflexivity].
           ++ rewrite parseExponent_digits by assumption. rewrite Hexp. reflexivity.
Qed.

(** *** What rounding returns *)

Lemma roundPositive_canonical (n d : Z) (y : Q) :
  Binary64.roundPositive n d = Some y -> Qred y = y.
Proof.
  unfold Binary64.roundPositive.
  destruct (Binary64.scaled n d (Z.max (Binary64.exponent n d) (-1022) - 52)) as [a b].
  destruct (0 <=? Z.max (Binary64.exponent n d) (-1022) - 52).
  - destruct (2 ^ 1024 <=? _); [discriminate|].
    intros E. injection E as <-. apply inject_Z_Qred.
  - intros E. injection E as <-. apply Qcanon.Qred_involutive.
Qed.

(** A rounded value is in lowest terms. *)
Lemma round_canonical (q y : Q) : Binary64.round q = Some y -> Qred y = y.
Proof.
  unfold Binary64.round. destruct (Qnum q) as [|n|n].
  - intros E. injection E as <-. reflexivity.
  - apply roundPositive_canonical.
  - destruct (Binary64.roundPositive (Z.pos n) (Z.pos (Qden q))) as [y'|] eqn:E;
      [|discriminate].
    intros E'. injection E' as <-. rewrite Qred_opp.
    rewrite (roundPositive_canonical _ _ _ E). reflexivity.
Qed.

Lemma canonical_eq (x y : Q) : Qred x = x -> Qred y = y -> x == y -> x = y.
Proof. intros Hx Hy E. rewrite <- Hx, <- Hy. apply Qred_complete, E. Qed.

Lemma gcd_odd_2 (d : Z) : Z.even d = false -> Z.gcd d 2 = 1.
Proof.
  intros Hodd.
  pose proof (Z.gcd_nonneg d 2) as Hnn.
  pose proof (Z.gcd_divide_r d 2) as Hr.
  pose proof (Z.gcd_divide_l d 2) as Hl.
  assert (Z.gcd d 2 <= 2) as Hle by (apply Z.divide_pos_le; [lia | exact Hr]).
  assert (Z.gcd d 2 <> 0) as Hne.
  { intros E. rewrite E in Hr. destruct Hr as [c Hc]. lia. }
  destruct (Z.eq_dec (Z.gcd d 2) 2) as [E|E]; [|lia].
  rewrite E in Hl. destruct Hl as [c Hc].
  rewrite Hc, Z.even_mul in Hodd. simpl in Hodd. rewrite orb_true_r in Hodd. discriminate.
Qed.

(** The positive divisors of a power of two are powers of two. *)
Lemma divisor_pow2 (i : nat) :
  forall d : Z, 0 < d -> (d | 2 ^ Z.of_nat i) -> exists j, 0 <= j /\ d = 2 ^ j.
Proof.
  induction i as [|i IH]; intros d Hd Hdiv.
  - exists 0. split; [lia|]. change (2 ^ Z.of_nat 0) with 1 in Hdiv.
    apply Z.divide_1_r_nonneg in Hdiv; lia.
  - rewrite Nat2Z.inj_succ, Z.pow_succ_r in Hdiv by lia.
    destruct (Z.even d) eqn:Hev.
    + apply Z.even_spec in Hev. destruct Hev as [d' ->].
      apply Z.mul_divide_cancel_l in Hdiv; [|lia].
      destruct (IH d' ltac:(lia) Hdiv) as (j & Hj & ->).
      exists (Z.succ j). split; [lia|]. rewrite Z.pow_succ_r by lia. reflexivity.
    + apply IH; [exact Hd|]. apply (Z.gauss d 2); [exact Hdiv | apply gcd_odd_2, Hev].
Qed.

Lemma Qred_den_divides (q : Q) : (Z.pos (Qden (Qred q)) | Z.pos (Qden q)).
Proof.
  pose proof (Qred_correct q) as E. pose proof (gcd_Qred q) as G.
  unfold Qeq in E.
  apply (Z.gauss _ (Qnum (Qred q))).
  - exists (Qnum q). rewrite E. lia.
  - rewrite Z.gcd_comm. exact G.
Qed.

Lemma roundPositive_den (n d : Z) (y : Q) :
  Binary64.roundPositive n d = Some y -> exists j, 0 <= j /\ Z.pos (Qden y) = 2 ^ j.
Proof.
  unfold Binary64.roundPositive.
  destruct (Binary64.scaled n d (Z.max (Binary64.exponent n d) (-1022) - 52)) as [a b].
  destruct (Z.leb_spec 0 (Z.max (Binary64.exponent n d) (-1022) - 52)) as [Hp|Hp].
  - destruct (2 ^ 1024 <=? _); [discriminate|].
    intros E. injection E as <-. exists 0. split; [lia | reflexivity].
  - intros E. injection E as <-.
    set (p := Z.max (Binary64.exponent n d) (-1022) - 52) in *.
    apply (divisor_pow2 (Z.to_nat (- p))); [lia|].
    pose proof (Qred_den_divides
                  (Binary64.nearestEven a b # Z.to_pos (2 ^ (- p)))) as H.
    cbn [Qden] in H. rewrite Z2Pos.id in H by (apply Z.pow_pos_nonneg; lia).
    rewrite Z2Nat.id by lia. exact H.
Qed.

(** The denominator of a rounded value is a power of two. *)
Lemma round_den (q y : Q) :
  Binary64.round q = Some y -> exists j, 0 <= j /\ Z.pos (Qden y) = 2 ^ j.
Proof.
  unfold Binary64.round. destruct (Qnum q) as [|n|n].
  - intros E. injection E as <-. exists 0. split; [lia | reflexivity].
  - apply roundPositive_den.
  - destruct (Binary64.roundPositive (Z.pos n) (Z.pos (Qden q))) as [y'|] eqn:E;
      [|discriminate].
    intros E'. injection E' as <-. apply (roundPositive_den _ _ _ E).
Qed.

(** On a positive value, rounding the opposite gives the opposite. *)
Lemma round_opp_positive (q : Q) :
  0 < Qnum q -> Binary64.round (Qopp q) = option_map Qopp (Binary64.round q).
Proof.
  intros Hq. unfold Binary64.round, Qopp. cbn [Qnum Qden].
  destruct (Qnum q) as [|n|n]; [lia | reflexivity | lia].
Qed.

(** *** All the digits, and the fewest *)

Lemma decimal_positive (s e : Z) : 0 < s -> 0 < Qnum (Binary64.decimal s e).
Proof.
  intros Hs.
  assert (0 < Binary64.decimal s e)%Q as H.
  { unfold Binary64.decimal. rewrite Qred_correct.
    apply Qmult_lt_0_compat.
    - unfold Qlt, inject_Z. simpl. lia.
    - apply Qpower_0_lt. reflexivity. }
  unfold Qlt in H. simpl in H. lia.
Qed.

Lemma pow10_opp (j : Z) : 0 <= j -> Binary64.pow10 (- j) == / inject_Z (10 ^ j).
Proof.
  intros Hj. unfold Binary64.pow10.
  rewrite Qpower_opp, <- (Zpower_Qpower 10 j Hj). reflexivity.
Qed.

(** All the digits of a positive binary64 read back as it. *)
Lemma allDigits_readsBack (x : Q) :
  0 < Qnum x -> Binary64.round x = Some x ->
  Binary64.readsBack x (fst (Binary64.allDigits x)) (snd (Binary64.allDigits x)) = true.
Proof.
  intros Hpos Hx.
  destruct (round_den x x Hx) as (j & Hj & Hden).
  pose proof (round_canonical x x Hx) as Hcan.
  unfold Binary64.allDigits. cbn [fst snd].
  rewrite Hden, Z.log2_pow2 by exact Hj.
  assert (0 < 5 ^ j) as H5 by (apply Z.pow_pos_nonneg; lia).
  assert (Binary64.decimal (Qnum x * 5 ^ j) (- j) = x) as Hdec.
  { unfold Binary64.decimal. rewrite <- Hcan at 2. apply Qred_complete.
    rewrite pow10_opp by exact Hj.
    assert (0 < 10 ^ j) as H10 by (apply Z.pow_pos_nonneg; lia).
    assert (10 ^ j = 2 ^ j * 5 ^ j) as E10 by (rewrite <- Z.pow_mul_l; reflexivity).
    destruct (10 ^ j) as [|c|c] eqn:Ec; [lia| |lia].
    unfold Qeq, Qmult, Qinv, inject_Z. cbn [Qnum Qden].
    rewrite Hden. rewrite Pos.mul_1_l. lia. }
  unfold Binary64.readsBack. rewrite Hdec, Hx.
  rewrite (Qeq_eq_bool x x (Qeq_refl x)).
  destruct (Z.ltb_spec 0 (Qnum x * 5 ^ j)) as [_|H]; [reflexivity | nia].
Qed.

Lemma shortestAt_readsBack (x : Q) (n k : Z) (r : Z * Z) :
  Binary64.shortestAt x n k = Some r -> Binary64.readsBack x (fst r) (snd r) = true.
Proof.
  unfold Binary64.shortestAt.
  set (lo := Qfloor _).
  set (hi := if lo + 1 =? 10 ^ k then _ else _).
  destruct (Binary64.readsBack x lo (n - k)) eqn:Elo;
    destruct (Binary64.readsBack x (fst hi) (snd hi)) eqn:Ehi;
    repeat match goal with
           | |- context [if ?b then _ else _] => destruct b
           end;
    intros E; try discriminate E; injection E as <-;
    first [exact Elo | exact Ehi].
Qed.

(** The digits the search settles on read back as the number. *)
Lemma shortest_readsBack (x : Q) (fuel : nat) :
  Binary64.readsBack x (fst (Binary64.allDigits x)) (snd (Binary64.allDigits x)) = true ->
  forall n k : Z,
    Binary64.readsBack x (fst (Binary64.shortest fuel x n k))
                         (snd (Binary64.shortest fuel x n k)) = true.
Proof.
  intros Hall. induction fuel as [|fuel IH]; intros n k; cbn [Binary64.shortest].
  - destruct (Binary64.shortestAt x n k) as [r|] eqn:E; [|exact Hall].
    apply (shortestAt_readsBack _ _ _ _ E).
  - destruct (Binary64.shortestAt x n k) as [r|] eqn:E; [|apply IH].
    apply (shortestAt_readsBack _ _ _ _ E).
Qed.

(** *** The text of a finite number reads back as the number *)

Lemma format_head (s n : Z) :
  0 < s ->
  exists c r, Binary64.format (JS.digits 10 s) n = c :: r /\ JSON.isDigit c = true.
Proof.
  intros Hs.
  destruct (digits10_facts s Hs) as (_ & _ & d & more & HD & _ & Hdig).
  rewrite HD. unfold Binary64.format.
  destruct ((Z.of_nat (length (d :: more)) <=? n) && (n <=? 21)).
  - exists d, (more ++ List.repeat 48%N (Z.to_nat (n - Z.of_nat (length (d :: more))))).
    split; [reflexivity | exact Hdig].
  - destruct ((0 <? n) && (n <=? 21)) eqn:C2.
    + apply andb_true_iff in C2. destruct C2 as [C2 _]. apply Z.ltb_lt in C2.
      assert (exists j, Z.to_nat n = S j) as [j ->] by (exists (Z.to_nat (n - 1)); lia).
      cbn [take drop app]. eexists _, _. split; [reflexivity | exact Hdig].
    + destruct ((-6 <? n) && (n <=? 0)).
      * eexists _, _. split; reflexivity.
      * destruct more; eexists _, _; (split; [reflexivity | exact Hdig]).
Qed.

Lemma literal_opp (s e : Z) :
  Qred (Qmult (Qmake (- s) 1) (Qpower (Qmake 10 1) e)) = Qopp (Binary64.decimal s e).
Proof.
  unfold Binary64.decimal, Binary64.pow10. rewrite <- Qred_opp. apply Qred_complete.
  change (Qmake (- s) 1) with (Qopp (inject_Z s)).
  change (Qmake 10 1) with (inject_Z 10). ring.
Qed.

Lemma Qopp_opp (x : Q) : Qopp (Qopp x) = x.
Proof. destruct x as [n d]. unfold Qopp. cbn [Qnum Qden]. rewrite Z.opp_involutive. reflexivity. Qed.

(** The digits of a positive binary64 read back, with or without a minus
    in front. *)
Lemma parseUnsigned_toStringPositive (neg : bool) (x : Q) (rest : jsstring) :
  0 < Qnum x -> Binary64.round x = Some x -> endsNumber rest ->
  (exists c r, Binary64.toStringPositive x = c :: r /\ JSON.isDigit c = true) /\
  exists q, JSON.parseUnsigned neg (Binary64.toStringPositive x ++ rest) = Some (q, rest) /\
            JSON.numberOf q = JNum (if neg then Qopp x else x).
Proof.
  intros Hpos Hx Hrest.
  pose proof (shortest_readsBack x 16 (allDigits_readsBack x Hpos Hx)
                (Binary64.pointPosition x) 1) as Hback.
  unfold Binary64.toStringPositive.
  destruct (Binary64.shortest 16 x (Binary64.pointPosition x) 1) as [s e].
  cbn [fst snd] in Hback. unfold Binary64.readsBack in Hback.
  apply andb_true_iff in Hback. destruct Hback as [Hs Hback]. apply Z.ltb_lt in Hs.
  destruct (Binary64.round (Binary64.decimal s e)) as [y|] eqn:Hy; [|discriminate].
  apply Qeq_bool_eq in Hback.
  assert (y = x) as ->.
  { apply canonical_eq; [apply (round_canonical _ _ Hy) | apply (round_canonical _ _ Hx) | exact Hback]. }
  split; [apply format_head, Hs|].
  rewrite parseUnsigned_format by assumption.
  eexists. split; [reflexivity|].
  destruct neg.
  - rewrite literal_opp. unfold JSON.numberOf.
    rewrite round_opp_positive by (apply decimal_positive, Hs).
    rewrite Hy. reflexivity.
  - change (Qred (Qmult (Qmake s 1) (Qpower (Qmake 10 1) e))) with (Binary64.decimal s e).
    unfold JSON.numberOf. rewrite Hy. reflexivity.
Qed.

(** A character that starts a number starts no other kind of value. *)
Lemma number_start (c : N) :
  c = 45%N \/ JSON.isDigit c = true ->
  JSON.isJsonWs c = false /\ (c =? 123)%N = false /\ (c =? 91)%N = false /\
  (c =? 34)%N = false /\ (c =? 116)%N = false /\ (c =? 102)%N = false /\
  (c =? 110)%N = false.
Proof.
  intros [->|Hc]; [repeat split; reflexivity|].
  unfold JSON.isDigit in Hc. apply andb_true_iff in Hc. destruct Hc as [Hlo Hhi].
  apply N.leb_le in Hlo, Hhi. unfold JSON.isJsonWs.
  repeat split; try (apply N.eqb_neq; lia).
  repeat (apply orb_false_intro); apply N.eqb_neq; lia.
Qed.

Lemma parseValue_toString (f : nat) (x : Q) (rest : jsstring) :
  Qnum x <> 0 -> Binary64.round x = Some x -> endsNumber rest ->
  JSON.parseValue (S f) (Binary64.toString x ++ rest) = Some (JNum x, rest).
Proof.
  intros Hnz Hx Hrest. unfold Binary64.toString.
  destruct (Qnum x) as [|n|n] eqn:Hn; [congruence| |].
  - destruct (parseUnsigned_toStringPositive false x rest) as ((c & r & Hc & Hdig) & q & Hq & Hnum);
      [lia | exact Hx | exact Hrest |].
    rewrite Hc in Hq |- *. cbn [app] in Hq |- *.
    destruct (number_start c (or_intror Hdig)) as (W & E1 & E2 & E3 & E4 & E5 & E6).
    cbn [JSON.parseValue JSON.skipWs]. rewrite W, E1, E2, E3, E4, E5, E6.
    unfold JSON.parseNumber.
    assert (JSON.expectChar 45 (c :: r ++ rest) = None) as ->.
    { unfold JSON.expectChar. unfold JSON.isDigit in Hdig.
      apply andb_true_iff in Hdig. destruct Hdig as [Hlo _]. apply N.leb_le in Hlo.
      assert ((c =? 45)%N = false) as -> by (apply N.eqb_neq; lia). reflexivity. }
    rewrite Hq, Hnum. reflexivity.
  - assert (Binary64.round (Qopp x) = Some (Qopp x)) as Hx'.
    { pose proof (round_opp_positive (Qopp x)) as H. rewrite Qopp_opp, Hx in H.
      destruct (Binary64.round (Qopp x)) as [y|].
      - cbn [option_map] in H. assert (Some x = Some (Qopp y)) as E.
        { apply H. destruct x as [xn xd]. cbn [Qopp Qnum] in Hn |- *. lia. }
        injection E as ->. rewrite Qopp_opp. reflexivity.
      - assert (Some x = None) as E.
        { apply H. destruct x as [xn xd]. cbn [Qopp Qnum] in Hn |- *. lia. }
        discriminate E. }
    destruct (parseUnsigned_toStringPositive true (Qopp x) rest) as (_ & q & Hq & Hnum);
      [destruct x as [xn xd]; cbn [Qopp Qnum] in Hn |- *; lia | exact Hx' | exact Hrest |].
    rewrite Qopp_opp in Hnum.
    cbn [app].
    destruct (number_start 45%N (or_introl eq_refl)) as (W & E1 & E2 & E3 & E4 & E5 & E6).
    cbn [JSON.parseValue JSON.skipWs]. rewrite W, E1, E2, E3, E4, E5, E6.
    unfold JSON.parseNumber.
    change (JSON.expectChar 45 (45%N :: Binary64.toStringPositive (Qopp x) ++ rest))
      with (Some (Binary64.toStringPositive (Qopp x) ++ rest)).
    cbv beta iota. rewrite Hq, Hnum. reflexivity.
Qed.

(** Every finite number is written, and what is written reads back as the
    number. *)
Lemma parseValue_numberToString (x : Q) :
  Binary64.round x = Some x ->
  exists t, JSON.numberToString x = Some t /\
            forall (f : nat) (rest : jsstring),
              endsNumber rest -> JSON.parseValue (S f) (t ++ rest) = Some (JNum x, rest).
Proof.
  intros Hx. pose proof (round_canonical x x Hx) as Hcan.
  unfold JSON.numberToString.
  destruct ((Qden x =? 1)%positive && (Z.abs (Qnum x) <=? JS.MAX_SAFE_INTEGER)) eqn:Hsafe.
  - apply andb_true_iff in Hsafe. destruct Hsafe as [Hden Hmax].
    apply Pos.eqb_eq in Hden. apply Z.leb_le in Hmax.
    eexists. split; [reflexivity|]. intros f rest Hrest.
    assert (x = inject_Z (Qnum x)) as E
      by (destruct x as [xn xd]; cbn [Qden] in Hden; subst xd; reflexivity).
    rewrite E at 2. apply parseValue_number; [lia | exact Hrest].
  - rewrite Hx, (Qeq_eq_bool x x (Qeq_refl x)).
    eexists. split; [reflexivity|]. intros f rest Hrest.
    apply parseValue_toString; [|exact Hx | exact Hrest].
    intros Hz. destruct x as [xn xd]. cbn [Qnum] in Hz. subst xn.
    assert (xd = 1%positive) as -> by (injection Hcan as E; symmetry; exact E).
    discriminate Hsafe.
Qed.

(** *** Lists of tasks with finite timestamps *)

Lemma taskText_app (i t : jsstring) (c : bool) (n a b : jsstring) :
  taskText i t c n a ++ b = taskText i t c n (a ++ b).
Proof.
  unfold taskText. destruct c; simpl;
    repeat (rewrite <- List.app_assoc; simpl); reflexivity.
Qed.

Lemma taskText_length (i t : jsstring) (c : bool) (n rest : jsstring) :
  (7 <= length (taskText i t c n rest))%nat.
Proof.
  unfold taskText, JSON.quote.
  repeat first [rewrite length_app | rewrite length_cons]. lia.
Qed.

(** What is written for a task with a finite timestamp: a text that opens
    with a brace and reads back as the task, whatever follows. *)
Lemma finite_task_text (i t : jsstring) (c : bool) (q : Q) :
  Binary64.round q = Some q ->
  exists p, JSON.stringify (jsTask i t c (JNum q)) = Some p /\
            (exists r, p = 123%N :: r) /\ (7 <= length p)%nat /\
            forall (f : nat) (rest : jsstring),
              JSON.parseValue (6 + f) (p ++ rest) = Some (jsTask i t c (JNum q), rest).
Proof.
  intros Hq. destruct (parseValue_numberToString q Hq) as (nt & Hnt & Hread).
  exists (taskText i t c nt []). split; [|split; [|split]].
  - unfold jsTask, taskText.
    cbn [JSON.stringify List.map JSON.sequenceOpt List.fold_right fst snd].
    rewrite Hnt.
    destruct c; cbn [JSON.joinComma List.map List.concat];
      unfold JSON.quote; simpl;
      repeat (rewrite <- List.app_assoc; simpl); reflexivity.
  - eexists. reflexivity.
  - apply taskText_length.
  - intros f rest. rewrite taskText_app. cbn [app].
    unfold taskText. change (6 + f)%nat with (S (S (S (S (S (S f)))))).
    rewrite parseValue_object.
    erewrite parseMembers_more by apply parseValue_string.
    erewrite parseMembers_more by apply parseValue_string.
    erewrite parseMembers_more by apply parseValue_bool.
    erewrite parseMembers_last by (apply Hread; repeat split).
    reflexivity.
Qed.

Lemma joinComma_cons (p p' : jsstring) (ps : list jsstring) :
  JSON.joinComma (p :: p' :: ps) = p ++ 44%N :: JSON.joinComma (p' :: ps).
Proof. unfold JSON.joinComma. cbn [List.map List.concat app]. reflexivity. Qed.

(** The texts of the tasks of a list, joined by commas, read back as the
    list. *)
Lemma finite_tasks_text (tasks : list json) :
  forall task : json,
  Forall (fun task => exists i t c q,
            Binary64.round q = Some q /\ task = jsTask i t c (JNum q)) (task :: tasks) ->
  exists parts,
    JSON.sequenceOpt (List.map JSON.stringify (task :: tasks)) = Some parts /\
    (exists r, JSON.joinComma parts = 123%N :: r) /\
    (7 + length tasks <= length (JSON.joinComma parts))%nat /\
    forall (f : nat) (rest : jsstring),
      JSON.parseElements (7 + length tasks + f) (JSON.joinComma parts ++ 93%N :: rest)
      = Some (task :: tasks, rest).
Proof.
  induction tasks as [|task' tasks IH]; intros task Hall;
    apply Forall_cons in Hall; destruct Hall as [(i & t & c & q & Hq & ->) Hall];
    destruct (finite_task_text i t c q Hq) as (p & Hp & (r & Hr) & Hlen & Hread).
  - exists [p]. split; [|split; [|split]].
    + cbn [List.map JSON.sequenceOpt List.fold_right]. rewrite Hp. reflexivity.
    + exists r. unfold JSON.joinComma. cbn [List.map List.concat].
      rewrite List.app_nil_r. exact Hr.
    + unfold JSON.joinComma. cbn [List.map List.concat length].
      rewrite List.app_nil_r. lia.
    + intros f rest. unfold JSON.joinComma. cbn [List.map List.concat].
      rewrite List.app_nil_r.
      change (7 + length (@nil json) + f)%nat with (S (6 + f)).
      rewrite parseElements_S, Hread. reflexivity.
  - destruct (IH task' Hall) as (parts & Hparts & (r' & Hr') & Hlen' & Hread').
    destruct parts as [|p' ps]; [discriminate Hr'|].
    exists (p :: p' :: ps). split; [|split; [|split]].
    + cbn [List.map JSON.sequenceOpt List.fold_right] in Hparts |- *.
      unfold JSON.sequenceOpt in Hparts. cbn [List.map] in Hparts.
      rewrite Hparts, Hp. reflexivity.
    + exists (r ++ 44%N :: JSON.joinComma (p' :: ps)).
      rewrite joinComma_cons, Hr. reflexivity.
    + rewrite joinComma_cons, length_app. cbn [length]. lia.
    + intros f rest. rewrite joinComma_cons, <- List.app_assoc. cbn [app].
      change (7 + length (task' :: tasks) + f)%nat
        with (S (6 + (S (length tasks + f)))).
      rewrite parseElements_S, Hread.
      change (JSON.expectChar 44
                (JSON.skipWs (44%N :: JSON.joinComma (p' :: ps) ++ 93%N :: rest)))
        with (Some (JSON.joinComma (p' :: ps) ++ 93%N :: rest)).
      cbv beta iota.
      change (6 + S (length tasks + f))%nat with (7 + length tasks + f)%nat.
      rewrite Hread'. reflexivity.
Qed.

(** [JSON.parse] undoes [JSON.stringify] on a list of tasks whose
    timestamps are finite. *)
Lemma parse_stringify_finite (v : json) :
  isFiniteTaskList v ->
  exists s, JSON.stringify v = Some s /\ JS.truthy s = true /\ JSON.parse s = Some v.
Proof.
  intros (tasks & -> & Hall).
  destruct tasks as [|task tasks].
  - exists (JS.lit "[]"). repeat split.
  - destruct (finite_tasks_text tasks task Hall) as (parts & Hparts & (r & Hr) & Hlen & Hread).
    exists (91%N :: JSON.joinComma parts ++ [93%N]). split; [|split].
    + cbn [JSON.stringify]. rewrite Hparts. reflexivity.
    + reflexivity.
    + unfold JSON.parse.
      assert (exists extra, (2 * length (91%N :: JSON.joinComma parts ++ [93%N])
                             = 7 + length tasks + extra)%nat) as [extra ->].
      { exists (2 * length (91%N :: JSON.joinComma parts ++ [93%N]) - 7 - length tasks)%nat.
        cbn [length]. rewrite length_app. lia. }
      cbn [JSON.parseValue JSON.skipWs].
      change (JSON.isJsonWs 91) with false. cbv beta iota.
      change (91 =? 123)%N with false. change (91 =? 91)%N with true. cbv beta iota.
      assert (JSON.expectChar 93 (JSON.skipWs (JSON.joinComma parts ++ [93%N])) = None) as ->
        by (rewrite Hr; reflexivity).
      rewrite Hread. reflexivity.
Qed.


(** The persistence effect writes every list whose timestamps are
    binary64, safe integers or not, and what it writes reads back as the
    list. *)
Lemma persist_writes (ts : list Todo) (w : World) :
  Forall (fun t => Binary64.round (inject_Z (createdAt t)) = Some (inject_Z (createdAt t))) ts ->
  exists s, localStorage (exec (persist ts) w) !! STORAGE_KEY = Some s /\
            JSON.parse s = Some (jsTodos ts).
Proof.
  intros Hall.
  assert (isFiniteTaskList (jsTodos ts)) as Hfin.
  { exists (List.map jsTodo ts). split; [reflexivity|].
    induction Hall as [|t ts Ht _ IH]; constructor; [|exact IH].
    exists (id t), (text t), (completed t), (inject_Z (createdAt t)).
    split; [exact Ht | reflexivity]. }
  destruct (parse_stringify_finite _ Hfin) as (s & Hs & _ & Hparse).
  exists s. split; [|exact Hparse].
  unfold persist, persistValue. rewrite Hs. apply lookup_insert_eq.
Qed.

(** *** A timestamp that is not finite *)







(** *** The round trip *)





(** *** Numbers and keys beyond those of a task, on samples *)

(** The search for the fewest digits prints a safe integer with all its
    digits. *)
Example toString_safe_samples :
  Binary64.toString (inject_Z 1700000000000) = JS.Number_toString 10 1700000000000 /\
  Binary64.toString (inject_Z (- 42)) = JS.Number_toString 10 (- 42) /\
  Binary64.toString (inject_Z JS.MAX_SAFE_INTEGER)
  = JS.Number_toString 10 JS.MAX_SAFE_INTEGER.
Proof. vm_compute. repeat split. Qed.

(** Literals are rounded to binary64, to an infinity when out of range. *)
Example parse_number_samples :
  JSON.parse (JS.lit "[1e999,-1e999,0.1,9007199254740993,5e-325]")
  = Some (JArr [ JNonFinite PosInfinity; JNonFinite NegInfinity;
                 JNum (3602879701896397 # 36028797018963968);
                 JNum (inject_Z 9007199254740992); JNum (inject_Z 0) ]).
Proof. vm_compute. reflexivity. Qed.

Example stringify_number_samples :
  JSON.stringify (JArr [ JNum (1 # 2); JNum (inject_Z (10 ^ 21)); JNum (inject_Z (2 ^ 53));
                         JNum (1 # 1024); JNum (inject_Z (-123456789012345683968));
                         JNonFinite NaN; JNonFinite NegInfinity ])
  = Some (JS.lit "[0.5,1e+21,9007199254740992,0.0009765625,-123456789012345680000,null,null]").
Proof. vm_compute. reflexivity. Qed.

(** A timestamp beyond the safe integers is written and read back too. *)
Example save_load_beyond_safe :
  let w := mkWorld (fun _ => 0) 0 (fun _ => []) 0 ∅ in
  let ts := [ mkTodo (JS.lit "a") (JS.lit "x") false (2 ^ 53);
              mkTodo (JS.lit "b") (JS.lit "y") true (2 ^ 60) ] in
  run initialTodos (exec (persist ts) w) = jsTodos ts.
Proof. vm_compute. reflexivity. Qed.

(** So is a task whose timestamp is finite and no integer, or very small,
    or very large. *)
Example save_load_finite_samples :
  let w := mkWorld (fun _ => 0) 0 (fun _ => []) 0 ∅ in
  let v := JArr [ jsTask (JS.lit "a") (JS.lit "x") false (JNum (3400000000001 # 2));
                  jsTask (JS.lit "b") (JS.lit "y") true (JNum (- 1 # 1024));
                  jsTask (JS.lit "c") [] true (JNum (inject_Z (2 ^ 1000)));
                  jsTask [] (JS.lit "z") false (JNum (1 # Pos.pow 2 1074)) ] in
  isTaskList v /\ run initialTodos (exec (persistValue v) w) = v.
Proof.
  intros w v. split.
  - exists [ jsTask (JS.lit "a") (JS.lit "x") false (JNum (3400000000001 # 2));
             jsTask (JS.lit "b") (JS.lit "y") true (JNum (- 1 # 1024));
             jsTask (JS.lit "c") [] true (JNum (inject_Z (2 ^ 1000)));
             jsTask [] (JS.lit "z") false (JNum (1 # Pos.pow 2 1074)) ].
    split; [reflexivity|].
    repeat constructor; eexists _, _, _, _; (split; [|reflexivity]); vm_compute; reflexivity.
  - vm_compute. reflexivity.
Qed.

(** The keys of an object come back in the order of property keys: array
    indices first and ascending, then the others as written, a repeated key at
    the place of its first occurrence with its last value. *)
Example parse_key_order :
  let member := fun (k v : jsstring) => JSON.quote k ++ 58%N :: v in
  JSON.parse (123%N :: member (JS.lit "b") (JS.lit "1,") ++ member (JS.lit "2") (JS.lit "2,") ++
              member (JS.lit "a") (JS.lit "3,") ++ member (JS.lit "1") (JS.lit "4,") ++
              member (JS.lit "b") (JS.lit "5,") ++ member (JS.lit "01") (JS.lit "6}"))
  = Some (JObj [ (JS.lit "1", JNum (inject_Z 4)); (JS.lit "2", JNum (inject_Z 2));
                 (JS.lit "b", JNum (inject_Z 5)); (JS.lit "a", JNum (inject_Z 3));
                 (JS.lit "01", JNum (inject_Z 6)) ]).
Proof. vm_compute. reflexivity. Qed.

(** ** Loading what is stored *)

(** The fall-back to the empty list does not cover stored text that is
    JSON but no task list: the initialiser only catches what [JSON.parse]
    throws, so the text [null] makes [null] the initial value of [todos]. *)
Lemma initialTodos_foreign_not_rejected : ~ load_rejects_what_is_no_task_list.
Proof.
  intros H.
  specialize (H (mkWorld (fun _ => 0) 0 (fun _ => []) 0 {[ STORAGE_KEY := JS.lit "null" ]})
                (JS.lit "null") eq_refl).
  assert (run initialTodos
            (mkWorld (fun _ => 0) 0 (fun _ => []) 0 {[ STORAGE_KEY := JS.lit "null" ]})
          = JNull) as E by reflexivity.
  rewrite E in H. discriminate H.
  intros ts Hp. vm_compute in Hp. discriminate Hp.
Qed.

(** The initialiser case by case. It leaves the world as it is. It returns
    the empty list when the key is missing, when the stored text is empty and
    when [JSON.parse] rejects the text; when [JSON.parse] accepts the text it
    returns the parsed value. Accepting does not depend on the fuel of the
    parser: a text that reads as a value followed by white space only, with
    whatever fuel, is accepted. *)
Lemma initialTodos_cases (w : World) :
  exec initialTodos w = w /\
  (localStorage w !! STORAGE_KEY = None -> run initialTodos w = JArr []) /\
  (localStorage w !! STORAGE_KEY = Some [] -> run initialTodos w = JArr []) /\
  (forall blob, localStorage w !! STORAGE_KEY = Some blob ->
                JSON.parse blob = None -> run initialTodos w = JArr []) /\
  (forall blob v, localStorage w !! STORAGE_KEY = Some blob -> blob <> [] ->
                  JSON.parse blob = Some v -> run initialTodos w = v) /\
  (forall blob f v rest,
     localStorage w !! STORAGE_KEY = Some blob ->
     JSON.parseValue f blob = Some (v, rest) -> JSON.skipWs rest = [] ->
     run initialTodos w = v).
Proof.
  unfold initialTodos, run, exec, mbind, M_bind, getItem.
  split; [|split; [|split; [|split; [|split]]]].
  - destruct (localStorage w !! STORAGE_KEY) as [s|]; [|reflexivity].
    destruct (JS.truthy s); [|reflexivity].
    destruct (JSON.parse s); reflexivity.
  - intros ->. reflexivity.
  - intros ->. reflexivity.
  - intros blob -> Hp. rewrite Hp. destruct (JS.truthy blob); reflexivity.
  - intros blob v -> Hne Hp. apply truthy_true_iff in Hne. rewrite Hne, Hp. reflexivity.
  - intros blob f v rest -> Hp Hrest.
    assert (JS.truthy blob = true) as ->.
    { destruct blob; [|reflexivity]. destruct f; discriminate Hp. }
    apply parse_fuel_complete in Hp. unfold JSON.parse. rewrite Hp, Hrest. reflexivity.
Qed.

(** C6. With the text [null] under [STORAGE_KEY] the initialiser does not
    fall back to the empty list: [JSON.parse] accepts the text, nothing is
    thrown for the [catch] to see, and [null] is what [todos] starts as. The
    first render then calls [todos.filter] on a value that has no such method,
    which raises a TypeError. The same happens with the texts of an object, of
    a number and of a boolean. With a missing key and with text that is not
    JSON the initial value is the empty list, as the claim says. *)
Theorem initialTodos_foreign_json_breaks_render :
  let world := fun store => mkWorld (fun _ => 0) 0 (fun _ => []) 0 store in
  let stored := fun blob => world {[ STORAGE_KEY := blob ]} in
  run initialTodos (stored (JS.lit "null")) = JNull /\
  hasFilterMethod (run initialTodos (stored (JS.lit "null"))) = false /\
  run initialTodos (stored (JS.lit "{}")) = JObj [] /\
  hasFilterMethod (run initialTodos (stored (JS.lit "{}"))) = false /\
  run initialTodos (stored (JS.lit "42")) = JNum (inject_Z 42) /\
  hasFilterMethod (run initialTodos (stored (JS.lit "42"))) = false /\
  run initialTodos (stored (JS.lit "true")) = JBool true /\
  hasFilterMethod (run initialTodos (stored (JS.lit "true"))) = false /\
  run initialTodos (world ∅) = JArr [] /\
  run initialTodos (stored (JS.lit "[{")) = JArr [] /\
  hasFilterMethod (JArr []) = true.
Proof. intros world stored. vm_compute. repeat split. Qed.

(** ** Lists with repeated ids *)

Lemma filter_id_interleave (i : jsstring) (l : list Todo) :
  interleave (List.filter (fun t => negb (JS.streq (id t) i)) l)
             (List.filter (fun t => JS.streq (id t) i) l) l.
Proof.
  pose proof (filter_interleave (fun t => negb (JS.streq (id t) i)) l) as H.
  erewrite (List.filter_ext (fun x => negb (negb (JS.streq (id x) i)))) in H; [exact H|].
  intros t. apply negb_involutive.
Qed.

(** C10. Nothing checks the ids of a stored list, so the initial list can
    hold several tasks with one id (the stored text [twinsBlob] loads as a list
    where the first and the third task share an id). On any list,
    [toggleTodo] negates the flag of every task with the id, at every position,
    and leaves the others; [deleteTodo] leaves no task with the id, and the
    list it started from is an interleaving of what it kept and of all the
    tasks with the id. *)
Theorem repeated_ids_all_matches (st : AppState) (i : jsstring) :
  Forall2 (fun t t' => t' = if JS.streq (id t) i then flipped t else t)
          (todos st) (todos (toggleTodo i st)) /\
  Forall (fun t => id t <> i) (todos (deleteTodo i st)) /\
  interleave (todos (deleteTodo i st))
             (List.filter (fun t => JS.streq (id t) i) (todos st)) (todos st) /\
  run initialTodos twinsWorld = jsTodos [twin1; other; twin2] /\
  id twin1 = id twin2 /\
  (forall st0, todos st0 = [twin1; other; twin2] ->
     todos (toggleTodo (id twin1) st0) = [flipped twin1; other; flipped twin2] /\
     todos (deleteTodo (id twin1) st0) = [other]).
Proof.
  split; [|split; [|split; [|split; [|split]]]].
  - unfold toggleTodo, setTodos. simpl.
    induction (todos st) as [|t ts IH]; simpl; constructor; [reflexivity | exact IH].
  - apply filter_id_gone.
  - apply filter_id_interleave.
  - vm_compute. reflexivity.
  - reflexivity.
  - intros st0 H. unfold toggleTodo, deleteTodo, setTodos. simpl. rewrite H.
    split; reflexivity.
Qed.

Lemma repeated_ids_all_matches_witness :
  todos (toggleTodo (JS.lit "a") (mkApp [twin1; other; twin2] [] None [] FAll))
    = [flipped twin1; other; flipped twin2] /\
  todos (deleteTodo (JS.lit "a") (mkApp [twin1; other; twin2] [] None [] FAll)) = [other].
Proof.
  destruct (repeated_ids_all_matches (mkApp [] [] None [] FAll) []) as (_ & _ & _ & _ & _ & H).
  apply (H (mkApp [twin1; other; twin2] [] None [] FAll)). reflexivity.
Defined.

(** * Further properties of the component *)

(** ** Running handlers *)

Lemma run_bind {A B} (m : M A) (k : A -> M B) (w : World) :
  run (m ≫= k) w = run (k (run m w)) (exec m w).
Proof. unfold run, exec, mbind, M_bind. destruct (m w). reflexivity. Qed.

Lemma exec_bind {A B} (m : M A) (k : A -> M B) (w : World) :
  exec (m ≫= k) w = exec (k (run m w)) (exec m w).
Proof. unfold run, exec, mbind, M_bind. destruct (m w). reflexivity. Qed.

Lemma trimStart_keeps (s : jsstring) (c : N) (r : jsstring) :
  s = c :: r -> JS.isTrimmed c = false -> JS.trimStart s = s.
Proof. intros -> Hc. simpl. rewrite Hc. reflexivity. Qed.

(** Trimming a trimmed string changes nothing. *)
Lemma trim_idempotent (s : jsstring) : JS.trim (JS.trim s) = JS.trim s.
Proof.
  destruct (JS.trim s) as [|c r] eqn:E; [reflexivity|].
  pose proof (trim_head s c r E) as Hc.
  unfold JS.trim at 1. rewrite (trimStart_keeps (c :: r) c r eq_refl Hc).
  unfold JS.trimEnd.
  destruct (List.rev (c :: r)) as [|d q] eqn:Er.
  - apply (f_equal (@List.rev N)) in Er. rewrite List.rev_involutive in Er. discriminate Er.
  - assert (c :: r = List.rev q ++ [d]) as Hsplit.
    { rewrite <- (List.rev_involutive (c :: r)), Er. reflexivity. }
    rewrite Hsplit in E. pose proof (trim_last s _ _ E) as Hd.
    rewrite (trimStart_keeps (d :: q) d q eq_refl Hd).
    rewrite <- Er. apply List.rev_involutive.
Qed.

(** Every handler changes the list and the world in one of the five ways
    of [change]. *)
Lemma handle_change (ev : Event) (st : AppState) (w : World) :
  change w (todos st) (exec (handle ev st) w) (todos (run (handle ev st) w)).
Proof.
  assert (forall st0 : AppState,
            change w (todos st0) w (todos (saveEdit st0))) as Hsave.
  { intros st0. unfold saveEdit.
    destruct (editingId st0) as [eid|]; [|apply change_none].
    destruct (JS.truthy eid); [|apply change_none]. simpl.
    destruct (JS.truthy (JS.trim (editText st0))) eqn:E; [|apply change_none].
    apply truthy_true_iff in E.
    apply (change_text w (todos st0) eid (JS.trim (editText st0)) E (trim_idempotent _)). }
  destruct ev as [v| |f|t|t|t|v| |k|t|].
  - apply change_none.
  - unfold handle, addTodo.
    destruct (JS.truthy (JS.trim (newTodo st))) eqn:E; [|apply change_none].
    apply truthy_true_iff in E.
    apply (change_add w (todos st) (JS.trim (newTodo st)) E (trim_idempotent _)).
  - apply change_none.
  - apply change_flip.
  - unfold handle. destruct (completed t); apply change_none.
  - apply change_none.
  - apply change_none.
  - apply Hsave.
  - destruct k; [apply Hsave | apply change_none | apply change_none].
  - apply change_filter.
  - apply change_filter.
Qed.

(** A handler that does not call [setTodos] leaves the list as it is. *)
Lemma handle_same_todos (ev : Event) (st : AppState) (w : World) :
  callsSetTodos ev st = false -> todos (run (handle ev st) w) = todos st.
Proof.
  assert (saveEditSetsTodos st = false -> todos (saveEdit st) = todos st) as Hsave.
  { unfold saveEditSetsTodos, saveEdit.
    destruct (editingId st) as [eid|]; [|reflexivity].
    destruct (JS.truthy eid); [|reflexivity]. simpl.
    intros ->. reflexivity. }
  destruct ev as [v| |f|t|t|t|v| |k|t|]; simpl; intros E;
    try discriminate E; try reflexivity.
  - unfold addTodo, run. rewrite E. reflexivity.
  - destruct (completed t); reflexivity.
  - apply Hsave, E.
  - destruct k; [apply Hsave, E | reflexivity | reflexivity].
Qed.

Lemma change_world (w w' : World) (ts ts' : list Todo) :
  change w ts w' ts' ->
  clock w' = clock w /\ localStorage w' = localStorage w /\ (ticks w <= ticks w')%nat.
Proof. destruct 1; simpl; repeat split; lia. Qed.

Lemma run_dispatch (ev : Event) (st : AppState) (w : World) :
  run (dispatch ev st) w = run (handle ev st) w.
Proof.
  unfold dispatch. rewrite run_bind.
  destruct (callsSetTodos ev st); [rewrite run_bind|]; reflexivity.
Qed.

Lemma exec_dispatch (ev : Event) (st : AppState) (w : World) :
  exec (dispatch ev st) w =
    if callsSetTodos ev st
    then exec (persist (todos (run (handle ev st) w))) (exec (handle ev st) w)
    else exec (handle ev st) w.
Proof.
  unfold dispatch. rewrite exec_bind.
  destruct (callsSetTodos ev st); [rewrite exec_bind|]; reflexivity.
Qed.

Lemma persist_world (ts : list Todo) (w : World) :
  clock (exec (persist ts) w) = clock w /\ ticks (exec (persist ts) w) = ticks w.
Proof. unfold persist, persistValue. destruct (JSON.stringify (jsTodos ts)); split; reflexivity. Qed.

(** What every event keeps, a whole session keeps. *)
Lemma session_invariant (P : AppState -> World -> Prop) :
  (forall ev st w, P st w -> P (run (dispatch ev st) w) (exec (dispatch ev st) w)) ->
  forall evs st w, P st w -> P (run (session evs st) w) (exec (session evs st) w).
Proof.
  intros Hstep evs. induction evs as [|ev evs IH]; intros st w HP.
  - exact HP.
  - cbn [session]. rewrite run_bind, exec_bind. apply IH, Hstep, HP.
Qed.

Lemma Forall_filter_bool {A} (P : A -> Prop) (p : A -> bool) (l : list A) :
  Forall P l -> Forall P (List.filter p l).
Proof.
  intros H. apply Forall_forall. intros x Hx.
  apply list_elem_of_In, List.filter_In in Hx. destruct Hx as [Hx _].
  rewrite Forall_forall in H. apply H, list_elem_of_In, Hx.
Qed.

Lemma Forall_map_on_id (P : Todo -> Prop) (f : Todo -> Todo) (i : jsstring) (l : list Todo) :
  (forall t, P t -> P (f t)) ->
  Forall P l -> Forall P (List.map (fun t => if JS.streq (id t) i then f t else t) l).
Proof.
  intros Hf. induction 1 as [|t l Ht _ IH]; simpl; constructor; [|exact IH].
  destruct (JS.streq (id t) i); [apply Hf|]; exact Ht.
Qed.

(** A property of tasks that negating a flag keeps, that a trimmed non-empty
    text gives or keeps, and that a new task has, is kept by every change. *)
Lemma change_Forall (P : Todo -> Prop) (w w' : World) (ts ts' : list Todo) :
  (forall t, P t -> P (flipped t)) ->
  (forall s t, s <> [] -> JS.trim s = s -> P t -> P (retexted s t)) ->
  (forall s, s <> [] -> JS.trim s = s ->
             P (mkTodo (run generateId w) s false (clock w (S (ticks w))))) ->
  change w ts w' ts' -> Forall P ts -> Forall P ts'.
Proof.
  intros Hflip Htext Hadd Hch Hts. destruct Hch as [|p|i|i s Hs1 Hs2|s Hs1 Hs2].
  - exact Hts.
  - apply Forall_filter_bool, Hts.
  - apply Forall_map_on_id; assumption.
  - apply Forall_map_on_id; [|exact Hts]. intros t. apply Htext; assumption.
  - constructor; [apply Hadd; assumption | exact Hts].
Qed.

(** ** What a session keeps of the tasks *)

(** X1. Whatever the user does, in whatever order, a list whose texts are
    non-empty and have no blank at either end stays such a list: the two
    handlers that write a text, [addTodo] and [saveEdit], write a trimmed one
    and write none that is empty. *)
Theorem session_keeps_texts (evs : list Event) (st : AppState) (w : World) :
  Forall textOk (todos st) -> Forall textOk (todos (run (session evs st) w)).
Proof.
  revert st w. apply (session_invariant (fun st _ => Forall textOk (todos st))).
  intros ev st w H. rewrite run_dispatch.
  apply (change_Forall textOk w _ _ _) with (4 := handle_change ev st w); [| | |exact H].
  - intros t Ht. exact Ht.
  - intros s t Hs1 Hs2 _. split; assumption.
  - intros s Hs1 Hs2. split; assumption.
Qed.

Lemma session_keeps_texts_witness :
  let w := mkWorld (fun n => 1700000000000 + Z.of_nat n) 0 (fun _ => JS.lit "0.k3") 0 ∅ in
  let st := initialState [mkTodo (JS.lit "a") (JS.lit "buy milk") false 7] in
  let evs := [ChangeNewTodo (JS.lit "  call  home "); SubmitForm;
              ClickText (mkTodo (JS.lit "a") (JS.lit "buy milk") false 7);
              ChangeEditText (JS.lit "   "); BlurEdit;
              ChangeNewTodo (JS.lit " "); SubmitForm] in
  List.map text (todos (run (session evs st) w)) = [JS.lit "call  home"; JS.lit "buy milk"] /\
  Forall textOk (todos (run (session evs st) w)).
Proof.
  intros w st evs. split; [reflexivity|].
  apply (session_keeps_texts evs st w).
  constructor; [|constructor]. split; [discriminate | reflexivity].
Defined.

(** X2. Whatever the user does, a list where no id is the empty string
    stays such a list: no handler rewrites an id, and the id [generateId]
    makes for a new task is never empty. *)
Theorem session_keeps_ids (evs : list Event) (st : AppState) (w : World) :
  Forall (fun t => id t <> []) (todos st) ->
  Forall (fun t => id t <> []) (todos (run (session evs st) w)).
Proof.
  revert st w. apply (session_invariant (fun st _ => Forall (fun t => id t <> []) (todos st))).
  intros ev st w H. rewrite run_dispatch.
  apply (change_Forall (fun t => id t <> []) w _ _ _) with (4 := handle_change ev st w);
    [| | |exact H].
  - intros t Ht. exact Ht.
  - intros s t _ _ Ht. exact Ht.
  - intros s _ _. simpl.
    change (run generateId w)
      with (JS.Number_toString 36 (clock w (ticks w)) ++ JS.substr 2 (entropy w (draws w))).
    intros E. apply app_eq_nil in E. destruct E as [E _].
    apply (Number_toString_nonempty 36) in E; [exact E | lia].
Qed.

Lemma session_keeps_ids_witness :
  let w := mkWorld (fun n => 1700000000000 + Z.of_nat n) 0 (fun _ => JS.lit "0") 0 ∅ in
  let evs := [ChangeNewTodo (JS.lit "one"); SubmitForm; ChangeNewTodo (JS.lit "two"); SubmitForm] in
  List.map id (todos (run (session evs (initialState [])) w))
    = [JS.lit "loyw3v2a"; JS.lit "loyw3v28"] /\
  Forall (fun t => id t <> []) (todos (run (session evs (initialState [])) w)).
Proof.
  intros w evs. split; [reflexivity|].
  apply (session_keeps_ids evs (initialState []) w). constructor.
Defined.

(** ** What a reload finds *)

Lemma load_of_synced (ts : list Todo) (w : World) :
  Forall validTodo ts ->
  localStorage w !! STORAGE_KEY = JSON.stringify (jsTodos ts) ->
  run initialTodos w = jsTodos ts.
Proof.
  intros Hv Hsync.
  destruct (parse_stringify_todos ts Hv) as (s & Hs & Htruthy & Hparse).
  rewrite Hs in Hsync.
  unfold initialTodos, run, mbind, M_bind, getItem. rewrite Hsync, Htruthy, Hparse.
  reflexivity.
Qed.

Lemma persist_synced (ts : list Todo) (w : World) :
  Forall validTodo ts ->
  localStorage (exec (persist ts) w) !! STORAGE_KEY = JSON.stringify (jsTodos ts).
Proof.
  intros Hv. unfold persist, persistValue. rewrite (stringify_jsTodos ts Hv).
  unfold exec, setItem. simpl. apply lookup_insert_eq.
Qed.

Lemma change_valid (w w' : World) (ts ts' : list Todo) :
  safeClock w -> change w ts w' ts' -> Forall validTodo ts -> Forall validTodo ts'.
Proof.
  intros Hsafe. apply change_Forall.
  - intros t Ht. exact Ht.
  - intros s t _ _ Ht. exact Ht.
  - intros s _ _. apply Hsafe.
Qed.

Lemma dispatch_synced (ev : Event) (st : AppState) (w : World) :
  synced st w -> synced (run (dispatch ev st) w) (exec (dispatch ev st) w).
Proof.
  intros (Hv & Hsafe & Hsync).
  pose proof (handle_change ev st w) as Hch.
  pose proof (change_valid _ _ _ _ Hsafe Hch Hv) as Hv'.
  destruct (change_world _ _ _ _ Hch) as (Hclock & Hstore & _).
  rewrite run_dispatch, exec_dispatch.
  destruct (callsSetTodos ev st) eqn:E.
  - split; [exact Hv'|]. split.
    + intros n. destruct (persist_world (todos (run (handle ev st) w)) (exec (handle ev st) w))
        as [-> _]. rewrite Hclock. apply Hsafe.
    + apply persist_synced, Hv'.
  - split; [exact Hv'|]. split.
    + intros n. rewrite Hclock. apply Hsafe.
    + rewrite Hstore, Hsync, (handle_same_todos ev st w E). reflexivity.
Qed.

(** X3. Nothing the user does is lost on a reload: after the first render
    of a list whose timestamps are safe integers and any sequence of events,
    under a clock that shows safe integers, what the initialiser of [todos]
    would read from the storage is the list the page shows, and the storage
    holds its serialisation under [STORAGE_KEY]. *)
Theorem reload_after_session (ts0 : list Todo) (evs : list Event) (w0 : World) :
  Forall validTodo ts0 -> safeClock w0 ->
  let page := st ← firstRender ts0; session evs st in
  run initialTodos (exec page w0) = jsTodos (todos (run page w0)) /\
  localStorage (exec page w0) !! STORAGE_KEY
    = JSON.stringify (jsTodos (todos (run page w0))).
Proof.
  intros Hv Hsafe page.
  assert (synced (run page w0) (exec page w0)) as (Hv' & _ & Hsync).
  { unfold page. rewrite run_bind, exec_bind.
    apply (session_invariant synced dispatch_synced).
    unfold firstRender. rewrite run_bind, exec_bind.
    change (run (mret (initialState ts0) : M AppState) (exec (persist ts0) w0))
      with (initialState ts0).
    change (exec (mret (initialState ts0) : M AppState) (exec (persist ts0) w0))
      with (exec (persist ts0) w0).
    split; [exact Hv|]. split.
    - intros n. destruct (persist_world ts0 w0) as [-> _]. apply Hsafe.
    - apply persist_synced, Hv. }
  split; [apply load_of_synced; assumption | exact Hsync].
Qed.

Lemma reload_after_session_witness :
  let w0 := mkWorld (fun n => 1700000000000 + Z.of_nat (Nat.min n 1000)) 0
                    (fun _ => JS.lit "0.k3") 0 {[ STORAGE_KEY := JS.lit "[" ]} in
  let a := mkTodo (JS.lit "a") (JS.lit "buy milk") false 7 in
  let evs := [ChangeNewTodo (JS.lit "call home"); SubmitForm; ClickCheckbox a;
              ClickFilter FCompleted; ClickClearCompleted] in
  let page := st ← firstRender [a]; session evs st in
  run initialTodos (exec page w0) = jsTodos (todos (run page w0)) /\
  List.map text (todos (run page w0)) = [JS.lit "call home"].
Proof.
  intros w0 a evs page. split; [|reflexivity].
  apply (reload_after_session [a] evs w0).
  - constructor; [|constructor]. unfold validTodo, JS.MAX_SAFE_INTEGER. simpl. lia.
  - intros n. unfold JS.MAX_SAFE_INTEGER.
    change (clock w0 n) with (1700000000000 + Z.of_nat (Nat.min n 1000)).
    change (2 ^ 53 - 1) with 9007199254740991. lia.
Defined.

(** ** The order of the list *)

Lemma newestFirst_filter (p : Todo -> bool) (ts : list Todo) :
  newestFirst ts -> newestFirst (List.filter p ts).
Proof.
  unfold newestFirst. induction 1 as [|t ts _ IH Hall]; simpl; [constructor|].
  destruct (p t); [|exact IH]. constructor; [exact IH|].
  apply Forall_filter_bool, Hall.
Qed.

Lemma newestFirst_map (f : Todo -> Todo) (ts : list Todo) :
  (forall t, createdAt (f t) = createdAt t) ->
  newestFirst ts -> newestFirst (List.map f ts).
Proof.
  intros Hf. unfold newestFirst. induction 1 as [|t ts _ IH Hall]; simpl; constructor.
  - exact IH.
  - rewrite Hf. apply Forall_forall. intros u Hu.
    apply list_elem_of_In, List.in_map_iff in Hu. destruct Hu as (x & <- & Hx).
    rewrite Hf. rewrite Forall_forall in Hall. apply Hall, list_elem_of_In, Hx.
Qed.

Lemma change_dated (w w' : World) (ts ts' : list Todo) :
  monotoneClock w -> change w ts w' ts' ->
  newestFirst ts -> Forall (fun t => createdAt t <= clock w (ticks w)) ts ->
  newestFirst ts' /\ Forall (fun t => createdAt t <= clock w' (ticks w')) ts'.
Proof.
  intros Hmono Hch Hsorted Hbound.
  destruct Hch as [|p|i|i s Hs1 Hs2|s Hs1 Hs2].
  - split; assumption.
  - split; [apply newestFirst_filter, Hsorted | apply Forall_filter_bool, Hbound].
  - split.
    + apply newestFirst_map; [|exact Hsorted].
      intros t. destruct (JS.streq (id t) i); reflexivity.
    + apply Forall_map_on_id; [|exact Hbound]. intros t Ht. exact Ht.
  - split.
    + apply newestFirst_map; [|exact Hsorted].
      intros t. destruct (JS.streq (id t) i); reflexivity.
    + apply Forall_map_on_id; [|exact Hbound]. intros t Ht. exact Ht.
  - assert (clock w (ticks w) <= clock w (S (ticks w))) as H1 by (apply Hmono; lia).
    assert (clock w (S (ticks w)) <= clock w (S (S (ticks w)))) as H2 by (apply Hmono; lia).
    split.
    + constructor; [exact Hsorted|].
      eapply Forall_impl; [exact Hbound|]. intros t Ht. simpl in *. lia.
    + simpl. constructor; [simpl; lia|].
      eapply Forall_impl; [exact Hbound|]. intros t Ht. simpl in *. lia.
Qed.

Lemma dispatch_dated (ev : Event) (st : AppState) (w : World) :
  dated st w -> dated (run (dispatch ev st) w) (exec (dispatch ev st) w).
Proof.
  intros (Hmono & Hsorted & Hbound).
  pose proof (handle_change ev st w) as Hch.
  destruct (change_world _ _ _ _ Hch) as (Hclock & _ & _).
  destruct (change_dated _ _ _ _ Hmono Hch Hsorted Hbound) as [Hs' Hb'].
  rewrite run_dispatch, exec_dispatch.
  assert (monotoneClock (exec (handle ev st) w)) as Hmono'.
  { intros n m Hnm. rewrite Hclock. apply Hmono, Hnm. }
  destruct (callsSetTodos ev st); [|repeat split; assumption].
  destruct (persist_world (todos (run (handle ev st) w)) (exec (handle ev st) w)) as [Hc Ht].
  split; [|split].
  - intros n m Hnm. rewrite Hc. apply Hmono', Hnm.
  - exact Hs'.
  - rewrite Hc, Ht. exact Hb'.
Qed.

(** X4. Under a clock that never goes back, a list that is sorted newest
    first and holds no task dated after the next clock reading stays sorted
    newest first through any sequence of events: a new task goes in front with
    a reading that is not older, and no handler reorders or redates a task. *)
Theorem session_newest_first (evs : list Event) (st : AppState) (w : World) :
  monotoneClock w ->
  newestFirst (todos st) ->
  Forall (fun t => createdAt t <= clock w (ticks w)) (todos st) ->
  newestFirst (todos (run (session evs st) w)).
Proof.
  intros Hmono Hsorted Hbound.
  apply (session_invariant dated dispatch_dated evs st w).
  split; [exact Hmono | split; assumption].
Qed.

Lemma session_newest_first_witness :
  let w := mkWorld (fun n => 1700000000000 + 10 * Z.of_nat n) 0 (fun _ => JS.lit "0.k3") 0 ∅ in
  let a := mkTodo (JS.lit "a") (JS.lit "buy milk") false 7 in
  let evs := [ChangeNewTodo (JS.lit "one"); SubmitForm; ClickCheckbox a;
              ChangeNewTodo (JS.lit "two"); SubmitForm] in
  List.map createdAt (todos (run (session evs (initialState [a])) w))
    = [1700000000030; 1700000000010; 7] /\
  newestFirst (todos (run (session evs (initialState [a])) w)).
Proof.
  intros w a evs. split; [reflexivity|].
  apply (session_newest_first evs (initialState [a]) w).
  - intros n m Hnm. simpl. lia.
  - repeat constructor.
  - repeat constructor. simpl. lia.
Defined.

(** ** Unique ids *)

Lemma map_id_on_id (f : Todo -> Todo) (i : jsstring) (l : list Todo) :
  (forall t, id (f t) = id t) ->
  List.map id (List.map (fun t => if JS.streq (id t) i then f t else t) l) = List.map id l.
Proof.
  intros Hf. rewrite List.map_map. apply List.map_ext.
  intros t. destruct (JS.streq (id t) i); [apply Hf | reflexivity].
Qed.

Lemma map_filter_sublist {A B} (g : A -> B) (p : A -> bool) (l : list A) :
  sublist (List.map g (List.filter p l)) (List.map g l).
Proof.
  induction l as [|x l IH]; simpl; [constructor|].
  destruct (p x); simpl; [apply sublist_skip | apply sublist_cons]; exact IH.
Qed.

(** X5. No handler makes two tasks share an id out of a list where ids are
    unique, except an add that is given an id the list already holds: every
    event keeps ids unique when the id [generateId] would return is not in the
    list, and a non-blank add whose generated id is in the list leaves a list
    with a repeated id. *)
Theorem handle_keeps_unique_ids (ev : Event) (st : AppState) (w : World) :
  NoDup (List.map id (todos st)) ->
  (~ In (run generateId w) (List.map id (todos st)) ->
   NoDup (List.map id (todos (run (handle ev st) w)))) /\
  (In (run generateId w) (List.map id (todos st)) ->
   JS.trim (newTodo st) <> [] ->
   ~ NoDup (List.map id (todos (run (handle SubmitForm st) w)))).
Proof.
  intros Hnd. split.
  - intros Hfresh. destruct (handle_change ev st w) as [|p|i|i s Hs1 Hs2|s Hs1 Hs2].
    + exact Hnd.
    + eapply sublist_NoDup; [exact Hnd | apply map_filter_sublist].
    + rewrite map_id_on_id; [exact Hnd | reflexivity].
    + rewrite map_id_on_id; [exact Hnd | reflexivity].
    + simpl. apply NoDup_cons. split; [|exact Hnd].
      intros Hin. apply Hfresh, list_elem_of_In, Hin.
  - intros Hin Hne Hnd'. apply truthy_true_iff in Hne.
    unfold handle, addTodo, run in Hnd'. rewrite Hne in Hnd'. simpl in Hnd'.
    apply NoDup_cons in Hnd'. destruct Hnd' as [Hnot _].
    apply Hnot, list_elem_of_In, Hin.
Qed.

Lemma handle_keeps_unique_ids_witness :
  let w := mkWorld (fun _ => 1700000000000) 0 (fun _ => JS.lit "0.k3") 0 ∅ in
  let a := mkTodo (JS.lit "a") (JS.lit "one") false 1 in
  let b := mkTodo (JS.lit "loyw3v28k3") (JS.lit "two") true 2 in
  NoDup (List.map id (todos (run (handle (ClickDelete a) (initialState [a; b])) w))) /\
  ~ NoDup (List.map id (todos (run (handle SubmitForm
                                      (setNewTodo (JS.lit "three") (initialState [a; b]))) w))).
Proof.
  intros w a b.
  assert (NoDup (List.map id [a; b])) as Hnd.
  { simpl. apply NoDup_cons. split; [|apply NoDup_singleton].
    intros Hin. apply list_elem_of_In in Hin. destruct Hin as [Hin|[]]. discriminate Hin. }
  split.
  - destruct (handle_keeps_unique_ids (ClickDelete a) (initialState [a; b])
                (mkWorld (fun _ => 0) 0 (fun _ => []) 0 ∅) Hnd) as [H _].
    apply H. intros [Hin|[Hin|[]]]; discriminate Hin.
  - destruct (handle_keeps_unique_ids SubmitForm
                (setNewTodo (JS.lit "three") (initialState [a; b])) w Hnd) as [_ H].
    apply H; [right; left; reflexivity | discriminate].
Defined.

(** ** Counts *)

Lemma filter_none {A} (p : A -> bool) (l : list A) :
  Forall (fun x => p x = false) l -> List.filter p l = [].
Proof.
  induction 1 as [|x l Hx _ IH]; simpl; [reflexivity|]. rewrite Hx. exact IH.
Qed.

Lemma filter_all {A} (p : A -> bool) (l : list A) :
  Forall (fun x => p x = true) l -> List.filter p l = l.
Proof.
  induction 1 as [|x l Hx _ IH]; simpl; [reflexivity|]. rewrite Hx, IH. reflexivity.
Qed.

Lemma filter_filter_bool {A} (p q : A -> bool) (l : list A) :
  List.filter p (List.filter q l) = List.filter (fun x => q x && p x) l.
Proof.
  induction l as [|x l IH]; simpl; [reflexivity|].
  destruct (q x); simpl; [destruct (p x)|]; rewrite IH; reflexivity.
Qed.

Lemma filter_length_le {A} (p : A -> bool) (l : list A) :
  (length (List.filter p l) <= length l)%nat.
Proof. induction l as [|x l IH]; simpl; [lia|]. destruct (p x); simpl; lia. Qed.

(** A filter that drops nothing keeps every element. *)
Lemma filter_length_all {A} (p : A -> bool) (l : list A) :
  length (List.filter p l) = length l -> Forall (fun x => p x = true) l.
Proof.
  induction l as [|x l IH]; simpl; [constructor|].
  pose proof (filter_length_le p l) as Hle.
  destruct (p x) eqn:E; simpl; intros H; [|lia].
  constructor; [exact E | apply IH; lia].
Qed.

(** X6. After [clearCompleted] no task is completed and the count of active
    tasks is what it was; clearing again changes nothing, and the footer with
    the clear button is no longer rendered. *)
Theorem clearCompleted_counts (st : AppState) :
  completedCount (clearCompleted st) = 0%nat /\
  activeCount (clearCompleted st) = activeCount st /\
  clearCompleted (clearCompleted st) = clearCompleted st /\
  showFooter (clearCompleted st) = false.
Proof.
  assert (Forall (fun t => negb (completed t) = true)
                 (List.filter (fun t => negb (completed t)) (todos st))) as Hact.
  { apply Forall_forall. intros t Ht. apply list_elem_of_In, List.filter_In in Ht. apply Ht. }
  assert (completedCount (clearCompleted st) = 0%nat) as H0.
  { unfold completedCount, clearCompleted, setTodos. simpl.
    rewrite filter_none; [reflexivity|].
    eapply Forall_impl; [exact Hact|]. intros t Ht. simpl in Ht.
    apply negb_true_iff in Ht. exact Ht. }
  split; [exact H0|]. split; [|split].
  - unfold activeCount, clearCompleted, setTodos. simpl.
    rewrite (filter_all _ _ Hact). reflexivity.
  - unfold clearCompleted, setTodos. simpl. rewrite (filter_all _ _ Hact). reflexivity.
  - unfold showFooter. rewrite H0. reflexivity.
Qed.

(** X7. The footer with the clear button is rendered exactly when
    [clearCompleted] would change the list, that is when some task is
    completed. *)
Theorem showFooter_iff (st : AppState) :
  (showFooter st = true <-> todos (clearCompleted st) <> todos st) /\
  (showFooter st = true <-> exists t, In t (todos st) /\ completed t = true).
Proof.
  unfold showFooter, completedCount, clearCompleted, setTodos. simpl.
  rewrite Nat.ltb_lt.
  assert ((0 < length (List.filter (fun t => completed t) (todos st)))%nat <->
          exists t, In t (todos st) /\ completed t = true) as Hex.
  { split.
    - destruct (List.filter (fun t => completed t) (todos st)) as [|t l] eqn:E;
        [simpl; lia|].
      intros _. exists t. apply (List.filter_In (fun t => completed t)).
      rewrite E. left. reflexivity.
    - intros (t & Ht).
      assert (In t (List.filter (fun t => completed t) (todos st))) as Hf
        by (apply (List.filter_In (fun t => completed t)); exact Ht).
      destruct (List.filter (fun t => completed t) (todos st)); [destruct Hf | simpl; lia]. }
  split; [|exact Hex]. rewrite Hex. split.
  - intros (t & Hin & Hc) E.
    assert (In t (List.filter (fun t => negb (completed t)) (todos st))) as H
      by (rewrite E; exact Hin).
    apply List.filter_In in H. destruct H as [_ H]. rewrite Hc in H. discriminate H.
  - intros Hne.
    destruct (List.existsb (fun t => completed t) (todos st)) eqn:E.
    + apply List.existsb_exists in E. exact E.
    + exfalso. apply Hne. apply filter_all. apply Forall_forall. intros t Ht.
      apply negb_true_iff. destruct (completed t) eqn:Ec; [|reflexivity].
      assert (List.existsb (fun t => completed t) (todos st) = true) as H.
      { apply List.existsb_exists. exists t. split; [apply list_elem_of_In, Ht | exact Ec]. }
      congruence.
Qed.

Lemma count_split (p : Todo -> bool) (l1 l2 : list Todo) (t : Todo) :
  length (List.filter p (l1 ++ t :: l2)) =
    (length (List.filter p l1) + (if p t then 1 else 0) + length (List.filter p l2))%nat.
Proof.
  rewrite List.filter_app, length_app. simpl. destruct (p t); simpl; lia.
Qed.

(** X8. With unique ids, the checkbox of a task of the list moves exactly
    one task between the two counts: an active task leaves the active count
    for the completed count, a completed one goes the other way. *)
Theorem toggleTodo_counts (st : AppState) (t : Todo) :
  In t (todos st) -> NoDup (List.map id (todos st)) ->
  let st' := toggleTodo (id t) st in
  (completed t = false ->
     S (activeCount st') = activeCount st /\ completedCount st' = S (completedCount st)) /\
  (completed t = true ->
     activeCount st' = S (activeCount st) /\ S (completedCount st') = completedCount st).
Proof.
  intros Hin Hnd st'.
  apply List.in_split in Hin. destruct Hin as (l1 & l2 & Hts).
  assert (todos st' = l1 ++ flipped t :: l2) as Hts'.
  { unfold st', toggleTodo, setTodos. simpl. rewrite Hts in Hnd |- *.
    apply (map_on_id_unique flipped), Hnd. }
  unfold activeCount, completedCount. rewrite Hts, Hts', !count_split. simpl.
  split; intros ->; simpl; lia.
Qed.

Lemma toggleTodo_counts_witness :
  let a := mkTodo (JS.lit "a") (JS.lit "one") false 1 in
  let b := mkTodo (JS.lit "b") (JS.lit "two") true 2 in
  let st := initialState [a; b] in
  S (activeCount (toggleTodo (JS.lit "a") st)) = activeCount st /\
  activeCount (toggleTodo (JS.lit "b") st) = S (activeCount st).
Proof.
  intros a b st.
  assert (NoDup (List.map id (todos st))) as Hnd.
  { simpl. apply NoDup_cons. split; [|apply NoDup_singleton].
    intros Hin. apply list_elem_of_In in Hin. destruct Hin as [Hin|[]]. discriminate Hin. }
  split.
  - destruct (toggleTodo_counts st a (or_introl eq_refl) Hnd) as [H _].
    apply H. reflexivity.
  - destruct (toggleTodo_counts st b (or_intror (or_introl eq_refl)) Hnd) as [_ H].
    apply H. reflexivity.
Defined.

(** ** How the handlers compose *)

Lemma setTodos_ext (f g : list Todo -> list Todo) (st : AppState) :
  f (todos st) = g (todos st) -> setTodos f st = setTodos g st.
Proof. unfold setTodos. intros ->. reflexivity. Qed.

(** X9. The list handlers can be applied in either order: two toggles
    commute, two deletions commute, a deletion commutes with a toggle and with
    [clearCompleted]; and deleting an id after toggling it is deleting it. *)
Theorem handlers_commute (st : AppState) (i j : jsstring) :
  toggleTodo i (toggleTodo j st) = toggleTodo j (toggleTodo i st) /\
  deleteTodo i (deleteTodo j st) = deleteTodo j (deleteTodo i st) /\
  deleteTodo i (toggleTodo j st) = toggleTodo j (deleteTodo i st) /\
  deleteTodo i (clearCompleted st) = clearCompleted (deleteTodo i st) /\
  deleteTodo i (toggleTodo i st) = deleteTodo i st.
Proof.
  destruct st as [ts n e x f]. unfold toggleTodo, deleteTodo, clearCompleted, setTodos. simpl.
  split; [|split; [|split; [|split]]]; f_equal.
  - rewrite !List.map_map. apply List.map_ext. intros t.
    destruct (JS.streq (id t) i) eqn:Ei, (JS.streq (id t) j) eqn:Ej; simpl;
      rewrite ?Ei, ?Ej; reflexivity.
  - rewrite !filter_filter_bool. apply List.filter_ext. intros t. apply andb_comm.
  - induction ts as [|t ts IH]; simpl; [reflexivity|].
    destruct (JS.streq (id t) j) eqn:Ej; simpl;
      destruct (JS.streq (id t) i) eqn:Ei; simpl; rewrite ?Ej, IH; reflexivity.
  - rewrite !filter_filter_bool. apply List.filter_ext. intros t. apply andb_comm.
  - induction ts as [|t ts IH]; simpl; [reflexivity|].
    destruct (JS.streq (id t) i) eqn:Ei; simpl; rewrite Ei; simpl; rewrite IH; reflexivity.
Qed.

(** X10. Opening the editor on a task and saving, after typing nothing or
    only blanks around the text, leaves the list as it was and closes the
    editor, when the ids of the list are unique, the id of the task is not
    empty and its text is non-empty and trimmed. *)
Theorem edit_unchanged_is_noop (st : AppState) (t : Todo) (typed : jsstring) :
  In t (todos st) ->
  NoDup (List.map id (todos st)) ->
  id t <> [] ->
  textOk t ->
  JS.trim typed = text t ->
  let st' := saveEdit (setEditText typed (startEditing t st)) in
  todos st' = todos st /\ editingId st' = None /\ editText st' = [].
Proof.
  intros Hin Hnd Hid [Hne _] Htyped st'.
  apply truthy_true_iff in Hid. apply truthy_true_iff in Hne.
  unfold st', saveEdit, startEditing. simpl. rewrite Hid, Htyped, Hne. simpl.
  split; [|split; reflexivity].
  apply List.in_split in Hin. destruct Hin as (l1 & l2 & Hts).
  rewrite Hts in Hnd |- *.
  etransitivity; [apply (map_on_id_unique (retexted (text t)) l1 l2 t Hnd)|].
  unfold retexted. rewrite todo_eta. reflexivity.
Qed.

Lemma edit_unchanged_is_noop_witness :
  let a := mkTodo (JS.lit "a") (JS.lit "one") false 1 in
  let b := mkTodo (JS.lit "b") (JS.lit "two") false 2 in
  todos (saveEdit (setEditText (JS.lit " two  ") (startEditing b (initialState [a; b]))))
  = [a; b].
Proof.
  intros a b.
  apply (edit_unchanged_is_noop (initialState [a; b]) b (JS.lit " two  ")).
  - right. left. reflexivity.
  - simpl. apply NoDup_cons. split; [|apply NoDup_singleton].
    intros Hin. apply list_elem_of_In in Hin. destruct Hin as [Hin|[]]. discriminate Hin.
  - discriminate.
  - split; [discriminate | reflexivity].
  - reflexivity.
Defined.

(** ** What the page shows *)

(** X11. Of the empty state, the no-match message and the list of tasks,
    the page shows exactly one: the empty state when there is no task, the
    message when there are tasks and none passes the filter, which cannot
    happen under the filter ['all'], and at least one task otherwise. The
    filter tabs are shown exactly when the empty state is not. *)
Theorem view_cases (st : AppState) :
  showFilterTabs st = negb (showEmptyState st) /\
  ((showEmptyState st = true /\ showNoMatches st = false /\
    todos st = [] /\ filteredTodos st = []) \/
   (showEmptyState st = false /\ showNoMatches st = true /\
    todos st <> [] /\ filteredTodos st = [] /\ filter st <> FAll) \/
   (showEmptyState st = false /\ showNoMatches st = false /\ filteredTodos st <> [])).
Proof.
  unfold showFilterTabs, showEmptyState, showNoMatches.
  destruct (todos st) as [|t ts] eqn:Ets.
  - split; [reflexivity|]. left. unfold filteredTodos. rewrite Ets. repeat split.
  - split; [reflexivity|]. right.
    destruct (filteredTodos st) as [|u us] eqn:Ef.
    + left. repeat split; try discriminate.
      intros Hall. unfold filteredTodos in Ef. rewrite Hall, filter_true, Ets in Ef.
      discriminate Ef.
    + right. repeat split. discriminate.
Qed.

Lemma unique_id_split (l1 l2 : list Todo) (t : Todo) :
  NoDup (List.map id (l1 ++ t :: l2)) ->
  Forall (fun u => id u <> id t) l1 /\ Forall (fun u => id u <> id t) l2.
Proof.
  rewrite List.map_app. simpl. intros Hnd.
  apply NoDup_app in Hnd. destruct Hnd as (_ & Hdisj & Hnd2).
  apply NoDup_cons in Hnd2. destruct Hnd2 as (Hnot & _).
  split; apply Forall_forall; intros u Hu Heq.
  - apply (Hdisj (id u)).
    + apply list_elem_of_In, List.in_map, list_elem_of_In. exact Hu.
    + rewrite Heq. left.
  - apply Hnot. rewrite <- Heq.
    apply list_elem_of_In, List.in_map, list_elem_of_In. exact Hu.
Qed.

Lemma filteredTodos_passes (st : AppState) :
  filteredTodos st = List.filter (passes (filter st)) (todos st).
Proof. reflexivity. Qed.

(** X12. Under the filter ['active'] or ['completed'] and with unique ids,
    the checkbox of a task that is shown takes that task out of what is shown
    and leaves the rest of it as it is. *)
Theorem toggle_leaves_view (st : AppState) (t : Todo) :
  filter st <> FAll ->
  In t (filteredTodos st) ->
  NoDup (List.map id (todos st)) ->
  filteredTodos (toggleTodo (id t) st)
  = List.filter (fun u => negb (JS.streq (id u) (id t))) (filteredTodos st) /\
  Forall (fun u => id u <> id t) (filteredTodos (toggleTodo (id t) st)).
Proof.
  intros Hf Hin Hnd.
  rewrite filteredTodos_passes in Hin. apply List.filter_In in Hin.
  destruct Hin as [Hin Hp].
  apply List.in_split in Hin. destruct Hin as (l1 & l2 & Hts).
  rewrite Hts in Hnd. destruct (unique_id_split l1 l2 t Hnd) as [H1 H2].
  assert (filteredTodos (toggleTodo (id t) st)
          = List.filter (passes (filter st)) l1 ++ List.filter (passes (filter st)) l2) as E.
  { rewrite filteredTodos_passes.
    change (filter (toggleTodo (id t) st)) with (filter st).
    change (todos (toggleTodo (id t) st))
      with (List.map (fun u => if JS.streq (id u) (id t) then flipped u else u) (todos st)).
    rewrite Hts, (map_on_id_unique flipped l1 l2 t Hnd), List.filter_app. simpl.
    assert (passes (filter st) (flipped t) = false) as ->; [|reflexivity].
    destruct (filter st); simpl in *; [congruence| |]; rewrite Hp; reflexivity. }
  assert (forall l, Forall (fun u => id u <> id t) l ->
            List.filter (fun u => negb (JS.streq (id u) (id t)))
                        (List.filter (passes (filter st)) l)
            = List.filter (passes (filter st)) l) as Hkeep.
  { intros l Hl. apply filter_all. apply Forall_filter_bool.
    eapply Forall_impl; [exact Hl|]. intros u Hu. simpl.
    apply negb_true_iff, streq_false_iff, Hu. }
  split.
  - rewrite E, filteredTodos_passes, Hts, List.filter_app. simpl. rewrite Hp.
    rewrite List.filter_app. simpl.
    assert (JS.streq (id t) (id t) = true) as -> by (apply streq_true_iff; reflexivity).
    simpl. rewrite (Hkeep l1 H1), (Hkeep l2 H2). reflexivity.
  - rewrite E. apply Forall_app. split; apply Forall_filter_bool; assumption.
Qed.

Lemma toggle_leaves_view_witness :
  let a := mkTodo (JS.lit "a") (JS.lit "one") false 1 in
  let b := mkTodo (JS.lit "b") (JS.lit "two") false 2 in
  let st := setFilter FActive (initialState [a; b]) in
  filteredTodos (toggleTodo (JS.lit "a") st) = [b].
Proof.
  intros a b st.
  destruct (toggle_leaves_view st a) as [H _].
  - discriminate.
  - left. reflexivity.
  - simpl. apply NoDup_cons. split; [|apply NoDup_singleton].
    intros Hin. apply list_elem_of_In in Hin. destruct Hin as [Hin|[]]. discriminate Hin.
  - etransitivity; [exact H | reflexivity].
Defined.

(** X13. What is shown after a deletion is what was shown without the tasks
    of that id, under every filter; after [clearCompleted] it is the active
    tasks, or nothing under the filter ['completed']. *)
Theorem view_after_removal (st : AppState) (i : jsstring) :
  filteredTodos (deleteTodo i st)
  = List.filter (fun u => negb (JS.streq (id u) i)) (filteredTodos st) /\
  filteredTodos (clearCompleted st)
  = match filter st with
    | FCompleted => []
    | _ => List.filter (fun u => negb (completed u)) (todos st)
    end.
Proof.
  split.
  - rewrite !filteredTodos_passes. unfold deleteTodo, setTodos. simpl.
    rewrite !filter_filter_bool. apply List.filter_ext. intros t. apply andb_comm.
  - rewrite filteredTodos_passes. unfold clearCompleted, setTodos. simpl.
    rewrite filter_filter_bool.
    destruct (filter st); simpl.
    + apply List.filter_ext. intros t. apply andb_true_r.
    + apply List.filter_ext. intros t. destruct (completed t); reflexivity.
    + apply filter_none. apply Forall_forall. intros t _. destruct (completed t); reflexivity.
Qed.

(** X14. A task that is added shows on top of what is shown under the
    filters ['all'] and ['active'], and does not show under the filter
    ['completed'], where the page looks as before although the list grew; the
    add input is emptied either way. *)
Theorem view_after_add (st : AppState) (w : World) :
  JS.trim (newTodo st) <> [] ->
  let st' := run (addTodo st) w in
  newTodo st' = [] /\ filter st' = filter st /\
  length (todos st') = S (length (todos st)) /\
  (filter st <> FCompleted ->
     exists t, filteredTodos st' = t :: filteredTodos st /\
               text t = JS.trim (newTodo st) /\ completed t = false) /\
  (filter st = FCompleted -> filteredTodos st' = filteredTodos st).
Proof.
  intros Hne st'. apply truthy_true_iff in Hne.
  assert (st' = setNewTodo [] (setTodos (fun prev =>
            mkTodo (run generateId w) (JS.trim (newTodo st)) false
                   (run Date_now (exec generateId w)) :: prev) st)) as ->.
  { unfold st', addTodo, run, exec. rewrite Hne. reflexivity. }
  split; [reflexivity|]. split; [reflexivity|]. split; [reflexivity|].
  set (new := mkTodo (run generateId w) (JS.trim (newTodo st)) false
                     (run Date_now (exec generateId w))).
  rewrite !filteredTodos_passes.
  unfold setNewTodo, setTodos. cbn [filter todos List.filter].
  split.
  - intros Hf. exists new. split; [|split; reflexivity].
    destruct (filter st); [reflexivity | reflexivity | congruence].
  - intros ->. reflexivity.
Qed.

Lemma view_after_add_witness :
  let w := mkWorld (fun _ => 1700000000000) 0 (fun _ => JS.lit "0.k3") 0 ∅ in
  let b := mkTodo (JS.lit "b") (JS.lit "two") true 2 in
  let st := setNewTodo (JS.lit "three") (setFilter FCompleted (initialState [b])) in
  filteredTodos (run (addTodo st) w) = [b] /\ length (todos (run (addTodo st) w)) = 2%nat.
Proof.
  intros w b st.
  destruct (view_after_add st w) as (_ & _ & Hlen & _ & Hc); [discriminate|].
  split; [apply Hc; reflexivity | exact Hlen].
Defined.

Lemma headerFor_digits (n : nat) :
  n <> 0%nat ->
  JSON.takeDigits (headerFor n) = (JS.digits 10 (Z.of_nat n), List.skipn (length (JS.digits 10 (Z.of_nat n))) (headerFor n)).
Proof.
  intros Hn. unfold headerFor.
  assert (Nat.eqb n 0 = false) as -> by (apply Nat.eqb_neq, Hn).
  unfold JS.Number_toString.
  assert ((Z.of_nat n <? 0) = false) as -> by (apply Z.ltb_ge; lia).
  assert (2 <= 10 <= 36) as H10 by lia.
  pose proof (digits_rendering 10 H10 (Z.of_nat n) ltac:(lia)) as [Hd _ _ _ _ _].
  rewrite List.skipn_app, List.skipn_all, Nat.sub_diag. simpl List.skipn.
  apply takeDigits_app; [exact Hd|].
  simpl. repeat split.
Qed.

(** X15. The line under the title tells the number of active tasks: it
    reads that all tasks are completed exactly when no task is active, an
    empty list included, and two states with different counts never get the
    same line. *)
Theorem headerText_tells_count (st1 st2 : AppState) :
  (headerText st1 = JS.lit "All tasks completed! " ++ [55356%N; 57225%N]
   <-> activeCount st1 = 0%nat) /\
  (headerText st1 = headerText st2 -> activeCount st1 = activeCount st2).
Proof.
  assert (forall st, headerText st = headerFor (activeCount st)) as Hh by reflexivity.
  rewrite !Hh. generalize (activeCount st1) (activeCount st2). clear. intros n m.
  assert (2 <= 10 <= 36) as H10 by lia.
  assert (forall k, k <> 0%nat -> forall r, headerFor k <> 65%N :: r) as Hhead.
  { intros k Hk r E. pose proof (headerFor_digits k Hk) as Ht. rewrite E in Ht.
    simpl in Ht. injection Ht as Ht _.
    destruct (digits_head 10 H10 (Z.of_nat k) ltac:(lia)) as (c & D & HD & _).
    rewrite HD in Ht. discriminate Ht. }
  split.
  - split.
    + intros E. destruct n as [|n]; [reflexivity|].
      exfalso. apply (Hhead (S n) ltac:(lia) _ E).
    + intros ->. reflexivity.
  - intros E. destruct (Nat.eq_dec n 0%nat) as [->|Hn].
    + destruct m as [|m]; [reflexivity|].
      exfalso. symmetry in E. apply (Hhead (S m) ltac:(lia) _ E).
    + destruct (Nat.eq_dec m 0%nat) as [->|Hm].
      * exfalso. apply (Hhead n Hn _ E).
      * pose proof (headerFor_digits n Hn) as Hdn.
        pose proof (headerFor_digits m Hm) as Hdm.
        rewrite E, Hdm in Hdn. injection Hdn as Hdn _.
        apply digits_inj in Hdn; lia.
Qed.

(** ** Closing the editor *)

(** X16. [saveEdit], and so a blur or the Enter key, closes the editor and
    empties its text in every state but one: when the id being edited is the
    empty string it returns the state as it is, editor open; [cancelEdit]
    closes the editor in every state, and neither it nor a key other than
    Enter touches the list. *)
Theorem editor_closing (st : AppState) (k : Key) :
  (editingId st <> Some [] ->
     editingId (saveEdit st) = None /\ (editingId st <> None -> editText (saveEdit st) = [])) /\
  (editingId st = Some [] -> saveEdit st = st) /\
  editingId (cancelEdit st) = None /\ editText (cancelEdit st) = [] /\
  todos (cancelEdit st) = todos st /\
  (k <> Enter -> todos (handleEditKeyDown k st) = todos st).
Proof.
  split; [|split; [|split; [|split; [|split]]]]; try reflexivity.
  - intros Hne. unfold saveEdit.
    destruct (editingId st) as [[|c eid]|] eqn:E.
    + congruence.
    + simpl. destruct (JS.truthy (JS.trim (editText st))); split; reflexivity.
    + rewrite E. split; [reflexivity | congruence].
  - intros E. unfold saveEdit. rewrite E. reflexivity.
  - intros Hk. destruct k; [congruence | reflexivity | reflexivity].
Qed.

Lemma editor_closing_witness :
  let odd := mkTodo [] (JS.lit "no id") false 1 in
  let st := setEditText (JS.lit "typed") (startEditing odd (initialState [odd])) in
  saveEdit st = st /\ editingId (cancelEdit st) = None /\
  editingId (saveEdit (setEditingId (Some (JS.lit "a")) st)) = None.
Proof.
  intros odd st.
  destruct (editor_closing st Escape) as (_ & H2 & H3 & _).
  destruct (editor_closing (setEditingId (Some (JS.lit "a")) st) Escape) as (H1 & _).
  split; [apply H2; reflexivity|]. split; [exact H3|].
  apply H1. discriminate.
Defined.

(** X17. Deleting the task that is being edited and then leaving the input
    drops what was typed: the save that the blur runs changes no task, and
    closes the editor when the id is not the empty string. *)
Theorem delete_while_editing (st : AppState) (i : jsstring) :
  editingId st = Some i ->
  todos (saveEdit (deleteTodo i st)) = todos (deleteTodo i st) /\
  (i <> [] -> editingId (saveEdit (deleteTodo i st)) = None).
Proof.
  intros E. unfold saveEdit.
  change (editingId (deleteTodo i st)) with (editingId st). rewrite E.
  destruct (JS.truthy i) eqn:Ei; simpl.
  - split; [|reflexivity].
    destruct (JS.truthy (JS.trim (editText st))); simpl; [|reflexivity].
    apply map_on_id_absent, filter_id_gone.
  - split; [reflexivity|]. apply truthy_false_iff in Ei. congruence.
Qed.

Lemma delete_while_editing_witness :
  let a := mkTodo (JS.lit "a") (JS.lit "one") false 1 in
  let b := mkTodo (JS.lit "b") (JS.lit "two") false 2 in
  let st := setEditText (JS.lit "changed") (startEditing a (initialState [a; b])) in
  todos (saveEdit (deleteTodo (JS.lit "a") st)) = [b].
Proof.
  intros a b st.
  destruct (delete_while_editing st (JS.lit "a") eq_refl) as [H _].
  etransitivity; [exact H | reflexivity].
Defined.

(** ** Stored text that does not parse *)

(** X18. Stored text that [JSON.parse] rejects is not kept: the page starts
    from the empty list, and the effect of its first render writes the text of
    the empty list over it. *)
Theorem corrupt_storage_is_overwritten (w : World) (blob : jsstring) :
  localStorage w !! STORAGE_KEY = Some blob ->
  JSON.parse blob = None ->
  run initialTodos w = jsTodos [] /\
  localStorage (exec (firstRender []) w) !! STORAGE_KEY = Some (JS.lit "[]") /\
  blob <> JS.lit "[]".
Proof.
  intros Hget Hparse. split; [|split].
  - unfold initialTodos, run, mbind, M_bind, getItem. rewrite Hget, Hparse.
    destruct (JS.truthy blob); reflexivity.
  - unfold firstRender. rewrite exec_bind.
    change (exec (mret (initialState []) : M AppState) (exec (persist []) w))
      with (exec (persist []) w).
    change (persist []) with (setItem STORAGE_KEY (JS.lit "[]")).
    unfold exec, setItem. simpl. apply lookup_insert_eq.
  - intros ->. discriminate Hparse.
Qed.

Lemma corrupt_storage_is_overwritten_witness :
  let w := mkWorld (fun _ => 0) 0 (fun _ => []) 0 {[ STORAGE_KEY := JS.lit "[{,oops" ]} in
  run initialTodos w = jsTodos [] /\
  localStorage (exec (firstRender []) w) !! STORAGE_KEY = Some (JS.lit "[]").
Proof.
  intros w.
  destruct (corrupt_storage_is_overwritten w (JS.lit "[{,oops")) as (H1 & H2 & _);
    [reflexivity | reflexivity |].
  split; [exact H1 | exact H2].
Defined.

Lemma headerText_tells_count_witness :
  let a := mkTodo (JS.lit "a") (JS.lit "one") false 1 in
  let b := mkTodo (JS.lit "b") (JS.lit "two") false 2 in
  headerText (initialState [a]) = JS.lit "1 task remaining" /\
  headerText (initialState [a; b]) = JS.lit "2 tasks remaining" /\
  (headerText (initialState [a]) = headerText (initialState [a; a]) -> False).
Proof.
  intros a b. split; [reflexivity|]. split; [reflexivity|].
  intros E.
  destruct (headerText_tells_count (initialState [a]) (initialState [a; a])) as [_ H].
  apply H in E. discriminate E.
Defined.
